(** * sda-pipeline: worker loops, verification pipeline and storage backends

    A shallow embedding of [cmd/sync/sync.go] (the two copy workers and the
    verify worker that the file holds) and of [internal/storage/storage.go],
    followed by the properties of the specification that were checked
    against it.

    Conventions.
    - A Go [error] value is an [option]: [None] is [nil].
    - A Go [string] is a [string] (a [list ascii] where [path/filepath]
      walks through it); file contents are [list byte].
    - Collaborators outside the two source files (broker, database, JSON
      and schema libraries, the operating system, the S3 client, the
      Crypt4GH reader) are fields of environment records: the code is
      modelled for every behaviour of theirs. *)

From Stdlib Require Import String Ascii ZArith Lia Bool Arith List.
From Stdlib.Strings Require Import Byte.
Import ListNotations.

Set Implicit Arguments.


(** * The model *)

(** ** Go values shared by all packages *)

Module Go.

Definition bytes := list byte.

(** An [error] value; [io.EOF] and [io.ErrShortWrite] are the two
    sentinels the code below compares against. *)
Inductive error : Type :=
| EOF
| ErrShortWrite
| ErrorString (msg : string).

(** [err.Error()] on a non-nil error. *)
Definition Error (e : error) : string :=
  match e with
  | EOF => "EOF"
  | ErrShortWrite => "short write"
  | ErrorString msg => msg
  end.

(** [err == io.EOF] *)
Definition is_EOF (err : option error) : bool :=
  match err with
  | Some EOF => true
  | _ => false
  end.

(** [int64(z)]: two's complement wrap-around. *)
Definition int64 (z : Z) : Z := ((z + 2 ^ 63) mod 2 ^ 64 - 2 ^ 63)%Z.

(** How a piece of code can halt short of its value: a run-time panic
    (a method called on a nil interface or pointer), [log.Fatal] (the
    process exits), or no answer within the given number of loop turns. *)
Inductive abort : Type := Panic | Fatal | OutOfFuel.

Inductive res (A : Type) : Type :=
| Val (a : A)
| Stop (r : abort).
Arguments Stop {A}.

(** Code that mutates the objects of a world [W]; what it did before
    stopping short is kept. *)
Definition M (W A : Type) : Type := W -> res A * W.

Definition ret {W A} (a : A) : M W A := fun w => (Val a, w).

Definition bind {W A B} (c : M W A) (k : A -> M W B) : M W B :=
  fun w =>
    match c w with
    | (Val a, w') => k a w'
    | (Stop r, w') => (Stop r, w')
    end.

Definition get {W} : M W W := fun w => (Val w, w).
Definition gets {W A} (g : W -> A) : M W A := fun w => (Val (g w), w).
Definition modify {W} (g : W -> W) : M W unit := fun w => (Val tt, g w).
Definition halt {W A} (r : abort) : M W A := fun w => (Stop r, w).

(** [err.Error()]: a nil [err] panics. *)
Definition err_Error {W} (err : option error) : M W string :=
  match err with
  | Some e => ret (Error e)
  | None => halt Panic
  end.

End Go.

Notation "x <- c1 ;; c2" := (Go.bind c1 (fun x => c2))
  (at level 61, c1 at next level, right associativity).
Notation "' pat <- c1 ;; c2" :=
  (Go.bind c1 (fun x => match x with pat => c2 end))
  (at level 61, pat pattern, c1 at next level, right associativity).


(** ** Go's [path/filepath] on a Unix system *)

Module Filepath.

Definition path := list ascii.

Definition Separator : ascii := "/"%char.
Definition dot : ascii := "."%char.

Definition IsPathSeparator (c : ascii) : bool := Ascii.eqb c Separator.

(** [r == n || os.IsPathSeparator(path[r])], [rest] being [path[r:]]. *)
Definition at_elem_end (rest : path) : bool :=
  match rest with
  | [] => true
  | c :: _ => IsPathSeparator c
  end.

(** The output buffer [lazybuf] is kept reversed: its head is
    [buf[w-1]] and its length is [w].

    [[
      out.w--
      for out.w > dotdot && !os.IsPathSeparator(out.index(out.w)) {
          out.w--
      }
    ]]
    Each [out.w--] drops the head [c], which is then [out.index(out.w)]. *)
Fixpoint backtrack (out : path) (dotdot : nat) : path :=
  match out with
  | [] => []
  | c :: out' =>
      if (dotdot <? length out') && negb (IsPathSeparator c)
      then backtrack out' dotdot
      else out'
  end.

(** [for ; r < n && !os.IsPathSeparator(path[r]); r++ { out.append(path[r]) }]
    returns the element copied and the unread rest. *)
Fixpoint copy_element (p : path) : path * path :=
  match p with
  | [] => ([], [])
  | c :: p' =>
      if IsPathSeparator c then ([], p)
      else let '(e, rest) := copy_element p' in (c :: e, rest)
  end.

(** The main loop of [Clean]: [p] is [path[r:]], [out] the reversed
    buffer.  Every turn reads at least one byte, so [length p] turns are
    enough ([clean_loop_fuel] below). *)
Fixpoint clean_loop (fuel : nat) (rooted : bool) (p : path)
         (out : path) (dotdot : nat) : path :=
  match fuel with
  | O => out
  | S fuel' =>
      match p with
      | [] => out
      | c :: p1 =>
          if IsPathSeparator c then
            (* empty path element *)
            clean_loop fuel' rooted p1 out dotdot
          else if Ascii.eqb c dot && at_elem_end p1 then
            (* . element *)
            clean_loop fuel' rooted p1 out dotdot
          else if Ascii.eqb c dot
                  && match p1 with
                     | c1 :: p2 => Ascii.eqb c1 dot && at_elem_end p2
                     | [] => false
                     end then
            (* .. element: remove to last separator *)
            let p2 := tl p1 in
            if dotdot <? length out then
              (* can backtrack *)
              clean_loop fuel' rooted p2 (backtrack out dotdot) dotdot
            else if negb rooted then
              (* cannot backtrack, but not rooted, so append .. element *)
              let out1 := if 0 <? length out then Separator :: out else out in
              let out2 := dot :: dot :: out1 in
              clean_loop fuel' rooted p2 out2 (length out2)
            else
              clean_loop fuel' rooted p2 out dotdot
          else
            (* real path element: add slash if needed, copy element *)
            let out1 :=
              if (rooted && negb (length out =? 1))
                 || (negb rooted && negb (length out =? 0))
              then Separator :: out else out in
            let '(e, rest) := copy_element p in
            clean_loop fuel' rooted rest (rev e ++ out1) dotdot
      end
  end.

(** [filepath.Clean] (the volume name is empty on Unix and [FromSlash] is
    the identity). *)
Definition Clean (p : path) : path :=
  match p with
  | [] => [dot]
  | c :: p1 =>
      let out :=
        if IsPathSeparator c
        then clean_loop (length p) true p1 [Separator] 1
        else clean_loop (length p) false p [] 0 in
      (* Turn empty string into "." *)
      match out with
      | [] => [dot]
      | _ => rev out
      end
  end.

(** [strings.Join(elem, sep)] *)
Fixpoint strings_Join (elems : list path) (sep : path) : path :=
  match elems with
  | [] => []
  | [e] => e
  | e :: rest => e ++ sep ++ strings_Join rest sep
  end.

(** [filepath.Join]: the empty leading elements are skipped, the others
    joined with the separator and cleaned. *)
Fixpoint Join (elem : list path) : path :=
  match elem with
  | [] => []
  | e :: rest =>
      match e with
      | [] => Join rest
      | _ => Clean (strings_Join elem [Separator])
      end
  end.

(** The elements of a path: the maximal runs between separators. *)
Fixpoint elements (p : path) : list path :=
  match p with
  | [] => [[]]
  | c :: p' =>
      if IsPathSeparator c then [] :: elements p'
      else match elements p' with
           | e :: es => (c :: e) :: es
           | [] => [[c]]
           end
  end.

Definition is_rooted (p : path) : bool :=
  match p with
  | c :: _ => IsPathSeparator c
  | [] => false
  end.

(** [q] is the directory [root] or lies below it. *)
Definition under (root q : path) : Prop :=
  exists rest,
    q = root ++ rest
    /\ (rest = [] \/ root = [Separator] \/ exists rest', rest = Separator :: rest').

End Filepath.


(** ** Go's [io], [bytes] and [hash] as far as the workers use them *)

Module GoIO.
Import Go.

(** [Read(p)] with [len(p) = n] answers the bytes put in [p[:n']] and an
    error; [Write(p)] answers the count written and an error. *)
Definition Reader (W : Type) : Type := nat -> M W (bytes * option error).
Definition Writer (W : Type) : Type := bytes -> M W (nat * option error).

Section Combinators.
Variable W : Type.

(** [io.TeeReader(r, w).Read]
    [[
      n, err = t.r.Read(p)
      if n > 0 {
          if n, err := t.w.Write(p[:n]); err != nil { return n, err }
      }
      return
    ]] *)
Definition teeReader_Read (r : Reader W) (w : Writer W) : Reader W :=
  fun n =>
    '(data, err) <- r n ;;
    if 0 <? length data then
      '(nw, ew) <- w data ;;
      match ew with
      | Some e => ret (firstn nw data, Some e)
      | None => ret (data, err)
      end
    else ret (data, err).

(** The readers a [multiReader] still holds are [skipn dropped all];
    [drop] is [mr.readers = mr.readers[1:]]. *)
Variable dropped : W -> nat.
Variable drop : W -> W.

(** [multiReader.Read]
    [[
      for len(mr.readers) > 0 {
          n, err = mr.readers[0].Read(p)
          if err == EOF { mr.readers = mr.readers[1:] }
          if n > 0 || err != EOF {
              if err == EOF && len(mr.readers) > 0 { err = nil }
              return
          }
      }
      return 0, EOF
    ]]
    (the flattening of a nested [multiReader] does not apply: none of
    the readers given is one). *)
Fixpoint multiReader_loop (readers : list (Reader W)) : Reader W :=
  fun n =>
    match readers with
    | [] => ret ([], Some EOF)
    | r :: rest =>
        '(data, err) <- r n ;;
        _ <- (if is_EOF err then modify drop else ret tt) ;;
        if (0 <? length data) || negb (is_EOF err) then
          ret (data,
               if is_EOF err && (0 <? length rest) then None else err)
        else multiReader_loop rest n
    end.

Definition multiReader_Read (all : list (Reader W)) : Reader W :=
  fun n => w <- get ;; multiReader_loop (skipn (dropped w) all) n.

(** [io.Copy], by its generic loop over a 32 KiB buffer
    [[
      for {
          nr, er := src.Read(buf)
          if nr > 0 {
              nw, ew := dst.Write(buf[0:nr])
              if nw > 0 { written += int64(nw) }
              if ew != nil { err = ew; break }
              if nr != nw { err = ErrShortWrite; break }
          }
          if er != nil {
              if er != EOF { err = er }
              break
          }
      }
      return written, err
    ]]
    ([ReadFrom] and [WriteTo] fast paths have the same contract). *)
Definition copy_buffer_size : nat := 32 * 1024.

Fixpoint copy_loop (fuel : nat) (dst : Writer W) (src : Reader W)
         (written : Z) : M W (Z * option error) :=
  match fuel with
  | O => halt OutOfFuel
  | S fuel' =>
      '(data, er) <- src copy_buffer_size ;;
      let nr := length data in
      let after_read (written : Z) : M W (Z * option error) :=
        match er with
        | Some e => ret (written, if is_EOF er then None else Some e)
        | None => copy_loop fuel' dst src written
        end in
      if 0 <? nr then
        '(nw, ew) <- dst data ;;
        let written := int64 (written + Z.of_nat nw) in
        match ew with
        | Some e => ret (written, Some e)
        | None =>
            if negb (nr =? nw) then ret (written, Some ErrShortWrite)
            else after_read written
        end
      else after_read written
  end.

Definition Copy (fuel : nat) (dst : Writer W) (src : Reader W)
  : M W (Z * option error) :=
  copy_loop fuel dst src 0%Z.

End Combinators.

(** [bytes.Reader.Read] over the unread part [s]
    [[
      if r.i >= int64(len(r.s)) { return 0, io.EOF }
      n = copy(b, r.s[r.i:]); r.i += int64(n); return
    ]] *)
Definition bytes_Reader_Read (s : bytes) (n : nat)
  : (bytes * option error) * bytes :=
  match s with
  | [] => (([], Some EOF), [])
  | _ => ((firstn n s, None), skipn n s)
  end.

(** A byte stream handed out by a storage backend (an open file, the
    body of an HTTP response): the answers its [Read] calls will give,
    in order.  A [Read] with a buffer shorter than the next answer
    takes what fits and leaves the rest; after the last answer the
    stream is at [EOF]. *)
Definition Stream : Type := list (bytes * option error).

Definition Stream_Read (s : Stream) (n : nat)
  : (bytes * option error) * Stream :=
  match s with
  | [] => (([], Some EOF), [])
  | (data, err) :: s' =>
      if length data <=? n then ((data, err), s')
      else ((firstn n data, None), (skipn n data, err) :: s')
  end.

(** All the bytes a stream will deliver. *)
Definition Stream_bytes (s : Stream) : bytes := concat (map fst s).

(** A destination handed out by a storage backend: what has been
    written to it, and how many more bytes it takes before its writes
    fail with [sink_err] ([None]: it never fails). *)
Record Sink : Type := {
  sink_data : bytes;
  sink_room : option nat;
  sink_err : error
}.

Definition Sink_Write (s : Sink) (data : bytes)
  : (nat * option error) * Sink :=
  match sink_room s with
  | None =>
      ((length data, None),
       {| sink_data := sink_data s ++ data; sink_room := None;
          sink_err := sink_err s |})
  | Some room =>
      if length data <=? room then
        ((length data, None),
         {| sink_data := sink_data s ++ data;
            sink_room := Some (room - length data);
            sink_err := sink_err s |})
      else
        ((room, Some (sink_err s)),
         {| sink_data := sink_data s ++ firstn room data;
            sink_room := Some 0;
            sink_err := sink_err s |})
  end.

(** A [hash.Hash]: the algorithm and everything written so far.  [Write]
    never fails; [Sum(nil)] is the digest of what was written. *)
Inductive algorithm : Type := SHA256 | MD5.

Record Hash : Type := {
  hash_alg : algorithm;
  hash_written : bytes
}.

Definition Hash_New (a : algorithm) : Hash :=
  {| hash_alg := a; hash_written := [] |}.

Definition Hash_Write (h : Hash) (data : bytes) : (nat * option error) * Hash :=
  ((length data, None),
   {| hash_alg := hash_alg h; hash_written := hash_written h ++ data |}).

(** The digest functions of [crypto/sha256] and [crypto/md5]. *)
Record Digests : Type := {
  sha256_Sum : bytes -> bytes;
  md5_Sum : bytes -> bytes
}.

Definition Hash_Sum (dg : Digests) (h : Hash) : bytes :=
  match hash_alg h with
  | SHA256 => sha256_Sum dg (hash_written h)
  | MD5 => md5_Sum dg (hash_written h)
  end.

(** [fmt.Sprintf("%x", b)]: two lower-case hexadecimal digits a byte. *)
Definition hex_digit (n : N) : ascii :=
  match n with
  | 0 => "0" | 1 => "1" | 2 => "2" | 3 => "3" | 4 => "4" | 5 => "5"
  | 6 => "6" | 7 => "7" | 8 => "8" | 9 => "9" | 10 => "a" | 11 => "b"
  | 12 => "c" | 13 => "d" | 14 => "e" | _ => "f"
  end%N%char.

Fixpoint Sprintf_x (b : bytes) : string :=
  match b with
  | [] => EmptyString
  | x :: b' =>
      let n := Byte.to_N x in
      String (hex_digit (n / 16)) (String (hex_digit (n mod 16)) (Sprintf_x b'))
  end.

End GoIO.


(** ** [internal/storage/storage.go] *)

Module Storage.
Import Go GoIO.

Local Open Scope string_scope.

(** [filepath.Clean] and [filepath.Join] on Go strings. *)
Definition filepath_Clean (s : string) : string :=
  string_of_list_ascii (Filepath.Clean (list_ascii_of_string s)).

Definition filepath_Join (elem : list string) : string :=
  string_of_list_ascii (Filepath.Join (map list_ascii_of_string elem)).

(** [Backend] defines methods to be implemented by [PosixBackend] and
    [S3Backend].  An interface value is the record of its methods; a
    [None] reader or writer is a nil interface. *)
Record Backend : Type := {
  GetFileSize : string -> Z * option error;
  NewFileReader : string -> option Stream * option error;
  NewFileWriter : string -> option Sink * option error
}.

(** *** POSIX *)

(** What the operating system answers to the three calls of the POSIX
    backend, and to [ioutil.ReadFile]. *)
Record OS : Type := {
  os_Open : string -> Stream + error;
  os_OpenFile : string -> Z -> Z -> Sink + error;
  os_Stat : string -> Z + error;
  ioutil_ReadFile : string -> bytes + error
}.

Definition O_RDWR : Z := 2.
Definition O_CREATE : Z := 64.
Definition O_TRUNC : Z := 512.
Definition perm_0640 : Z := 6 * 64 + 4 * 8.

(** [PosixBackend] (its [FileReader] and [FileWriter] fields are never
    read). *)
Record PosixBackend : Type := {
  Location : string;
  Size : Z
}.

Record PosixConf : Type := { PosixConf_Location : string }.

Definition NewPosixBackend (c : PosixConf) : PosixBackend :=
  {| Location := PosixConf_Location c; Size := 0 |}.

Definition PosixBackend_NewFileReader (os : OS) (pb : PosixBackend)
           (filePath : string) : option Stream * option error :=
  match os_Open os (filepath_Join [filepath_Clean (Location pb); filePath]) with
  | inr err => (None, Some err)
  | inl file => (Some file, None)
  end.

Definition PosixBackend_NewFileWriter (os : OS) (pb : PosixBackend)
           (filePath : string) : option Sink * option error :=
  match os_OpenFile os
          (filepath_Join [filepath_Clean (Location pb); filePath])
          (Z.lor (Z.lor O_CREATE O_TRUNC) O_RDWR) perm_0640 with
  | inr err => (None, Some err)
  | inl file => (Some file, None)
  end.

Definition PosixBackend_GetFileSize (os : OS) (pb : PosixBackend)
           (filePath : string) : Z * option error :=
  match os_Stat os (filepath_Join [filepath_Clean (Location pb); filePath]) with
  | inr err => (0%Z, Some err)
  | inl size => (size, None)
  end.

Definition PosixBackend_Backend (os : OS) (pb : PosixBackend) : Backend :=
  {| GetFileSize := PosixBackend_GetFileSize os pb;
     NewFileReader := PosixBackend_NewFileReader os pb;
     NewFileWriter := PosixBackend_NewFileWriter os pb |}.

(** *** S3 *)

(** [s3.GetObjectOutput] and [s3.HeadObjectOutput].  The SDK returns its
    output struct together with the error of the request: when the
    request fails, [Body] is nil. *)
Record GetObjectOutput : Type := { Body : option Stream }.
Record HeadObjectOutput : Type := { ContentLength : Z }.

(** What the S3 client answers.  [Upload] is the sink the pipe of
    [NewFileWriter] ends in: its writes fail once the upload has. *)
Record S3Client : Type := {
  GetObject : string -> string -> GetObjectOutput * option error;
  HeadObject : string -> string -> HeadObjectOutput * option error;
  Upload : string -> string -> Sink
}.

Record S3Backend : Type := {
  Client : S3Client;
  Bucket : string
}.

(** [[
      r, err := sb.Client.GetObject(...)
      if err != nil { log.Println(err) }
      return r.Body, nil
    ]] *)
Definition S3Backend_NewFileReader (sb : S3Backend) (filePath : string)
  : option Stream * option error :=
  let '(r, err) := GetObject (Client sb) (Bucket sb) filePath in
  (Body r, None).

(** The writer is one end of a pipe, returned at once with a nil error;
    the upload runs on its other end. *)
Definition S3Backend_NewFileWriter (sb : S3Backend) (filePath : string)
  : option Sink * option error :=
  (Some (Upload (Client sb) (Bucket sb) filePath), None).

Definition S3Backend_GetFileSize (sb : S3Backend) (filePath : string)
  : Z * option error :=
  let '(r, err) := HeadObject (Client sb) (Bucket sb) filePath in
  match err with
  | Some e => (0%Z, Some e)
  | None => (ContentLength r, None)
  end.

Definition S3Backend_Backend (sb : S3Backend) : Backend :=
  {| GetFileSize := S3Backend_GetFileSize sb;
     NewFileReader := S3Backend_NewFileReader sb;
     NewFileWriter := S3Backend_NewFileWriter sb |}.

(** *** TLS set-up of the S3 client *)

Record S3Conf : Type := {
  URL : string;
  Port : Z;
  AccessKey : string;
  SecretKey : string;
  S3Conf_Bucket : string;
  Region : string;
  UploadConcurrency : Z;
  Chunksize : Z;
  Cacert : string
}.

(** The protocol versions of [crypto/tls]. *)
Definition VersionTLS10 : Z := 0x0301.
Definition VersionTLS11 : Z := 0x0302.
Definition VersionTLS12 : Z := 0x0303.
Definition VersionTLS13 : Z := 0x0304.

Definition certificate := bytes.

(** [tls.Config], the fields the code sets. *)
Record tls_Config : Type := {
  MinVersion : Z;
  RootCAs : list certificate
}.

Record http_Transport : Type := {
  TLSClientConfig : tls_Config;
  ForceAttemptHTTP2 : bool
}.

(** The certificates of the platform ([x509.SystemCertPool]) and those
    found in a PEM file ([AppendCertsFromPEM]). *)
Record X509 : Type := {
  SystemCertPool : list certificate;
  certsFromPEM : bytes -> list certificate
}.

(** [transportConfigS3] is a helper method to setup TLS for the S3
    client.  [None] is the [log.Fatalf] on an unreadable CA file.  (A
    system pool that equals an empty pool is replaced by a new empty
    pool, which changes nothing here; when no certificate is found in
    the CA file this is logged and the system pool used alone.) *)
Definition transportConfigS3 (os : OS) (x : X509) (c : S3Conf)
  : option http_Transport :=
  (* Enforce TLS1.2 or higher *)
  let MinVersion := 2%Z in
  (* Read system CAs *)
  let systemCAs := SystemCertPool x in
  if String.eqb (Cacert c) EmptyString then
    Some {| TLSClientConfig := {| MinVersion := MinVersion; RootCAs := systemCAs |};
            ForceAttemptHTTP2 := true |}
  else
    match ioutil_ReadFile os (Cacert c) with
    | inr e => None
    | inl cacert =>
        Some {| TLSClientConfig :=
                  {| MinVersion := MinVersion;
                     RootCAs := systemCAs ++ certsFromPEM x cacert |};
                ForceAttemptHTTP2 := true |}
    end.

(** [tls.Config.supportedVersions] for a client: of the versions the
    library knows, newest first, those below TLS 1.2 are dropped when
    [MinVersion] is left at zero, and those below a non-zero
    [MinVersion] otherwise. *)
Definition supportedVersions (c : tls_Config) : list Z :=
  filter
    (fun v =>
       negb ((MinVersion c =? 0)%Z && (v <? VersionTLS12)%Z)
       && negb (negb (MinVersion c =? 0)%Z && (v <? MinVersion c)%Z))
    [VersionTLS13; VersionTLS12; VersionTLS11; VersionTLS10].

End Storage.


(** ** The collaborators of the worker loops *)

Module Worker.
Import Go GoIO.

(** [amqp.Delivery] *)
Record Delivery : Type := {
  CorrelationId : string;
  Body : string
}.

(** [conf.Broker] *)
Record BrokerConf : Type := {
  Queue : string;
  Exchange : string;
  RoutingKey : string;
  RoutingError : string;
  Durable : bool
}.

(** [checksums] is struct for the checksum type and value *)
Record checksums : Type := {
  Type_ : string;
  Value : string
}.

(** [database.FileInfo] *)
Record FileInfo : Type := {
  Size : Z;
  DecryptedSize : Z;
  Checksum : Hash;
  DecryptedChecksum : Hash
}.

(** The calls a loop makes on the broker, on the delivery and on the
    database, with their arguments.  [ValidateJSON] is the helper of the
    broker package, which is handed the delivery; what it does with it
    is not part of the two source files. *)
Inductive Event : Type :=
| ValidateJSON (messageType body : string)
| Nack (multiple requeue : bool)
| Ack (multiple : bool)
| SendMessage (corrID exchange routingKey : string) (durable : bool)
              (body : string)
| SendJSONError (reason : string)
| GetArchived (user filepath checksum : string)
| GetHeader (fileID : Z)
| MarkReady (accessionID user filepath checksum : string)
| MarkCompleted (file : FileInfo) (fileID : Z).

(** The errors the broker answers ([Ack] and [Nack] errors are only
    logged by the loops and are left out). *)
Record MQ : Type := {
  ValidateJSON_err : Delivery -> string -> string -> option error;
  SendMessage_err : string -> string -> string -> bool -> string -> option error;
  SendJSONError_err : Delivery -> string -> option error
}.

(** The answers of the database. *)
Record DB : Type := {
  GetArchived_ans : string -> string -> string -> string * Z * option error;
  GetHeader_ans : Z -> bytes * option error;
  MarkReady_err : string -> string -> string -> string -> option error;
  MarkCompleted_err : FileInfo -> Z -> option error
}.

(** Worlds that keep the calls made so far, oldest first. *)
Class Traced (W : Type) : Type := {
  trace : W -> list Event;
  record : Event -> W -> W
}.

(** A call: it is recorded, and the collaborator's answer comes back. *)
Definition call {W} `{Traced W} {A} (e : Event) (answer : A) : M W A :=
  _ <- modify (record e) ;; ret answer.

(** [[
      var checksumSha256 string
      for _, checksum := range message.DecryptedChecksums {
          if checksum.Type == "sha256" { checksumSha256 = checksum.Value }
      }
    ]] *)
Definition extract_sha256 (cs : list checksums) : string :=
  fold_left
    (fun acc checksum =>
       if String.eqb (Type_ checksum) "sha256" then Value checksum else acc)
    cs EmptyString.

(** [for delivered := range messages { ... }]: the deliveries are taken
    in order; a panic or [log.Fatal] ends the process. *)
Fixpoint range {W} (body : Delivery -> M W unit) (messages : list Delivery)
  : M W unit :=
  match messages with
  | [] => ret tt
  | delivered :: rest => _ <- body delivered ;; range body rest
  end.

(** What a trace holds. *)
Definition is_Ack (e : Event) : bool :=
  match e with Ack _ => true | _ => false end.

Definition is_Nack (e : Event) : bool :=
  match e with Nack _ _ => true | _ => false end.

Definition is_publish (e : Event) : bool :=
  match e with
  | SendMessage _ _ _ _ _ | SendJSONError _ => true
  | _ => false
  end.

Definition is_SendJSONError (e : Event) : bool :=
  match e with SendJSONError _ => true | _ => false end.

Definition count (f : Event -> bool) (evs : list Event) : nat :=
  length (filter f evs).

(** The acknowledge and negative-acknowledge calls of a trace. *)
Definition resolutions (evs : list Event) : nat :=
  count (fun e => is_Ack e || is_Nack e) evs.

Definition is_nil {A} (err : option A) : bool :=
  match err with
  | None => true
  | Some _ => false
  end.

End Worker.

(** ** The copy worker from the archive ([sync.go], first program) *)

Module SyncArchive.
Import Go GoIO Storage Worker.
Local Open Scope string_scope.

(** [sync] struct that holds the json message data *)
Record sync : Type := {
  Type' : string;
  User : string;
  Filepath : string;
  AccessionID : string;
  DecryptedChecksums : list checksums
}.

Record Env : Type := {
  mq : MQ;
  db : DB;
  backup : Backend;
  archive : Backend;
  conf : BrokerConf;
  (** [json.Unmarshal(body, &message)] on the message decoded before *)
  json_Unmarshal : string -> sync -> sync
}.

(** The variables of [main] that the loop writes: [message] is declared
    outside the loop, [file] and [dest] in each turn. *)
Record World : Type := {
  calls : list Event;
  message : sync;
  file : option Stream;
  dest : option Sink
}.

Definition set_message (m : sync) (w : World) : World :=
  {| calls := calls w; message := m; file := file w; dest := dest w |}.
Definition set_file (f : option Stream) (w : World) : World :=
  {| calls := calls w; message := message w; file := f; dest := dest w |}.
Definition set_dest (d : option Sink) (w : World) : World :=
  {| calls := calls w; message := message w; file := file w; dest := d |}.

#[export] Instance World_Traced : Traced World := {|
  trace := calls;
  record := fun e w =>
    {| calls := calls w ++ [e]; message := message w;
       file := file w; dest := dest w |}
|}.

(** [file.Read] and [dest.Write]; on a nil interface they panic. *)
Definition file_Read : Reader World :=
  fun n w =>
    match file w with
    | None => (Stop Panic, w)
    | Some s => let '(r, s') := Stream_Read s n in (Val r, set_file (Some s') w)
    end.

Definition dest_Write : Writer World :=
  fun data w =>
    match dest w with
    | None => (Stop Panic, w)
    | Some s => let '(r, s') := Sink_Write s data in (Val r, set_dest (Some s') w)
    end.

(** One turn of [for delivered := range messages]. *)
Definition iteration (fuel : nat) (env : Env) (delivered : Delivery)
  : M World unit :=
  err <- call (ValidateJSON "ingestion-accession" (Body delivered))
              (ValidateJSON_err (mq env) delivered "ingestion-accession"
                                (Body delivered)) ;;
  match err with
  | Some _ => ret tt
  | None =>
  (* we unmarshal the message in the validation step so this is safe to do *)
  _ <- modify (fun w => set_message
                          (json_Unmarshal env (Body delivered) (message w)) w) ;;
  message <- gets message ;;
  (* Extract the sha256 from the message and use it for the database *)
  let checksumSha256 := extract_sha256 (DecryptedChecksums message) in
  '(filePath, fileSize, err) <-
    call (GetArchived (User message) (Filepath message) checksumSha256)
         (GetArchived_ans (db env) (User message) (Filepath message)
                          checksumSha256) ;;
  match err with
  | Some _ =>
      (* nack the message but requeue until we fixed the SQL retry. *)
      call (Nack false true) tt
  | None =>
  let '(file, err) := NewFileReader (archive env) filePath in
  match err with
  | Some _ => call (Nack false true) tt
  | None =>
  _ <- modify (set_file file) ;;
  let '(dest, err) := NewFileWriter (backup env) filePath in
  match err with
  | Some _ => call (Nack false true) tt
  | None =>
  _ <- modify (set_dest dest) ;;
  (* Copy the file and check is sizes match *)
  '(copiedSize, err) <- Copy fuel dest_Write file_Read ;;
  if negb (is_nil err) || negb (copiedSize =? int64 fileSize)%Z then
    call (Nack false true) tt
  else
    (* file.Close(); dest.Close() *)
    err <- call (SendMessage (CorrelationId delivered) (Exchange (conf env))
                             (RoutingKey (conf env)) (Durable (conf env))
                             (Body delivered))
                (SendMessage_err (mq env) (CorrelationId delivered)
                                 (Exchange (conf env)) (RoutingKey (conf env))
                                 (Durable (conf env)) (Body delivered)) ;;
    match err with
    | Some _ =>
        (* Restart loop, do not ack *)
        ret tt
    | None => call (Ack false) tt
    end
  end end end end.

Definition main_loop (fuel : nat) (env : Env) (messages : list Delivery)
  : M World unit :=
  range (iteration fuel env) messages.

End SyncArchive.


(** ** The copy worker from the inbox ([sync.go], second program) *)

Module SyncInbox.
Import Go GoIO Storage Worker.
Local Open Scope string_scope.

(** [sync] struct that holds the json message data *)
Record sync : Type := {
  Type' : string;
  User : string;
  Filepath : string;
  AccessionID : string;
  DecryptedChecksums : list checksums
}.

(** [completed] is struct holding the full message data *)
Record completed : Type := {
  completed_User : string;
  completed_Filepath : string;
  completed_AccessionID : string;
  completed_DecryptedChecksums : list checksums
}.

(** [gojsonschema.Result] *)
Record Result : Type := {
  Valid : bool;
  Errors : list string
}.

(** The JSON and JSON-schema libraries: [json.Unmarshal] into a map
    (the keys of the object matter only), [gojsonschema.Validate] on a
    schema reference and a body, and the two struct codecs. *)
Record JSON : Type := {
  json_Unmarshal_map : string -> list string * option error;
  gojsonschema_Validate : string -> string -> option Result * option error;
  json_Unmarshal : string -> sync -> sync;
  json_Marshal : completed -> string
}.

(** Validate the JSON in a received message *)
Definition validateJSON (lib : JSON) (schemasPath : string) (body : string)
  : option Result * option error :=
  let '(message, err) := json_Unmarshal_map lib body in
  match err with
  | Some e => (None, Some e)
  | None =>
      let ok := existsb (String.eqb "type") message in
      let schema :=
        if ok then schemasPath ++ "ingestion-accession.json"
        else schemasPath ++ "ingestion-completion.json" in
      gojsonschema_Validate lib schema body
  end.

Record Env : Type := {
  mq : MQ;
  db : DB;
  backup : Backend;
  inbox : Backend;
  conf : BrokerConf;
  SchemasPath : string;
  lib : JSON
}.

Record World : Type := {
  calls : list Event;
  message : sync;
  file : option Stream;
  dest : option Sink
}.

Definition set_message (m : sync) (w : World) : World :=
  {| calls := calls w; message := m; file := file w; dest := dest w |}.
Definition set_file (f : option Stream) (w : World) : World :=
  {| calls := calls w; message := message w; file := f; dest := dest w |}.
Definition set_dest (d : option Sink) (w : World) : World :=
  {| calls := calls w; message := message w; file := file w; dest := d |}.

#[export] Instance World_Traced : Traced World := {|
  trace := calls;
  record := fun e w =>
    {| calls := calls w ++ [e]; message := message w;
       file := file w; dest := dest w |}
|}.

Definition file_Read : Reader World :=
  fun n w =>
    match file w with
    | None => (Stop Panic, w)
    | Some s => let '(r, s') := Stream_Read s n in (Val r, set_file (Some s') w)
    end.

Definition dest_Write : Writer World :=
  fun data w =>
    match dest w with
    | None => (Stop Panic, w)
    | Some s => let '(r, s') := Sink_Write s data in (Val r, set_dest (Some s') w)
    end.

(** [res.Valid()]: a nil [res] panics. *)
Definition res_Valid (res : option Result) : M World bool :=
  match res with
  | Some r => ret (Valid r)
  | None => halt Panic
  end.

(** What both validations of the loop do with the answer of
    [validateJSON]: the two rejecting branches, or [accepted].
    [[
      if err != nil {
          if e := delivered.Nack(false, false); e != nil { ... }
          if e := mq.SendJSONError(&delivered, err.Error(), conf.Broker); e != nil { ... }
          continue
      }
      if !res.Valid() {
          if e := delivered.Nack(false, false); e != nil { ... }
          if e := mq.SendJSONError(&delivered, err.Error(), conf.Broker); e != nil { ... }
          continue
      }
    ]]
    The arguments of [SendJSONError] are evaluated before the call. *)
Definition checked (env : Env) (delivered : Delivery)
           (res : option Result) (err : option error)
           (accepted : M World unit) : M World unit :=
  match err with
  | Some _ =>
      (* Nack message so the server gets notified that something is wrong
         but don't requeue the message *)
      _ <- call (Nack false false) tt ;;
      (* Send the message to an error queue so it can be analyzed. *)
      reason <- err_Error err ;;
      _ <- call (SendJSONError reason)
                (SendJSONError_err (mq env) delivered reason) ;;
      (* Restart on new message *)
      ret tt
  | None =>
      valid <- res_Valid res ;;
      if negb valid then
        _ <- call (Nack false false) tt ;;
        reason <- err_Error err ;;
        _ <- call (SendJSONError reason)
                  (SendJSONError_err (mq env) delivered reason) ;;
        ret tt
      else accepted
  end.

(** One turn of [for delivered := range messages]. *)
Definition iteration (fuel : nat) (env : Env) (delivered : Delivery)
  : M World unit :=
  let '(res, err) := validateJSON (lib env) (SchemasPath env) (Body delivered) in
  checked env delivered res err (
  (* we unmarshal the message in the validation step so this is safe to do *)
  _ <- modify (fun w => set_message
                          (json_Unmarshal (lib env) (Body delivered) (message w))
                          w) ;;
  message <- gets message ;;
  (* Extract the sha256 from the message and use it for the database *)
  let checksumSha256 := extract_sha256 (DecryptedChecksums message) in
  let c := {| completed_User := User message;
              completed_Filepath := Filepath message;
              completed_AccessionID := AccessionID message;
              completed_DecryptedChecksums := DecryptedChecksums message |} in
  let completeMsg := json_Marshal (lib env) c in
  let '(res, err) := validateJSON (lib env) (SchemasPath env) completeMsg in
  checked env delivered res err (
  let '(file, err) := NewFileReader (inbox env) (Filepath message) in
  match err with
  | Some _ => ret tt
  | None =>
  _ <- modify (set_file file) ;;
  let '(dest, err) := NewFileWriter (backup env) (Filepath message) in
  match err with
  | Some _ => ret tt
  | None =>
  _ <- modify (set_dest dest) ;;
  '(_, err) <- Copy fuel dest_Write file_Read ;;
  match err with
  | Some _ => halt Fatal
  | None =>
  (* file.Close(); dest.Close() *)
  err <- call (MarkReady (AccessionID message) (User message)
                         (Filepath message) checksumSha256)
              (MarkReady_err (db env) (AccessionID message) (User message)
                             (Filepath message) checksumSha256) ;;
  match err with
  | Some _ =>
      (* nack the message but requeue until we fixed the SQL retry. *)
      call (Nack false true) tt
  | None =>
  (* an error of SendMessage is logged: "We need to fix this resend stuff ..." *)
  _ <- call (SendMessage (CorrelationId delivered) (Exchange (conf env))
                         (RoutingKey (conf env)) (Durable (conf env))
                         completeMsg)
            (SendMessage_err (mq env) (CorrelationId delivered)
                             (Exchange (conf env)) (RoutingKey (conf env))
                             (Durable (conf env)) completeMsg) ;;
  call (Ack false) tt
  end end end end)).

Definition main_loop (fuel : nat) (env : Env) (messages : list Delivery)
  : M World unit :=
  range (iteration fuel env) messages.

End SyncInbox.


(** ** The verify worker ([sync.go], third program) *)

Module Verify.
Import Go GoIO Storage Worker.
Local Open Scope string_scope.

(** [message] struct that holds the json message data *)
Record message : Type := {
  FilePath : string;
  User : string;
  FileID : Z;
  ArchivePath : string;
  EncryptedChecksums : list checksums;
  ReVerify : bool
}.

(** The zero value that [var message message] starts each turn with. *)
Definition zero_message : message :=
  {| FilePath := EmptyString; User := EmptyString; FileID := 0;
     ArchivePath := EmptyString;
     EncryptedChecksums := []; ReVerify := false |}.

(** [verified] is struct holding the full message data *)
Record verified : Type := {
  verified_User : string;
  verified_FilePath : string;
  verified_DecryptedChecksums : list checksums
}.

(** [broker.FileError] *)
Record FileError : Type := {
  FileError_User : string;
  FileError_FilePath : string;
  Reason : string
}.

(** Code of the Crypt4GH library: it computes with the bytes it asks its
    source reader for. *)
Inductive prog (A : Type) : Type :=
| Return (a : A)
| ReadSource (n : nat) (k : bytes * option error -> prog A).

(** [streaming.NewCrypt4GHReader(reader, key, nil)] and the [Read] of the
    reader it returns, whose state is a [D]. *)
Record Crypt4GH (D : Type) : Type := {
  NewCrypt4GHReader : bytes -> prog (D + error);
  Crypt4GHReader_Read : D -> nat -> prog (bytes * option error * D)
}.

Section Loop.
Variable D : Type.

Record Env : Type := {
  mq : MQ;
  db : DB;
  backend : Backend;
  conf : BrokerConf;
  key : bytes;
  c4gh : Crypt4GH D;
  digests : Digests;
  json_Unmarshal : string -> message -> message;
  json_Marshal_verified : verified -> string;
  json_Marshal_FileError : FileError -> string
}.

(** The objects of one turn of the loop.  [hr] is the unread part of
    the header, [mr] the number of readers the [MultiReader] has
    dropped.  [produced] is no variable of the program: it keeps every
    byte that the [Read] of the current [c4ghr] has returned. *)
Record World : Type := {
  calls : list Event;
  hr : bytes;
  mr : nat;
  f : option Stream;
  archiveFileHash : Hash;
  c4ghr : option D;
  md5hash : Hash;
  sha256hash : Hash;
  produced : bytes
}.

Definition set_calls (x : list Event) (w : World) : World :=
  {| calls := x; hr := hr w; mr := mr w; f := f w;
     archiveFileHash := archiveFileHash w; c4ghr := c4ghr w;
     md5hash := md5hash w; sha256hash := sha256hash w;
     produced := produced w |}.
Definition set_hr (x : bytes) (w : World) : World :=
  {| calls := calls w; hr := x; mr := mr w; f := f w;
     archiveFileHash := archiveFileHash w; c4ghr := c4ghr w;
     md5hash := md5hash w; sha256hash := sha256hash w;
     produced := produced w |}.
Definition set_mr (x : nat) (w : World) : World :=
  {| calls := calls w; hr := hr w; mr := x; f := f w;
     archiveFileHash := archiveFileHash w; c4ghr := c4ghr w;
     md5hash := md5hash w; sha256hash := sha256hash w;
     produced := produced w |}.
Definition set_f (x : option Stream) (w : World) : World :=
  {| calls := calls w; hr := hr w; mr := mr w; f := x;
     archiveFileHash := archiveFileHash w; c4ghr := c4ghr w;
     md5hash := md5hash w; sha256hash := sha256hash w;
     produced := produced w |}.
Definition set_archiveFileHash (x : Hash) (w : World) : World :=
  {| calls := calls w; hr := hr w; mr := mr w; f := f w;
     archiveFileHash := x; c4ghr := c4ghr w;
     md5hash := md5hash w; sha256hash := sha256hash w;
     produced := produced w |}.
Definition set_c4ghr (x : option D) (w : World) : World :=
  {| calls := calls w; hr := hr w; mr := mr w; f := f w;
     archiveFileHash := archiveFileHash w; c4ghr := x;
     md5hash := md5hash w; sha256hash := sha256hash w;
     produced := produced w |}.
Definition set_md5hash (x : Hash) (w : World) : World :=
  {| calls := calls w; hr := hr w; mr := mr w; f := f w;
     archiveFileHash := archiveFileHash w; c4ghr := c4ghr w;
     md5hash := x; sha256hash := sha256hash w;
     produced := produced w |}.
Definition set_sha256hash (x : Hash) (w : World) : World :=
  {| calls := calls w; hr := hr w; mr := mr w; f := f w;
     archiveFileHash := archiveFileHash w; c4ghr := c4ghr w;
     md5hash := md5hash w; sha256hash := x;
     produced := produced w |}.
Definition set_produced (x : bytes) (w : World) : World :=
  {| calls := calls w; hr := hr w; mr := mr w; f := f w;
     archiveFileHash := archiveFileHash w; c4ghr := c4ghr w;
     md5hash := md5hash w; sha256hash := sha256hash w;
     produced := x |}.

#[export] Instance World_Traced : Traced World := {|
  trace := calls;
  record := fun e w => set_calls (calls w ++ [e]) w
|}.

(** [hr := bytes.NewReader(header)] *)
Definition hr_Read : Reader World :=
  fun n w =>
    let '(r, s') := bytes_Reader_Read (hr w) n in (Val r, set_hr s' w).

(** [f], the reader of the archived file; nil, its [Read] panics. *)
Definition f_Read : Reader World :=
  fun n w =>
    match f w with
    | None => (Stop Panic, w)
    | Some s => let '(r, s') := Stream_Read s n in (Val r, set_f (Some s') w)
    end.

Definition archiveFileHash_Write : Writer World :=
  fun data w =>
    let '(r, h) := Hash_Write (archiveFileHash w) data in
    (Val r, set_archiveFileHash h w).

Definition md5hash_Write : Writer World :=
  fun data w =>
    let '(r, h) := Hash_Write (md5hash w) data in (Val r, set_md5hash h w).

Definition sha256hash_Write : Writer World :=
  fun data w =>
    let '(r, h) := Hash_Write (sha256hash w) data in
    (Val r, set_sha256hash h w).

(** Feed everything read from the archive file to archiveFileHash:
    [mr := io.MultiReader(hr, io.TeeReader(f, archiveFileHash))] *)
Definition mr_Read : Reader World :=
  multiReader_Read mr (fun w => set_mr (S (mr w)) w)
    [hr_Read; teeReader_Read f_Read archiveFileHash_Write].

(** Library code runs against the reader it was given. *)
Fixpoint run {A} (source : Reader World) (c : prog A) : M World A :=
  match c with
  | Return a => ret a
  | ReadSource n k => r <- source n ;; run source (k r)
  end.

(** [c4ghr.Read] *)
Definition c4ghr_Read (lib : Crypt4GH D) : Reader World :=
  fun n =>
    w <- get ;;
    match c4ghr w with
    | None => halt Panic
    | Some d =>
        '(data, err, d') <- run mr_Read (Crypt4GHReader_Read lib d n) ;;
        _ <- modify (fun w => set_produced (produced w ++ data)%list
                                (set_c4ghr (Some d') w)) ;;
        ret (data, err)
    end.

(** [stream := io.TeeReader(c4ghr, md5hash)] *)
Definition stream_Read (lib : Crypt4GH D) : Reader World :=
  teeReader_Read (c4ghr_Read lib) md5hash_Write.

(** One turn of [for delivered := range messages]. *)
Definition iteration (fuel : nat) (env : Env) (delivered : Delivery)
  : M World unit :=
  err <- call (ValidateJSON "ingestion-verification" (Body delivered))
              (ValidateJSON_err (mq env) delivered "ingestion-verification"
                                (Body delivered)) ;;
  match err with
  | Some _ =>
      (* Restart on new message *)
      ret tt
  | None =>
  (* we unmarshal the message in the validation step so this is safe to do *)
  let message := json_Unmarshal env (Body delivered) zero_message in
  '(header, err) <- call (GetHeader (FileID message))
                         (GetHeader_ans (db env) (FileID message)) ;;
  match err with
  | Some _ =>
      (* Nack message so the server gets notified that something is wrong
         but don't requeue the message *)
      _ <- call (Nack false false) tt ;;
      (* Send the message to an error queue so it can be analyzed. *)
      _ <- call (SendMessage (CorrelationId delivered) (Exchange (conf env))
                             (RoutingError (conf env)) (Durable (conf env))
                             (Body delivered))
                (SendMessage_err (mq env) (CorrelationId delivered)
                                 (Exchange (conf env))
                                 (RoutingError (conf env))
                                 (Durable (conf env)) (Body delivered)) ;;
      ret tt
  | None =>
  let '(file_Size, err) := GetFileSize (backend env) (ArchivePath message) in
  match err with
  | Some _ => ret tt
  | None =>
  _ <- modify (set_archiveFileHash (Hash_New SHA256)) ;;
  let '(f, err) := NewFileReader (backend env) (ArchivePath message) in
  match err with
  | Some e =>
      (* Send the message to an error queue so it can be analyzed. *)
      let fileError := {| FileError_User := User message;
                          FileError_FilePath := FilePath message;
                          Reason := Error e |} in
      let body := json_Marshal_FileError env fileError in
      _ <- call (SendMessage (CorrelationId delivered) (Exchange (conf env))
                             (RoutingError (conf env)) (Durable (conf env))
                             body)
                (SendMessage_err (mq env) (CorrelationId delivered)
                                 (Exchange (conf env))
                                 (RoutingError (conf env))
                                 (Durable (conf env)) body) ;;
      (* Restart on new message *)
      ret tt
  | None =>
  _ <- modify (fun w => set_mr 0 (set_hr header (set_f f w))) ;;
  made <- run mr_Read (NewCrypt4GHReader (c4gh env) (key env)) ;;
  match made with
  | inr _ => ret tt
  | inl d =>
  _ <- modify (fun w => set_sha256hash (Hash_New SHA256)
                          (set_md5hash (Hash_New MD5)
                             (set_produced [] (set_c4ghr (Some d) w)))) ;;
  '(file_DecryptedSize, err) <-
    Copy fuel sha256hash_Write (stream_Read (c4gh env)) ;;
  match err with
  | Some _ => ret tt
  | None =>
  w <- get ;;
  let file := {| Size := file_Size;
                 DecryptedSize := file_DecryptedSize;
                 Checksum := archiveFileHash w;
                 DecryptedChecksum := sha256hash w |} in
  if negb (ReVerify message) then
    let c := {| verified_User := User message;
                verified_FilePath := FilePath message;
                verified_DecryptedChecksums :=
                  [ {| Type_ := "sha256";
                       Value := Sprintf_x (Hash_Sum (digests env) (sha256hash w)) |};
                    {| Type_ := "md5";
                       Value := Sprintf_x (Hash_Sum (digests env) (md5hash w)) |} ]
             |} in
    let verifiedMessage := json_Marshal_verified env c in
    err <- call (ValidateJSON "ingestion-accession-request" verifiedMessage)
                (ValidateJSON_err (mq env) delivered
                                  "ingestion-accession-request"
                                  verifiedMessage) ;;
    match err with
    | Some _ =>
        (* Logging is in ValidateJSON so just restart on new message *)
        ret tt
    | None =>
    (* Mark file as "COMPLETED" *)
    e <- call (MarkCompleted file (FileID message))
              (MarkCompleted_err (db env) file (FileID message)) ;;
    match e with
    | Some _ => ret tt
    | None =>
    (* Send message to verified queue; an error is logged:
       "We need to fix this resend stuff ..." *)
    _ <- call (SendMessage (CorrelationId delivered) (Exchange (conf env))
                           (RoutingKey (conf env)) (Durable (conf env))
                           verifiedMessage)
              (SendMessage_err (mq env) (CorrelationId delivered)
                               (Exchange (conf env)) (RoutingKey (conf env))
                               (Durable (conf env)) verifiedMessage) ;;
    call (Ack false) tt
    end end
  else ret tt
  end end end end end end.

Definition main_loop (fuel : nat) (env : Env) (messages : list Delivery)
  : M World unit :=
  range (iteration fuel env) messages.

(** The world a turn starts from. *)
Definition fresh : World :=
  {| calls := []; hr := []; mr := 0; f := None;
     archiveFileHash := Hash_New SHA256; c4ghr := None;
     md5hash := Hash_New MD5; sha256hash := Hash_New SHA256;
     produced := [] |}.

End Loop.

End Verify.


(** ** Concrete collaborators, for the examples below *)

Module Fixtures.
Import Go GoIO Storage Worker.
Local Open Scope string_scope.

Definition delivered : Delivery :=
  {| CorrelationId := "corr-1"; Body := "{...}" |}.

Definition broker_conf : BrokerConf :=
  {| Queue := "files"; Exchange := "sda"; RoutingKey := "completed";
     RoutingError := "error"; Durable := true |}.

(** A broker that accepts every message; its publish succeeds or fails
    with "channel closed". *)
Definition broker (publish_ok : bool) : MQ :=
  {| ValidateJSON_err := fun _ _ _ => None;
     SendMessage_err := fun _ _ _ _ _ =>
       if publish_ok then None else Some (ErrorString "channel closed");
     SendJSONError_err := fun _ _ => None |}.

(** A database that knows one archived file of three bytes; its persist
    steps succeed or fail with "connection lost". *)
Definition database (persist_ok : bool) : DB :=
  {| GetArchived_ans := fun _ _ _ => ("alice/f.txt.c4gh", 3%Z, None);
     GetHeader_ans := fun _ => (["h"; "d"; "r"; "!"]%byte, None);
     MarkReady_err := fun _ _ _ _ =>
       if persist_ok then None else Some (ErrorString "connection lost");
     MarkCompleted_err := fun _ _ =>
       if persist_ok then None else Some (ErrorString "connection lost") |}.

Definition empty_sink : Sink :=
  {| sink_data := []; sink_room := None; sink_err := ErrShortWrite |}.

(** A backend that holds the same three bytes under every path. *)
Definition storage : Backend :=
  {| GetFileSize := fun _ => (3%Z, None);
     NewFileReader := fun _ => (Some [(["a"; "b"; "c"]%byte, None)], None);
     NewFileWriter := fun _ => (Some empty_sink, None) |}.

Definition checksum_abc123 : checksums :=
  {| Type_ := "sha256"; Value := "abc123" |}.

Module Archive.
Import SyncArchive.

Definition alice : sync :=
  {| Type' := "ingest"; User := "alice"; Filepath := "f.txt";
     AccessionID := "EGAF001"; DecryptedChecksums := [checksum_abc123] |}.

Definition env (publish_ok : bool) : Env :=
  {| mq := broker publish_ok; db := database true;
     backup := storage; archive := storage; conf := broker_conf;
     json_Unmarshal := fun _ _ => alice |}.

Definition start : World :=
  {| calls := []; message := alice; file := None; dest := None |}.
End Archive.

Module Inbox.
Import SyncInbox.

Definition alice : sync :=
  {| Type' := "ingest"; User := "alice"; Filepath := "f.txt";
     AccessionID := "EGAF001"; DecryptedChecksums := [checksum_abc123] |}.

(** [well_formed]: the body is JSON; [valid]: the schema accepts it. *)
Definition json (well_formed valid : bool) : JSON :=
  {| json_Unmarshal_map := fun _ =>
       if well_formed then (["type"; "user"], None)
       else ([], Some (ErrorString "unexpected end of JSON input"));
     gojsonschema_Validate := fun _ _ =>
       (Some {| Valid := valid;
                Errors := if valid then [] else ["user is required"] |},
        None);
     json_Unmarshal := fun _ _ => alice;
     json_Marshal := fun _ => "{completed}" |}.

Definition env (well_formed valid persist_ok publish_ok : bool) : Env :=
  {| mq := broker publish_ok; db := database persist_ok;
     backup := storage; inbox := storage; conf := broker_conf;
     SchemasPath := "/schemas/"; lib := json well_formed valid |}.

Definition start : World :=
  {| calls := []; message := alice; file := None; dest := None |}.
End Inbox.

Module Verification.
Import Verify.

(** A stand-in for the Crypt4GH library: its constructor reads four
    bytes, its [Read] hands on what the source gives. *)
Definition passthrough : Crypt4GH unit :=
  {| NewCrypt4GHReader := fun _ =>
       ReadSource 4 (fun _ => Return (inl tt));
     Crypt4GHReader_Read := fun d n =>
       ReadSource n (fun r => Return (r, d)) |}.

(** Stand-ins for the digests: the length, and the first byte. *)
Definition toy_digests : Digests :=
  {| sha256_Sum := fun b =>
       match Byte.of_N (N.of_nat (length b)) with
       | Some x => [x]
       | None => []
       end;
     md5_Sum := fun b => firstn 1 b |}.

Definition work (re_verify : bool) : message :=
  {| FilePath := "f.txt"; User := "alice"; FileID := 7;
     ArchivePath := "alice/f.txt.c4gh"; EncryptedChecksums := [];
     ReVerify := re_verify |}.

Definition env (re_verify persist_ok publish_ok : bool) : Env unit :=
  {| mq := broker publish_ok; db := database persist_ok;
     backend := storage; conf := broker_conf; key := [];
     c4gh := passthrough; digests := toy_digests;
     json_Unmarshal := fun _ _ => work re_verify;
     json_Marshal_verified := fun v =>
       "{verified " ++ String.concat " " (map Value (verified_DecryptedChecksums v))
                    ++ "}";
     json_Marshal_FileError := fun e => Reason e |}.
End Verification.

End Fixtures.



(** * Properties *)

Unset Implicit Arguments.

(** ** Path cleaning *)

Module FilepathFacts.
Import Filepath.

Definition dotdot_elem : path := [dot; dot].

(** A real path element: not empty, without separator, neither "." nor "..". *)
Definition normal (e : path) : Prop :=
  e <> [] /\ Forall (fun c => IsPathSeparator c = false) e
  /\ e <> [dot] /\ e <> dotdot_elem.

(** [if rooted && out.w != 1 { out.append(Separator) }], on the reversed buffer. *)
Definition add_slash (out : path) : path :=
  if negb (length out =? 1) then Separator :: out else out.

(** The buffers a rooted [Clean] goes through: "/" followed by real
    elements, separated by single slashes. *)
Inductive rform : path -> Prop :=
| rform_root : rform [Separator]
| rform_push e out : normal e -> rform out -> rform (rev e ++ add_slash out).

Lemma copy_element_spec pth :
  forall e rest, copy_element pth = (e, rest) ->
    pth = e ++ rest
    /\ Forall (fun c => IsPathSeparator c = false) e
    /\ at_elem_end rest = true.
Proof.
  induction pth as [|c q IH]; simpl; intros e rest H.
  - inversion H; subst. auto.
  - destruct (IsPathSeparator c) eqn:Hc.
    + inversion H; subst. simpl. rewrite Hc. auto.
    + destruct (copy_element q) as [e' rest'] eqn:Hq.
      inversion H; subst.
      destruct (IH _ _ eq_refl) as (-> & Hall & Hend).
      repeat split; auto.
Qed.

Lemma copy_element_app e :
  forall tail, Forall (fun c => IsPathSeparator c = false) e ->
    at_elem_end tail = true -> copy_element (e ++ tail) = (e, tail).
Proof.
  induction e as [|c e IH]; simpl; intros tail Hall Hend.
  - destruct tail as [|t tail]; simpl in *; [reflexivity|].
    now rewrite Hend.
  - rewrite (Forall_inv Hall), IH; auto. exact (Forall_inv_tail Hall).
Qed.

(** The loop reads its input at most once: any fuel from [length p] on
    gives the same buffer. *)
Lemma clean_loop_fuel f1 :
  forall f2 rooted pth out dd,
    length pth <= f1 -> length pth <= f2 ->
    clean_loop f1 rooted pth out dd = clean_loop f2 rooted pth out dd.
Proof.
  induction f1 as [|f1 IH]; intros f2 rooted pth out dd H1 H2.
  - destruct pth; simpl in H1; [|lia]. destruct f2; reflexivity.
  - destruct pth as [|c p1]; [destruct f2; reflexivity|].
    destruct f2 as [|f2]; [simpl in H2; lia|].
    simpl in H1, H2. cbn [clean_loop].
    destruct (IsPathSeparator c) eqn:Hc; [apply IH; lia|].
    destruct (Ascii.eqb c dot && at_elem_end p1); [apply IH; lia|].
    match goal with |- (if ?b then _ else _) = _ => destruct b eqn:Hdd end.
    + assert (length (tl p1) <= length p1) by (destruct p1; simpl; lia).
      destruct (dd <? length out); [apply IH; lia|].
      destruct (negb rooted); apply IH; lia.
    + destruct (copy_element (c :: p1)) as [e rest] eqn:He.
      destruct (copy_element_spec _ _ _ He) as (Hp & _ & _).
      assert (length rest < length (c :: p1)).
      { simpl in He. rewrite Hc in He.
        destruct (copy_element p1) as [e' rest'] eqn:He'.
        inversion He; subst.
        destruct (copy_element_spec _ _ _ He') as (-> & _ & _).
        simpl. rewrite length_app. lia. }
      simpl in H. apply IH; lia.
Qed.

Lemma rform_nonempty out : rform out -> 1 <= length out.
Proof.
  induction 1; simpl; [lia|].
  rewrite length_app. unfold add_slash.
  destruct (negb (length out =? 1)); simpl; lia.
Qed.

Lemma rform_rev out : rform out -> exists t, rev out = Separator :: t.
Proof.
  induction 1 as [|e out Hn Hr [t Ht]].
  - exists []. reflexivity.
  - rewrite rev_app_distr, rev_involutive. unfold add_slash.
    destruct (negb (length out =? 1)); simpl; rewrite Ht; simpl; eauto.
Qed.

Lemma rform_length_1 out : rform out -> length out = 1 -> out = [Separator].
Proof.
  intros Hr Hl. destruct (rform_rev _ Hr) as [t Ht].
  destruct out as [|a [|b out]]; simpl in Hl; try discriminate.
  simpl in Ht. now inversion Ht.
Qed.

(** Backtracking over the last element gives back the buffer before it. *)
Lemma backtrack_slash l :
  forall out, 1 <= length out ->
    Forall (fun c => IsPathSeparator c = false) l ->
    backtrack (l ++ Separator :: out) 1 = out.
Proof.
  induction l as [|c l IH]; simpl; intros out Hout Hall.
  - now rewrite andb_false_r.
  - rewrite (Forall_inv Hall). simpl.
    replace (1 <? length (l ++ Separator :: out)) with true.
    + simpl. apply IH; [assumption | exact (Forall_inv_tail Hall)].
    + symmetry. apply Nat.ltb_lt. rewrite length_app. simpl. lia.
Qed.

Lemma backtrack_single l :
  forall s, l <> [] ->
    Forall (fun c => IsPathSeparator c = false) l ->
    backtrack (l ++ [s]) 1 = [s].
Proof.
  induction l as [|c l IH]; intros s Hne Hall; [congruence|].
  simpl. rewrite (Forall_inv Hall). simpl.
  destruct l as [|c' l'].
  - reflexivity.
  - replace (1 <? length ((c' :: l') ++ [s])) with true.
    + simpl. apply IH; [discriminate | exact (Forall_inv_tail Hall)].
    + symmetry. apply Nat.ltb_lt. rewrite length_app. simpl. lia.
Qed.

Lemma backtrack_push e out :
  normal e -> rform out -> backtrack (rev e ++ add_slash out) 1 = out.
Proof.
  intros (Hne & Hall & _) Hr.
  assert (Hall' : Forall (fun c => IsPathSeparator c = false) (rev e))
    by (apply Forall_forall; intros x Hx; apply in_rev in Hx;
        revert x Hx; now apply Forall_forall).
  unfold add_slash. destruct (length out =? 1) eqn:Hl; simpl.
  - apply Nat.eqb_eq in Hl. rewrite (rform_length_1 _ Hr Hl).
    apply backtrack_single; auto.
    intro H. apply Hne. apply (f_equal (@rev ascii)) in H.
    now rewrite rev_involutive in H.
  - apply backtrack_slash; auto. now apply rform_nonempty.
Qed.

Lemma backtrack_rform out :
  rform out -> 1 < length out -> rform (backtrack out 1).
Proof.
  intros Hr Hl. destruct Hr as [|e out Hn Hr]; [simpl in Hl; lia|].
  now rewrite backtrack_push.
Qed.

(** What the element copied in the last case of the switch looks like. *)
Lemma copied_is_normal c p1 e rest :
  IsPathSeparator c = false ->
  Ascii.eqb c dot && at_elem_end p1 = false ->
  Ascii.eqb c dot
    && match p1 with
       | c1 :: p2 => Ascii.eqb c1 dot && at_elem_end p2
       | [] => false
       end = false ->
  copy_element (c :: p1) = (e, rest) ->
  normal e.
Proof.
  intros Hc Hd Hdd He.
  destruct (copy_element_spec _ _ _ He) as (Hp & Hall & Hend).
  simpl in He. rewrite Hc in He.
  destruct (copy_element p1) as [e' rest'] eqn:He'.
  inversion He; subst e rest'. clear He.
  repeat split; auto; try discriminate.
  - intro H. inversion H; subst. simpl in Hp. inversion Hp; subst.
    rewrite Hend in Hd. now rewrite Ascii.eqb_refl in Hd.
  - intro H. inversion H; subst. simpl in Hp. inversion Hp; subst.
    rewrite Hend in Hdd. now rewrite Ascii.eqb_refl in Hdd.
Qed.

(** The buffer of a rooted [Clean] keeps its form all along the loop. *)
Lemma clean_loop_rform fuel :
  forall pth out, rform out -> rform (clean_loop fuel true pth out 1).
Proof.
  induction fuel as [|fuel IH]; intros pth out Hr; [assumption|].
  destruct pth as [|c p1]; [assumption|]. cbn [clean_loop].
  destruct (IsPathSeparator c) eqn:Hc; [now apply IH|].
  destruct (Ascii.eqb c dot && at_elem_end p1) eqn:Hd; [now apply IH|].
  match goal with |- rform (if ?b then _ else _) => destruct b eqn:Hdd end.
  - destruct (1 <? length out) eqn:Hl; simpl; apply IH; auto.
    apply backtrack_rform; auto. now apply Nat.ltb_lt.
  - destruct (copy_element (c :: p1)) as [e rest] eqn:He.
    apply IH. simpl. rewrite orb_false_r.
    apply (rform_push _ _ (copied_is_normal _ _ _ _ Hc Hd Hdd He) Hr).
Qed.

(** One turn of the loop over a real element. *)
Lemma clean_loop_element e tail out fuel :
  normal e -> at_elem_end tail = true ->
  length (e ++ tail) <= fuel ->
  clean_loop fuel true (e ++ tail) out 1
  = clean_loop (length tail) true tail (rev e ++ add_slash out) 1.
Proof.
  intros (Hne & Hall & Hd & Hdd) Hend Hf.
  destruct e as [|c e]; [congruence|].
  destruct fuel as [|fuel]; [simpl in Hf; lia|].
  pose proof (Forall_inv Hall) as Hc. simpl in Hc.
  pose proof (Forall_inv_tail Hall) as Hall1.
  change ((c :: e) ++ tail) with (c :: (e ++ tail)).
  cbn [clean_loop]. rewrite Hc.
  assert (Hcase1 : Ascii.eqb c dot && at_elem_end (e ++ tail) = false).
  { destruct (Ascii.eqb_spec c dot) as [->|]; [|reflexivity]. simpl.
    destruct e as [|c' e]; [congruence|].
    simpl. exact (Forall_inv Hall1). }
  rewrite Hcase1.
  assert (Hcase2 :
    Ascii.eqb c dot
    && match e ++ tail with
       | c1 :: p2 => Ascii.eqb c1 dot && at_elem_end p2
       | [] => false
       end = false).
  { destruct (Ascii.eqb_spec c dot) as [->|]; [|reflexivity]. simpl.
    destruct e as [|c' e]; [congruence|]. simpl.
    destruct (Ascii.eqb_spec c' dot) as [->|]; [|reflexivity]. simpl.
    destruct e as [|c'' e]; [unfold dotdot_elem in Hdd; congruence|].
    simpl. exact (Forall_inv (Forall_inv_tail Hall1)). }
  rewrite Hcase2.
  change (c :: (e ++ tail)) with ((c :: e) ++ tail).
  rewrite (copy_element_app _ _ Hall Hend).
  simpl (true && _). simpl (negb true && _). rewrite orb_false_r.
  fold (add_slash out).
  apply clean_loop_fuel; [|lia].
  rewrite length_app in Hf. simpl in Hf. lia.
Qed.

(** Cleaning a cleaned rooted path again rebuilds the same buffer. *)
Lemma clean_loop_replay out :
  rform out ->
  forall tail fuel,
    length out = 1 \/ at_elem_end tail = true ->
    length (tl (rev out) ++ tail) <= fuel ->
    clean_loop fuel true (tl (rev out) ++ tail) [Separator] 1
    = clean_loop (length tail) true tail out 1.
Proof.
  induction 1 as [|e out Hn Hr IH]; intros tail fuel Hend Hf.
  - simpl in *. apply clean_loop_fuel; lia.
  - destruct Hend as [Hl|Hend].
    { exfalso. rewrite length_app in Hl.
      pose proof (rform_nonempty _ Hr). destruct Hn as (Hne & _).
      destruct e; [congruence|]. unfold add_slash in Hl.
      destruct (negb (length out =? 1)); simpl in Hl;
        rewrite length_app in Hl; simpl in Hl; lia. }
    destruct (rform_rev _ Hr) as [t Ht].
    assert (Hrev : tl (rev (rev e ++ add_slash out)) ++ tail
                   = tl (rev out) ++ ((if negb (length out =? 1)
                                        then [Separator] else []) ++ e ++ tail)).
    { rewrite rev_app_distr, rev_involutive. unfold add_slash.
      destruct (negb (length out =? 1)); simpl; rewrite Ht; simpl;
        rewrite <- ?app_assoc; reflexivity. }
    rewrite Hrev in *.
    rewrite IH; [| |assumption].
    + destruct (length out =? 1) eqn:Hl; simpl.
      * now apply clean_loop_element.
      * rewrite length_app. simpl.
        change (IsPathSeparator Separator) with true. cbv iota.
        apply clean_loop_element; auto. rewrite length_app. lia.
    + destruct (length out =? 1) eqn:Hl; simpl.
      * left. now apply Nat.eqb_eq.
      * now right.
Qed.

(** The element at the head of a path is the one [Clean] copies. *)
Lemma elements_copy_element pth :
  forall e rest, copy_element pth = (e, rest) ->
    elements pth = e :: tl (elements rest)
    /\ exists es, elements rest = [] :: es.
Proof.
  induction pth as [|c q IH]; simpl; intros e rest H.
  - inversion H; subst. simpl. eauto.
  - destruct (IsPathSeparator c) eqn:Hc.
    + inversion H; subst. simpl. rewrite Hc. simpl. eauto.
    + destruct (copy_element q) as [e' rest'] eqn:Hq.
      inversion H; subst.
      destruct (IH _ _ eq_refl) as (Hq' & es & Hes).
      rewrite Hq'. eauto.
Qed.

Lemma no_dotdot_rest pth e rest :
  copy_element pth = (e, rest) ->
  ~ In dotdot_elem (elements pth) ->
  e <> dotdot_elem /\ ~ In dotdot_elem (elements rest).
Proof.
  intros He Hno.
  destruct (elements_copy_element _ _ _ He) as (Hp & es & Hes).
  rewrite Hp in Hno. rewrite Hes in *. simpl in *.
  split; [intro; subst; tauto|].
  intros [H|H]; [discriminate | tauto].
Qed.

(** Without a ".." element the loop only appends: the buffer it was
    given stays as a directory prefix. *)
Lemma clean_loop_extends fuel :
  forall pth out,
    ~ In dotdot_elem (elements pth) ->
    exists ext,
      rev (clean_loop fuel true pth out 1) = rev out ++ ext
      /\ (ext = [] \/ length out = 1 \/ exists ext', ext = Separator :: ext').
Proof.
  induction fuel as [|fuel IH]; intros pth out Hno.
  - exists []. rewrite app_nil_r. auto.
  - destruct pth as [|c p1].
    { exists []. rewrite app_nil_r. auto. }
    cbn [clean_loop].
    destruct (IsPathSeparator c) eqn:Hc.
    { apply IH. simpl in Hno. rewrite Hc in Hno. simpl in Hno. tauto. }
    destruct (Ascii.eqb c dot && at_elem_end p1) eqn:Hd.
    { apply IH. apply andb_prop in Hd. destruct Hd as [_ Hend].
      assert (He : copy_element (c :: p1) = ([c], p1)).
      { apply (copy_element_app [c] p1); auto. }
      apply (no_dotdot_rest _ _ _ He Hno). }
    match goal with |- context [if ?b then _ else _] => destruct b eqn:Hdd end.
    + exfalso.
      apply andb_prop in Hdd. destruct Hdd as [Hcd Hdd].
      destruct p1 as [|c1 p2]; [discriminate|].
      apply andb_prop in Hdd. destruct Hdd as [Hc1 Hend].
      apply Ascii.eqb_eq in Hcd, Hc1. subst c c1.
      assert (He : copy_element (dot :: dot :: p2) = (dotdot_elem, p2)).
      { apply (copy_element_app dotdot_elem p2); auto.
        repeat constructor. }
      destruct (no_dotdot_rest _ _ _ He Hno) as [H _]. congruence.
    + destruct (copy_element (c :: p1)) as [e rest] eqn:He.
      destruct (no_dotdot_rest _ _ _ He Hno) as [_ Hrest].
      destruct (IH rest (rev e ++
                 (if (true && negb (length out =? 1))
                     || (negb true && negb (length out =? 0))
                  then Separator :: out else out)) Hrest)
        as (ext & Hext & _).
      rewrite Hext. simpl. rewrite orb_false_r.
      rewrite rev_app_distr, rev_involutive.
      destruct (length out =? 1) eqn:Hl; simpl.
      * exists (e ++ ext). rewrite <- app_assoc. split; auto.
        right. left. now apply Nat.eqb_eq.
      * exists (Separator :: e ++ ext).
        rewrite <- !app_assoc. simpl. split; eauto.
Qed.

Lemma Clean_rooted loc :
  is_rooted loc = true ->
  exists out, rform out /\ Clean loc = rev out.
Proof.
  destruct loc as [|c p1]; [discriminate|]. cbn [is_rooted]. intros Hc.
  unfold Clean. rewrite Hc.
  set (o := clean_loop (length (c :: p1)) true p1 [Separator] 1).
  assert (Hr : rform o) by (apply clean_loop_rform; constructor).
  exists o. split; [assumption|].
  apply rform_nonempty in Hr.
  destruct o; [simpl in Hr; lia | reflexivity].
Qed.

Lemma Clean_cons_separator q :
  Clean (Separator :: q)
  = match clean_loop (S (length q)) true q [Separator] 1 with
    | [] => [dot]
    | o => rev o
    end.
Proof.
  unfold Clean. change (IsPathSeparator Separator) with true.
  cbv beta iota zeta. change (length (Separator :: q)) with (S (length q)).
  destruct (clean_loop (S (length q)) true q [Separator] 1); reflexivity.
Qed.

(** Joining a path without ".." element to a rooted directory stays
    in that directory. *)
Lemma Join_Clean_confined loc filePath :
  is_rooted loc = true ->
  ~ In dotdot_elem (elements filePath) ->
  under (Clean loc) (Join [Clean loc; filePath]).
Proof.
  intros Hroot Hno.
  destruct (Clean_rooted loc Hroot) as (out & Hr & HR).
  destruct (rform_rev _ Hr) as [t Ht].
  assert (Hno' : ~ In dotdot_elem (elements (Separator :: filePath))).
  { simpl. intros [H|H]; [discriminate | tauto]. }
  destruct (clean_loop_extends (length (Separator :: filePath)) _ out Hno')
    as (ext & Hext & Hcases).
  assert (HJ : Join [Clean loc; filePath] = rev out ++ ext).
  { rewrite HR, Ht. cbn [Join strings_Join app].
    rewrite Clean_cons_separator.
    replace t with (tl (rev out)) by (now rewrite Ht).
    rewrite (clean_loop_replay _ Hr); [|now right|simpl; lia].
    destruct (clean_loop (length (Separator :: filePath)) true
                (Separator :: filePath) out 1) as [|a l] eqn:Hloop.
    - exfalso. simpl in Hext. rewrite Ht in Hext. discriminate.
    - rewrite Hext, Ht. reflexivity. }
  rewrite HJ, HR. exists ext. split; [reflexivity|].
  destruct Hcases as [H|[H|H]]; auto.
  right. left. now rewrite (rform_length_1 _ Hr H).
Qed.

End FilepathFacts.


(** ** The monad and the [io] combinators *)

Module GoFacts.
Import Go GoIO.

Lemma int64_add_l a b : int64 (int64 a + b) = int64 (a + b).
Proof.
  unfold int64.
  replace ((a + 2 ^ 63) mod 2 ^ 64 - 2 ^ 63 + b + 2 ^ 63)%Z
    with ((a + 2 ^ 63) mod 2 ^ 64 + b)%Z by lia.
  rewrite Z.add_mod_idemp_l by lia.
  f_equal. f_equal. lia.
Qed.

Lemma int64_idem a : int64 (int64 a) = int64 a.
Proof.
  rewrite <- (Z.add_0_r (int64 a)), int64_add_l. now rewrite !Z.add_0_r.
Qed.

Lemma int64_small z : (- 2 ^ 63 <= z < 2 ^ 63)%Z -> int64 z = z.
Proof.
  intros H. unfold int64. rewrite Z.mod_small; lia.
Qed.

Lemma bind_Val {W A B} (c : M W A) (k : A -> M W B) w b w' :
  bind c k w = (Val b, w') ->
  exists a w1, c w = (Val a, w1) /\ k a w1 = (Val b, w').
Proof.
  unfold bind. destruct (c w) as [[a|r] w1]; intros H; [eauto|discriminate].
Qed.

(** *** What a piece of code leaves alone *)

Section Frame.
Context {W X : Type} (pi : W -> X).

(** [c] never changes the part [pi] of the world, however it ends. *)
Definition stable {A} (c : M W A) : Prop :=
  forall w, pi (snd (c w)) = pi w.

Lemma stable_ret {A} (a : A) : stable (ret a).
Proof. intros w. reflexivity. Qed.

Lemma stable_stop {A} r : stable (@halt W A r).
Proof. intros w. reflexivity. Qed.

Lemma stable_get : stable get.
Proof. intros w. reflexivity. Qed.

Lemma stable_modify g : (forall w, pi (g w) = pi w) -> stable (modify g).
Proof. intros H w. apply H. Qed.

Lemma stable_bind {A B} (c : M W A) (k : A -> M W B) :
  stable c -> (forall a, stable (k a)) -> stable (bind c k).
Proof.
  intros Hc Hk w. unfold bind. specialize (Hc w).
  destruct (c w) as [[a|r] w1]; simpl in *; [|assumption].
  now rewrite Hk.
Qed.

Lemma stable_tee (r : Reader W) (wr : Writer W) :
  (forall n, stable (r n)) -> (forall d, stable (wr d)) ->
  forall n, stable (teeReader_Read r wr n).
Proof.
  intros Hr Hw n. unfold teeReader_Read.
  apply stable_bind; [apply Hr|]. intros [data err].
  destruct (0 <? length data); [|apply stable_ret].
  apply stable_bind; [apply Hw|]. intros [nw [e|]]; apply stable_ret.
Qed.

Lemma stable_multi_loop drop (readers : list (Reader W)) :
  (forall w, pi (drop w) = pi w) ->
  Forall (fun r => forall n, stable (r n)) readers ->
  forall n, stable (multiReader_loop drop readers n).
Proof.
  intros Hd Hall n. induction Hall as [|r rest Hr _ IH]; simpl.
  - apply stable_ret.
  - apply stable_bind; [apply Hr|]. intros [data err].
    apply stable_bind.
    + destruct (is_EOF err); [now apply stable_modify | apply stable_ret].
    + intros _. destruct (_ || _); [apply stable_ret | apply IH].
Qed.

Lemma stable_multi dropped drop (all : list (Reader W)) :
  (forall w, pi (drop w) = pi w) ->
  Forall (fun r => forall n, stable (r n)) all ->
  forall n, stable (multiReader_Read dropped drop all n).
Proof.
  intros Hd Hall n. unfold multiReader_Read.
  apply stable_bind; [apply stable_get|]. intros w.
  apply stable_multi_loop; [assumption|].
  apply Forall_forall. intros r Hin.
  apply (proj1 (Forall_forall _ _) Hall).
  rewrite <- (firstn_skipn (dropped w) all). apply in_or_app. now right.
Qed.

Lemma stable_copy_loop (dst : Writer W) (src : Reader W) :
  (forall n, stable (src n)) -> (forall d, stable (dst d)) ->
  forall fuel written, stable (copy_loop fuel dst src written).
Proof.
  intros Hs Hd fuel. induction fuel as [|fuel IH]; intros written; simpl.
  - apply stable_stop.
  - apply stable_bind; [apply Hs|]. intros [data er].
    assert (Hafter : forall z,
               stable (match er with
                       | Some e => ret (z, if is_EOF er then None else Some e)
                       | None => copy_loop fuel dst src z
                       end)).
    { intros z. destruct er; [apply stable_ret | apply IH]. }
    destruct (0 <? length data); [|apply Hafter].
    apply stable_bind; [apply Hd|]. intros [nw [e|]]; [apply stable_ret|].
    destruct (negb _); [apply stable_ret | apply Hafter].
Qed.

End Frame.

(** *** What a piece of code keeps true when it returns *)

Section Invariant.
Context {W : Type} (I : W -> Prop).

Definition keeps {A} (c : M W A) : Prop :=
  forall w a w', I w -> c w = (Val a, w') -> I w'.

Lemma keeps_ret {A} (a : A) : keeps (ret a).
Proof. intros w a' w' HI H. inversion H; now subst. Qed.

Lemma keeps_bind {A B} (c : M W A) (k : A -> M W B) :
  keeps c -> (forall a, keeps (k a)) -> keeps (bind c k).
Proof.
  intros Hc Hk w b w' HI H.
  destruct (bind_Val _ _ _ _ _ H) as (a & w1 & H1 & H2).
  eapply Hk; [|exact H2]. eapply Hc; eauto.
Qed.

Lemma keeps_modify g : (forall w, I w -> I (g w)) -> keeps (modify g).
Proof. intros Hg w a w' HI H. inversion H; subst. now apply Hg. Qed.

Lemma keeps_get : keeps get.
Proof. intros w a w' HI H. inversion H; now subst. Qed.

Lemma keeps_stop {A} r : keeps (@halt W A r).
Proof. intros w a w' _ H. discriminate. Qed.

Lemma keeps_multi_loop drop (readers : list (Reader W)) :
  (forall w, I w -> I (drop w)) ->
  Forall (fun r => forall n, keeps (r n)) readers ->
  forall n, keeps (multiReader_loop drop readers n).
Proof.
  intros Hd Hall n. induction Hall as [|r rest Hr _ IH]; simpl.
  - apply keeps_ret.
  - apply keeps_bind; [apply Hr|]. intros [data err].
    apply keeps_bind.
    + destruct (is_EOF err); [now apply keeps_modify | apply keeps_ret].
    + intros _. destruct (_ || _); [apply keeps_ret | apply IH].
Qed.

Lemma keeps_multi dropped drop (all : list (Reader W)) :
  (forall w, I w -> I (drop w)) ->
  Forall (fun r => forall n, keeps (r n)) all ->
  forall n, keeps (multiReader_Read dropped drop all n).
Proof.
  intros Hd Hall n. unfold multiReader_Read.
  apply keeps_bind; [apply keeps_get|]. intros w.
  apply keeps_multi_loop; [assumption|].
  apply Forall_forall. intros r Hin.
  apply (proj1 (Forall_forall _ _) Hall).
  rewrite <- (firstn_skipn (dropped w) all). apply in_or_app. now right.
Qed.

Lemma keeps_copy_loop (dst : Writer W) (src : Reader W) :
  (forall n, keeps (src n)) -> (forall d, keeps (dst d)) ->
  forall fuel written, keeps (copy_loop fuel dst src written).
Proof.
  intros Hs Hd fuel. induction fuel as [|fuel IH]; intros written; simpl.
  - apply keeps_stop.
  - apply keeps_bind; [apply Hs|]. intros [data er].
    assert (Hafter : forall z,
               keeps (match er with
                      | Some e => ret (z, if is_EOF er then None else Some e)
                      | None => copy_loop fuel dst src z
                      end)).
    { intros z. destruct er; [apply keeps_ret | apply IH]. }
    destruct (0 <? length data); [|apply Hafter].
    apply keeps_bind; [apply Hd|]. intros [nw [e|]]; [apply keeps_ret|].
    destruct (negb _); [apply keeps_ret | apply Hafter].
Qed.

End Invariant.

(** *** What [io.Copy] returns *)

Section Copy.
Context {W : Type}.
(** [out]: the bytes the destination holds. *)
Variable out : W -> bytes.
Variables (dst : Writer W) (src : Reader W).

Hypothesis src_out : forall n, stable out (src n).
Hypothesis dst_out :
  forall data w nw ew w',
    dst data w = (Val (nw, ew), w') ->
    nw <= length data /\ out w' = out w ++ firstn nw data.

(** The count returned is the count of the bytes that reached the
    destination, as an [int64]. *)
Lemma copy_loop_written fuel :
  forall written w n err w',
    int64 written = written ->
    copy_loop fuel dst src written w = (Val (n, err), w') ->
    exists wr,
      out w' = out w ++ wr
      /\ n = int64 (written + Z.of_nat (length wr)).
Proof.
  induction fuel as [|fuel IH]; intros written w n err w' Hwr H;
    [discriminate|].
  simpl in H.
  destruct (bind_Val _ _ _ _ _ H) as ([data er] & w1 & Hsrc & H1). clear H.
  pose proof (src_out copy_buffer_size w) as Hw1.
  rewrite Hsrc in Hw1. simpl in Hw1.
  assert (Hafter : forall z w2 wr0,
             out w2 = out w ++ wr0 ->
             z = int64 (written + Z.of_nat (length wr0)) ->
             match er with
             | Some e => ret (z, if is_EOF er then None else Some e)
             | None => copy_loop fuel dst src z
             end w2 = (Val (n, err), w') ->
             exists wr, out w' = out w ++ wr
                        /\ n = int64 (written + Z.of_nat (length wr))).
  { intros z w2 wr0 Hout Hz Hk. destruct er as [e|].
    - inversion Hk; subst. eauto.
    - assert (Hzz : int64 z = z).
      { rewrite Hz. apply int64_idem. }
      destruct (IH _ _ _ _ _ Hzz Hk) as (wr & Hwr' & Hn).
      exists (wr0 ++ wr). rewrite Hwr', Hout, <- app_assoc. split; auto.
      rewrite Hn, Hz, int64_add_l, length_app. f_equal. lia. }
  destruct (0 <? length data) eqn:Hnr.
  - destruct (bind_Val _ _ _ _ _ H1) as ([nw ew] & w2 & Hdst & H2). clear H1.
    destruct (dst_out _ _ _ _ _ Hdst) as (Hle & Hout).
    rewrite Hw1 in Hout.
    assert (Hlen : length (firstn nw data) = nw)
      by (rewrite length_firstn; lia).
    destruct ew as [e|].
    + inversion H2; subst. exists (firstn nw data).
      rewrite Hlen. auto.
    + destruct (negb (length data =? nw)).
      * inversion H2; subst. exists (firstn nw data).
        rewrite Hlen. auto.
      * eapply Hafter; [exact Hout| |exact H2]. now rewrite Hlen.
  - eapply (Hafter written w1 []); [now rewrite app_nil_r| |exact H1].
    simpl. now rewrite Z.add_0_r.
Qed.

Lemma Copy_written fuel w n err w' :
  Copy fuel dst src w = (Val (n, err), w') ->
  exists wr, out w' = out w ++ wr /\ n = int64 (Z.of_nat (length wr)).
Proof.
  intros H. apply copy_loop_written in H; [|reflexivity].
  destruct H as (wr & H1 & H2). exists wr. split; [assumption|].
  now rewrite H2.
Qed.

(** [inp]: the bytes the source has handed out.  With a nil error
    all of them reached the destination. *)
Variable inp : W -> bytes.
Hypothesis src_inp :
  forall n w data er w',
    src n w = (Val (data, er), w') -> inp w' = inp w ++ data.
Hypothesis dst_inp : forall d, stable inp (dst d).

Lemma copy_loop_complete fuel :
  forall written w n w',
    int64 written = written ->
    copy_loop fuel dst src written w = (Val (n, None), w') ->
    exists wr,
      out w' = out w ++ wr /\ inp w' = inp w ++ wr
      /\ n = int64 (written + Z.of_nat (length wr)).
Proof.
  induction fuel as [|fuel IH]; intros written w n w' Hwr H;
    [discriminate|].
  simpl in H.
  destruct (bind_Val _ _ _ _ _ H) as ([data er] & w1 & Hsrc & H1). clear H.
  pose proof (src_out copy_buffer_size w) as Hw1.
  rewrite Hsrc in Hw1. simpl in Hw1.
  assert (Hi1 := src_inp _ _ _ _ _ Hsrc).
  assert (Hafter : forall z w2,
             out w2 = out w ++ data -> inp w2 = inp w ++ data ->
             z = int64 (written + Z.of_nat (length data)) ->
             match er with
             | Some e => ret (z, if is_EOF er then None else Some e)
             | None => copy_loop fuel dst src z
             end w2 = (Val (n, None), w') ->
             exists wr, out w' = out w ++ wr /\ inp w' = inp w ++ wr
                        /\ n = int64 (written + Z.of_nat (length wr))).
  { intros z w2 Hout Hinp Hz Hk. destruct er as [e|].
    - inversion Hk; subst. eauto.
    - assert (Hzz : int64 z = z).
      { rewrite Hz. apply int64_idem. }
      destruct (IH _ _ _ _ Hzz Hk) as (wr & Hwr' & Hin' & Hn).
      exists (data ++ wr).
      rewrite Hwr', Hin', Hout, Hinp, <- !app_assoc.
      repeat split; auto.
      rewrite Hn, Hz, int64_add_l, length_app. f_equal. lia. }
  destruct (0 <? length data) eqn:Hnr.
  - destruct (bind_Val _ _ _ _ _ H1) as ([nw ew] & w2 & Hdst & H2). clear H1.
    destruct (dst_out _ _ _ _ _ Hdst) as (Hle & Hout).
    pose proof (dst_inp data w1) as Hi2. rewrite Hdst in Hi2. simpl in Hi2.
    rewrite Hw1 in Hout. rewrite Hi1 in Hi2.
    destruct ew as [e|]; [discriminate|].
    destruct (length data =? nw) eqn:Hnw; simpl in H2; [|discriminate].
    apply Nat.eqb_eq in Hnw. subst nw. rewrite firstn_all in Hout.
    eapply Hafter; eauto.
  - apply Nat.ltb_ge in Hnr.
    assert (data = []) by (destruct data; [reflexivity | simpl in Hnr; lia]).
    subst data. rewrite app_nil_r in Hi1.
    eapply (Hafter written w1); rewrite ?app_nil_r; eauto.
    simpl. now rewrite Z.add_0_r.
Qed.

Lemma Copy_complete fuel w n w' :
  Copy fuel dst src w = (Val (n, None), w') ->
  exists wr,
    out w' = out w ++ wr /\ inp w' = inp w ++ wr
    /\ n = int64 (Z.of_nat (length wr)).
Proof.
  intros H. apply copy_loop_complete in H; [|reflexivity].
  destruct H as (wr & H1 & H2 & H3). exists wr. repeat split; auto.
Qed.

End Copy.

End GoFacts.

(** ** Tactics for the turns of the worker loops *)

(** Running one turn: every test of the loop body is decided in turn;
    [frame] says that [io.Copy] makes no call. *)
Ltac run_turn frame H :=
  repeat (unfold Go.bind in H; cbn in H;
          match type of H with
          | context [GoIO.Copy ?fuel ?d ?s ?w] =>
              let E := fresh "Hcopy" in
              let F := fresh "Hcalls" in
              pose proof (frame fuel w) as F;
              destruct (GoIO.Copy fuel d s w) as [[[? ?]|?] ?] eqn:E;
              cbn in F
          | context [match ?x with _ => _ end] =>
              lazymatch x with
              | context [match _ with _ => _ end] => fail
              | _ => destruct x eqn:?
              end
          | context [if ?x then _ else _] =>
              lazymatch x with
              | context [if _ then _ else _] => fail
              | _ => destruct x eqn:?
              end
          end);
  cbn in H; inversion H; subst; clear H.

(** The calls of the turn, read off the final world. *)
Ltac show_trace calls :=
  cbn; repeat match goal with H : calls _ = _ |- _ => rewrite H; clear H end;
  cbn; rewrite <- ?app_assoc; cbn; eexists;
  split; [first [reflexivity | symmetry; apply app_nil_r]|].

(** An event that is none of those of an explicit trace is not in it. *)
Ltac absent :=
  let Hin := fresh "Hin" in
  intros Hin; cbn in Hin;
  repeat (destruct Hin as [Hin|Hin]; [discriminate Hin|]);
  exact (False_ind _ Hin).


(** ** The storage backends *)

Module StorageFacts.
Import Go GoIO Storage Filepath FilepathFacts.
Local Open Scope string_scope.

(** The accesses of the POSIX backend for [filePath] stay under its
    root: there is one path below the cleaned [Location] such that
    what the operating system holds at that path alone decides the
    answers of [GetFileSize], [NewFileReader] and [NewFileWriter]. *)
Definition confined (pb : PosixBackend) (filePath : string) : Prop :=
  exists q,
    under (Clean (list_ascii_of_string (Location pb))) (list_ascii_of_string q)
    /\ (forall os os',
           os_Stat os q = os_Stat os' q ->
           PosixBackend_GetFileSize os pb filePath
           = PosixBackend_GetFileSize os' pb filePath)
    /\ (forall os os',
           os_Open os q = os_Open os' q ->
           PosixBackend_NewFileReader os pb filePath
           = PosixBackend_NewFileReader os' pb filePath)
    /\ (forall os os',
           (forall flag perm, os_OpenFile os q flag perm = os_OpenFile os' q flag perm) ->
           PosixBackend_NewFileWriter os pb filePath
           = PosixBackend_NewFileWriter os' pb filePath).

(** An operating system where every file is missing, but for a readable
    one at [present]. *)
Definition os_with (present : option string) : OS :=
  {| os_Open := fun q =>
       match present with
       | Some q' => if String.eqb q q' then inl [] else inr (ErrorString "no such file")
       | None => inr (ErrorString "no such file")
       end;
     os_OpenFile := fun _ _ _ => inr (ErrorString "no such file");
     os_Stat := fun _ => inr (ErrorString "no such file");
     ioutil_ReadFile := fun _ => inr (ErrorString "no such file") |}.

Definition data_root : PosixBackend := {| Location := "/data"; Size := 0 |}.

Lemma posix_reader_opens_outside_root :
  PosixBackend_NewFileReader (os_with (Some "/etc/passwd")) data_root
                             "../etc/passwd"
  = (Some [], None).
Proof. reflexivity. Qed.

(** C7, as stated, fails: with the root "/data" and the path
    "../etc/passwd" the POSIX backend opens "/etc/passwd", and no path
    under "/data" accounts for what it answers. *)
Lemma posix_path_escapes_root : ~ confined data_root "../etc/passwd".
Proof.
  intros (q & Hunder & _ & Hopen & _).
  destruct (string_dec q "/etc/passwd") as [->|Hq].
  - destruct Hunder as (rest & Heq & _).
    vm_compute in Heq. discriminate.
  - specialize (Hopen (os_with (Some "/etc/passwd")) (os_with None)).
    assert (H : os_Open (os_with (Some "/etc/passwd")) q
                = os_Open (os_with None) q).
    { simpl. destruct (String.eqb_spec q "/etc/passwd"); congruence. }
    specialize (Hopen H). vm_compute in Hopen. discriminate.
Qed.

(** C7, amended: for a root given as an absolute path and a
    caller-provided path none of whose elements is "..", GetFileSize,
    NewFileReader and NewFileWriter of the POSIX backend resolve to one
    path that is the cleaned root or lies under it. *)
Theorem posix_confined_without_dotdot :
  forall (pb : PosixBackend) (filePath : string),
    is_rooted (list_ascii_of_string (Location pb)) = true ->
    ~ In dotdot_elem (elements (list_ascii_of_string filePath)) ->
    confined pb filePath.
Proof.
  intros pb filePath Hroot Hno.
  exists (filepath_Join [filepath_Clean (Location pb); filePath]).
  split.
  - unfold filepath_Join, filepath_Clean. cbn [map].
    rewrite !list_ascii_of_string_of_list_ascii.
    now apply Join_Clean_confined.
  - unfold PosixBackend_GetFileSize, PosixBackend_NewFileReader,
      PosixBackend_NewFileWriter.
    repeat split; intros os os' H; now rewrite H.
Qed.

(** A root with a doubled and a trailing slash, a path with a "." element. *)
Lemma posix_confined_without_dotdot_witness :
  confined {| Location := "/data//archive/"; Size := 0 |} "alice/./f.txt.c4gh".
Proof.
  apply posix_confined_without_dotdot.
  - reflexivity.
  - vm_compute. intros H. repeat (destruct H as [H|H]; [discriminate|]).
    exact H.
Defined.

(** What the caller of [NewFileReader] may rely on: a stream with a nil
    error, or no stream with an error. *)
Definition reader_or_error (r : option Stream * option error) : Prop :=
  (exists s, r = (Some s, None)) \/ (exists e, r = (None, Some e)).

Lemma posix_NewFileReader_reader_or_error os pb filePath :
  reader_or_error (PosixBackend_NewFileReader os pb filePath).
Proof.
  unfold PosixBackend_NewFileReader.
  destruct (os_Open os _) as [file|err]; [left | right]; eauto.
Qed.

(** The S3 reader never returns the error of [GetObject]. *)
Lemma S3_NewFileReader_drops_error sb filePath :
  S3Backend_NewFileReader sb filePath
  = (Body (fst (GetObject (Client sb) (Bucket sb) filePath)), None).
Proof.
  unfold S3Backend_NewFileReader.
  now destruct (GetObject (Client sb) (Bucket sb) filePath).
Qed.

(** An S3 bucket without the object asked for. *)
Definition empty_bucket : S3Backend :=
  {| Client :=
       {| GetObject := fun _ _ =>
            ({| Body := None |}, Some (ErrorString "NoSuchKey"));
          HeadObject := fun _ _ =>
            ({| ContentLength := 0 |}, Some (ErrorString "NotFound"));
          Upload := fun _ _ => Fixtures.empty_sink |};
     Bucket := "archive" |}.

(** C9 at the failing input: [GetObject] fails with "NoSuchKey" and the
    S3 backend's NewFileReader returns a nil stream together with a nil
    error, which is neither of the two answers the claim allows. *)
Theorem S3_NewFileReader_nil_stream_nil_error :
  S3Backend_NewFileReader empty_bucket "alice/f.txt.c4gh" = (None, None)
  /\ ~ reader_or_error (S3Backend_NewFileReader empty_bucket "alice/f.txt.c4gh").
Proof.
  split; [reflexivity|].
  intros [[s H]|[e H]]; vm_compute in H; discriminate.
Qed.

(** C8 on the code: whatever the configuration, the transport that
    [transportConfigS3] builds has the minimum version 2, which is not
    the TLS 1.2 protocol version (0x0303) and is below every protocol
    version: TLS 1.0 and 1.1 remain among the versions the client
    supports. *)
Theorem transportConfigS3_MinVersion :
  forall os x c t,
    transportConfigS3 os x c = Some t ->
    MinVersion (TLSClientConfig t) = 2%Z
    /\ MinVersion (TLSClientConfig t) <> VersionTLS12
    /\ supportedVersions (TLSClientConfig t)
       = [VersionTLS13; VersionTLS12; VersionTLS11; VersionTLS10].
Proof.
  intros os x c t H. unfold transportConfigS3 in H.
  assert (Hmin : MinVersion (TLSClientConfig t) = 2%Z).
  { destruct (String.eqb (Cacert c) EmptyString).
    - inversion H; reflexivity.
    - destruct (ioutil_ReadFile os (Cacert c)); inversion H; reflexivity. }
  repeat split; [assumption | rewrite Hmin; discriminate |].
  unfold supportedVersions. rewrite Hmin. reflexivity.
Qed.

Definition no_cacert : S3Conf :=
  {| URL := "https://s3.example.org"; Port := 443; AccessKey := "access";
     SecretKey := "secret"; S3Conf_Bucket := "archive"; Region := "us-east-1";
     UploadConcurrency := 1; Chunksize := 5242880; Cacert := EmptyString |}.

Definition no_certificates : X509 :=
  {| SystemCertPool := []; certsFromPEM := fun _ => [] |}.

(** The transport built for a configuration without CA file. *)
Lemma transportConfigS3_MinVersion_witness :
  exists t,
    transportConfigS3 (os_with None) no_certificates no_cacert = Some t
    /\ MinVersion (TLSClientConfig t) = 2%Z
    /\ MinVersion (TLSClientConfig t) <> VersionTLS12
    /\ supportedVersions (TLSClientConfig t)
       = [VersionTLS13; VersionTLS12; VersionTLS11; VersionTLS10].
Proof.
  eexists. split; [reflexivity|].
  apply (transportConfigS3_MinVersion (os_with None) no_certificates no_cacert).
  reflexivity.
Defined.

End StorageFacts.


(** ** The copy worker from the archive *)

Module SyncArchiveFacts.
Import Go GoIO Storage Worker GoFacts SyncArchive.

Local Arguments Copy : simpl never.

Lemma file_Read_calls n : stable calls (file_Read n).
Proof.
  intros w. unfold file_Read. destruct (file w) as [s|]; [|reflexivity].
  now destruct (Stream_Read s n).
Qed.

Lemma dest_Write_calls d : stable calls (dest_Write d).
Proof.
  intros w. unfold dest_Write. destruct (dest w) as [s|]; [|reflexivity].
  now destruct (Sink_Write s d).
Qed.

Lemma Copy_calls fuel : stable calls (Copy fuel dest_Write file_Read).
Proof.
  apply stable_copy_loop; [apply file_Read_calls | apply dest_Write_calls].
Qed.

(** The bytes the destination holds. *)
Definition dest_data (w : World) : bytes :=
  match dest w with
  | Some s => sink_data s
  | None => []
  end.

Lemma file_Read_dest n : stable dest (file_Read n).
Proof.
  intros w. unfold file_Read. destruct (file w) as [s|]; [|reflexivity].
  now destruct (Stream_Read s n).
Qed.

Lemma Sink_Write_spec s data nw ew s' :
  Sink_Write s data = ((nw, ew), s') ->
  nw <= length data /\ sink_data s' = sink_data s ++ firstn nw data.
Proof.
  unfold Sink_Write. destruct (sink_room s) as [room|].
  - destruct (length data <=? room) eqn:Hle; intros H; inversion H; subst;
      simpl.
    + now rewrite firstn_all.
    + apply Nat.leb_gt in Hle. split; [lia | reflexivity].
  - intros H; inversion H; subst; simpl. now rewrite firstn_all.
Qed.

Lemma dest_Write_spec data w nw ew w' :
  dest_Write data w = (Val (nw, ew), w') ->
  nw <= length data /\ dest_data w' = dest_data w ++ firstn nw data.
Proof.
  unfold dest_Write, dest_data. destruct (dest w) as [s|]; [|discriminate].
  destruct (Sink_Write s data) as [[nw' ew'] s'] eqn:Hs.
  intros H; inversion H; subst. simpl. now apply Sink_Write_spec in Hs.
Qed.

Lemma dest_Write_keeps_open d :
  keeps (fun w => dest w <> None) (dest_Write d).
Proof.
  intros w a w' Hw. unfold dest_Write. destruct (dest w) as [s|]; [|congruence].
  destruct (Sink_Write s d). intros H; inversion H; subst. discriminate.
Qed.

Lemma file_Read_keeps_open n :
  keeps (fun w => dest w <> None) (file_Read n).
Proof.
  intros w a w' Hw H. pose proof (file_Read_dest n w) as Hd.
  rewrite H in Hd. simpl in Hd. congruence.
Qed.

(** What [io.Copy] to the destination returns: the count of the bytes
    it has added to it. *)
Lemma Copy_dest fuel w n err w' dst :
  dest w = Some dst ->
  Copy fuel dest_Write file_Read w = (Val (n, err), w') ->
  exists dst' written,
    dest w' = Some dst'
    /\ sink_data dst' = sink_data dst ++ written
    /\ n = int64 (Z.of_nat (length written)).
Proof.
  intros Hd H.
  destruct (Copy_written dest_data dest_Write file_Read) with
    (fuel := fuel) (w := w) (n := n) (err := err) (w' := w')
    as (written & Hout & Hn); auto.
  - intros k w0. unfold dest_data. now rewrite file_Read_dest.
  - apply dest_Write_spec.
  - assert (Hopen : dest w' <> None).
    { eapply (keeps_copy_loop (fun w => dest w <> None));
        [apply file_Read_keeps_open | apply dest_Write_keeps_open | | exact H].
      congruence. }
    unfold dest_data in Hout. rewrite Hd in Hout.
    destruct (dest w') as [dst'|]; [|congruence].
    exists dst', written. auto.
Qed.

(** *** [io.Copy] from a stream returns *)

(** The reads a stream has left, counting each answer and each of its
    bytes. *)
Definition Stream_measure (s : Stream) : nat :=
  fold_right (fun a acc => S (length (fst a)) + acc) 0 s.

Lemma Stream_Read_measure s n r s' :
  0 < n -> s <> [] -> Stream_Read s n = (r, s') ->
  Stream_measure s' < Stream_measure s.
Proof.
  intros Hn Hs. destruct s as [|[d e] t]; [congruence|]. unfold Stream_Read.
  destruct (length d <=? n) eqn:Hle; intros H; inversion H; subst; simpl.
  - lia.
  - apply Nat.leb_gt in Hle. rewrite length_skipn. lia.
Qed.

(** With more fuel than the stream has reads left, the copy loop gives
    its answer (or panics on a nil destination): it does not run out. *)
Lemma copy_loop_returns fuel :
  forall s written w,
    file w = Some s -> Stream_measure s < fuel ->
    fst (copy_loop fuel dest_Write file_Read written w) <> Stop OutOfFuel.
Proof.
  induction fuel as [|fuel IH]; intros s written w Hf Hm; [lia|].
  cbn [copy_loop]. unfold bind at 1. unfold file_Read at 1. rewrite Hf.
  destruct (Stream_Read s copy_buffer_size) as [[data er] s'] eqn:Hr.
  assert (Hafter : forall z w2,
             file w2 = Some s' ->
             fst (match er with
                  | Some e => ret (z, if is_EOF er then None else Some e)
                  | None => copy_loop fuel dest_Write file_Read z
                  end w2) <> Stop OutOfFuel).
  { intros z w2 Hf2. destruct er as [e|]; [discriminate|].
    destruct s as [|a t]; [inversion Hr|].
    apply (IH s'); [assumption|].
    apply Stream_Read_measure in Hr;
      [lia | unfold copy_buffer_size; lia | discriminate]. }
  destruct (0 <? length data).
  - unfold bind, dest_Write. cbn [set_file dest].
    destruct (dest w) as [d|]; [|discriminate].
    destruct (Sink_Write d data) as [[nw ew] d'].
    destruct ew as [e|]; [discriminate|].
    destruct (negb (length data =? nw)); [discriminate|].
    apply Hafter. reflexivity.
  - apply Hafter. reflexivity.
Qed.

Lemma Copy_returns fuel w :
  match file w with
  | Some s => Stream_measure s < fuel
  | None => 0 < fuel
  end ->
  fst (Copy fuel dest_Write file_Read w) <> Stop OutOfFuel.
Proof.
  destruct (file w) as [s|] eqn:Hf; intros H.
  - now apply copy_loop_returns with (s := s).
  - destruct fuel as [|fuel]; [lia|].
    unfold Copy. cbn [copy_loop]. unfold bind, file_Read. now rewrite Hf.
Qed.

(** When the publish of the completion message fails, the turn of this
    worker ends without an acknowledge ("Restart loop, do not ack"). *)
Lemma archive_no_ack_after_failed_publish fuel env delivered w r w' :
  iteration fuel env delivered w = (r, w') ->
  exists evs,
    calls w' = calls w ++ evs
    /\ (forall c e k d b,
           In (SendMessage c e k d b) evs ->
           SendMessage_err (mq env) c e k d b <> None ->
           forall m, ~ In (Ack m) evs).
Proof.
  intros H. unfold iteration in H. run_turn Copy_calls H; show_trace calls;
    intros ? ? ? ? ? Hin Herr ? Hack; cbn in *;
    repeat match goal with
           | H : _ \/ _ |- _ => destruct H
           | H : SendMessage _ _ _ _ _ = SendMessage _ _ _ _ _ |- _ =>
               inversion H; subst; clear H
           end; try discriminate; try tauto; congruence.
Qed.

(** C5: a valid copy-work message whose archived size [fileSize] is
    known, and for which source and destination were opened.  The bytes
    the turn has written to the destination are [written]; when the turn
    acknowledges, their count is the recorded size, and when their count
    differs from it, the turn negative-acknowledges with requeue and
    does not acknowledge.  (The loop compares the counts as [int64]
    values; both are below 2^63.) *)
Theorem archive_copy_size_checked :
  forall fuel env delivered w w' filePath fileSize src dst,
    iteration fuel env delivered w = (Val tt, w') ->
    let m := json_Unmarshal env (Body delivered) (message w) in
    ValidateJSON_err (mq env) delivered "ingestion-accession" (Body delivered)
    = None ->
    GetArchived_ans (db env) (User m) (Filepath m)
                    (extract_sha256 (DecryptedChecksums m))
    = (filePath, fileSize, None) ->
    (- 2 ^ 63 <= fileSize < 2 ^ 63)%Z ->
    NewFileReader (archive env) filePath = (src, None) ->
    NewFileWriter (backup env) filePath = (Some dst, None) ->
    exists evs dst' written,
      calls w' = calls w ++ evs
      /\ dest w' = Some dst'
      /\ sink_data dst' = sink_data dst ++ written
      /\ ((Z.of_nat (length written) < 2 ^ 63)%Z ->
          (In (Ack false) evs -> Z.of_nat (length written) = fileSize)
          /\ (Z.of_nat (length written) <> fileSize ->
              In (Nack false true) evs /\ forall k, ~ In (Ack k) evs)).
Proof.
  intros fuel env delivered w w' filePath fileSize src dst H m Hval Hget
         Hsize Hsrc Hdst.
  subst m. unfold iteration in H. unfold bind in H. cbn in H.
  rewrite Hval in H. cbn in H. rewrite Hget in H. cbn in H.
  rewrite Hsrc in H. cbn in H. rewrite Hdst in H. cbn in H.
  match type of H with
  | context [Copy fuel dest_Write file_Read ?w0] =>
      pose proof (Copy_calls fuel w0) as Hcalls;
      destruct (Copy fuel dest_Write file_Read w0)
        as [[[copiedSize err]|?] w1] eqn:Hcopy; [|discriminate]
  end.
  cbn in Hcalls.
  apply Copy_dest with (dst := dst) in Hcopy; [|reflexivity].
  destruct Hcopy as (dst' & written & Hd' & Hdata & Hn).
  assert (Hcount : (Z.of_nat (length written) < 2 ^ 63)%Z ->
                   copiedSize = Z.of_nat (length written)).
  { intros Hlt. rewrite Hn. apply int64_small. lia. }
  rewrite (int64_small _ Hsize) in H.
  destruct err as [e|]; cbn in H.
  - inversion H; subst; clear H. cbn. rewrite Hcalls, <- !app_assoc. cbn.
    eexists _, dst', written. repeat split; eauto.
    + absent.
    + cbn. tauto.
    + intros k; absent.
  - destruct (copiedSize =? fileSize)%Z eqn:Heq; cbn in H.
    + apply Z.eqb_eq in Heq.
        destruct (SendMessage_err _ _ _ _ _ _); cbn in H;
        inversion H; subst; clear H; cbn; rewrite Hcalls, <- !app_assoc; cbn;
        eexists _, dst', written;
        (split; [reflexivity|]); (split; [assumption|]);
        (split; [assumption|]);
        intros Hlt; specialize (Hcount Hlt);
        (split; [intros _; congruence | intros Hne; congruence]).
    + apply Z.eqb_neq in Heq.
      inversion H; subst; clear H. cbn. rewrite Hcalls, <- !app_assoc. cbn.
      eexists _, dst', written. repeat split; eauto.
      * absent.
      * cbn. tauto.
      * intros k; absent.
Qed.

(** The three bytes of the archived file of [Fixtures], copied and
    acknowledged. *)
Lemma archive_copy_size_checked_witness :
  exists evs dst' written,
    calls (snd (iteration 10 (Fixtures.Archive.env true) Fixtures.delivered
                          Fixtures.Archive.start))
    = calls Fixtures.Archive.start ++ evs
    /\ dest (snd (iteration 10 (Fixtures.Archive.env true) Fixtures.delivered
                            Fixtures.Archive.start)) = Some dst'
    /\ sink_data dst' = sink_data Fixtures.empty_sink ++ written
    /\ ((Z.of_nat (length written) < 2 ^ 63)%Z ->
        (In (Ack false) evs -> Z.of_nat (length written) = 3%Z)
        /\ (Z.of_nat (length written) <> 3%Z ->
            In (Nack false true) evs /\ forall k, ~ In (Ack k) evs)).
Proof.
  apply (archive_copy_size_checked 10 (Fixtures.Archive.env true)
           Fixtures.delivered Fixtures.Archive.start _
           "alice/f.txt.c4gh"%string 3%Z
           (Some [(["a"; "b"; "c"]%byte, None)]) Fixtures.empty_sink);
    try reflexivity.
  lia.
Defined.

(** No turn of this worker resolves its delivery twice. *)
Lemma archive_resolves_at_most_once fuel env delivered w r w' :
  iteration fuel env delivered w = (r, w') ->
  exists evs, calls w' = calls w ++ evs /\ resolutions evs <= 1.
Proof.
  intros H. unfold iteration in H.
  run_turn Copy_calls H; show_trace calls; cbn; lia.
Qed.

(** A turn that passes the validation and ends without a failed publish
    resolves its delivery once. *)
Lemma archive_resolves_once fuel env delivered w w' :
  iteration fuel env delivered w = (Val tt, w') ->
  ValidateJSON_err (mq env) delivered "ingestion-accession" (Body delivered)
  = None ->
  exists evs,
    calls w' = calls w ++ evs
    /\ ((forall c e k d b,
            In (SendMessage c e k d b) evs ->
            SendMessage_err (mq env) c e k d b = None) ->
        resolutions evs = 1).
Proof.
  intros H Hval. unfold iteration in H. unfold bind in H. cbn in H.
  rewrite Hval in H.
  run_turn Copy_calls H; show_trace calls; intros Hpub; cbn;
    try reflexivity.
  exfalso.
  match goal with
  | Hs : SendMessage_err ?q ?c ?e ?k ?d ?b = Some _ |- _ =>
      specialize (Hpub c e k d b); rewrite Hs in Hpub
  end.
  assert (Some e = None); [|discriminate].
  apply Hpub. cbn. auto.
Qed.

(** The fuel that the turn for [delivered] needs: one more than the
    reads that the archived file has left. *)
Definition enough_fuel (env : Env) (delivered : Delivery) (w : World) : nat :=
  let m := json_Unmarshal env (Body delivered) (message w) in
  let '(filePath, _, _) :=
    GetArchived_ans (db env) (User m) (Filepath m)
                    (extract_sha256 (DecryptedChecksums m)) in
  match fst (NewFileReader (archive env) filePath) with
  | Some s => S (Stream_measure s)
  | None => 1
  end.

(** Every turn of this worker comes to its end. *)
Lemma archive_turn_returns env delivered w fuel :
  enough_fuel env delivered w <= fuel ->
  fst (iteration fuel env delivered w) <> Stop OutOfFuel.
Proof.
  unfold enough_fuel, iteration. unfold bind. cbn.
  destruct (ValidateJSON_err _ _ _ _); [discriminate|]. cbn.
  destruct (GetArchived_ans _ _ _ _) as [[filePath fileSize] [e|]];
    [discriminate|]. cbn.
  destruct (NewFileReader (archive env) filePath) as [src [e|]];
    [discriminate|]. cbn.
  destruct (NewFileWriter (backup env) filePath) as [dst [e|]];
    [discriminate|]. cbn.
  intros Hfuel.
  match goal with
  | |- context [Copy fuel dest_Write file_Read ?w0] =>
      pose proof (Copy_returns fuel w0) as Hret;
      destruct (Copy fuel dest_Write file_Read w0) as [[[n err]|r] w1]
  end.
  - cbn. destruct (_ || _); cbn; [discriminate|].
    destruct (SendMessage_err _ _ _ _ _ _); discriminate.
  - cbn in *. intros Hr. inversion Hr; subst.
    apply Hret; [destruct src; lia | reflexivity].
Qed.

End SyncArchiveFacts.


(** ** The copy worker from the inbox *)

Module SyncInboxFacts.
Import Go GoIO Storage Worker GoFacts SyncInbox.

Local Arguments Copy : simpl never.
Local Arguments validateJSON : simpl never.

Lemma inbox_file_Read_calls n : stable calls (file_Read n).
Proof.
  intros w. unfold file_Read. destruct (file w) as [s|]; [|reflexivity].
  now destruct (Stream_Read s n).
Qed.

Lemma inbox_dest_Write_calls d : stable calls (dest_Write d).
Proof.
  intros w. unfold dest_Write. destruct (dest w) as [s|]; [|reflexivity].
  now destruct (Sink_Write s d).
Qed.

Lemma inbox_Copy_calls fuel : stable calls (Copy fuel dest_Write file_Read).
Proof.
  apply stable_copy_loop;
    [apply inbox_file_Read_calls | apply inbox_dest_Write_calls].
Qed.

Ltac run_inbox_turn H :=
  unfold iteration, checked, res_Valid, err_Error in H;
  run_turn inbox_Copy_calls H.

(** A body that is not JSON at all (or whose schema cannot be loaded):
    [validateJSON] answers an error, and the turn negative-acknowledges
    without requeue and publishes one diagnostic. *)
Lemma inbox_unparsable_rejected fuel env delivered w res e :
  validateJSON (lib env) (SchemasPath env) (Body delivered) = (res, Some e) ->
  iteration fuel env delivered w
  = (Val tt, record (SendJSONError (Error e)) (record (Nack false false) w)).
Proof.
  intros H. unfold iteration. rewrite H. reflexivity.
Qed.

(** A body that is JSON and that the schema rejects: [validateJSON]
    answers a result that is not valid and a nil error.  The turn
    negative-acknowledges without requeue and then panics in
    [err.Error()], before [SendJSONError] is called. *)
Lemma inbox_schema_invalid_panics fuel env delivered w res :
  validateJSON (lib env) (SchemasPath env) (Body delivered) = (Some res, None) ->
  Valid res = false ->
  iteration fuel env delivered w = (Stop Panic, record (Nack false false) w).
Proof.
  intros H Hv. unfold iteration. rewrite H. cbn. unfold bind. cbn.
  rewrite Hv. reflexivity.
Qed.

(** C2 at the failing input: the body is well-formed JSON and fails the
    schema.  The loop makes one call, Nack(false, false), and the process
    panics: nothing is published to the error channel and no further
    delivery is taken. *)
Theorem inbox_schema_invalid_no_error_publish :
  exists w',
    main_loop 10 (Fixtures.Inbox.env true false true true)
              [Fixtures.delivered; Fixtures.delivered] Fixtures.Inbox.start
    = (Stop Panic, w')
    /\ calls w' = [Nack false false]
    /\ count is_SendJSONError (calls w') = 0.
Proof.
  eexists. split; [vm_compute; reflexivity|]. split; reflexivity.
Qed.

(** When [MarkReady] fails, the turn of this worker
    negative-acknowledges with requeue, its last call, and neither
    acknowledges nor publishes. *)
Lemma inbox_persist_failure_requeues fuel env delivered w r w' :
  iteration fuel env delivered w = (r, w') ->
  exists evs,
    calls w' = calls w ++ evs
    /\ (forall a u f c,
           In (MarkReady a u f c) evs ->
           MarkReady_err (db env) a u f c <> None ->
           count is_Nack evs = 1
           /\ In (Nack false true) evs
           /\ count is_Ack evs = 0
           /\ count is_publish evs = 0).
Proof.
  intros H. run_inbox_turn H; show_trace calls;
    intros ? ? ? ? Hin Herr; cbn in Hin;
    repeat match goal with
           | H : _ \/ _ |- _ => destruct H
           | H : MarkReady _ _ _ _ = MarkReady _ _ _ _ |- _ =>
               inversion H; subst; clear H
           end; try discriminate; try tauto; try congruence;
    cbn; auto.
Qed.

(** No turn of this worker resolves its delivery twice. *)
Lemma inbox_resolves_at_most_once fuel env delivered w r w' :
  iteration fuel env delivered w = (r, w') ->
  exists evs, calls w' = calls w ++ evs /\ resolutions evs <= 1.
Proof.
  intros H. run_inbox_turn H; show_trace calls; cbn; lia.
Qed.

(** The publish fails with "channel closed"; the turn acknowledges all
    the same. *)
Lemma inbox_acks_after_failed_publish :
  exists w',
    iteration 10 (Fixtures.Inbox.env true true true false)
              Fixtures.delivered Fixtures.Inbox.start
    = (Val tt, w')
    /\ calls w'
       = [MarkReady "EGAF001" "alice" "f.txt" "abc123";
          SendMessage "corr-1" "sda" "completed" true "{completed}";
          Ack false]
    /\ SendMessage_err (mq (Fixtures.Inbox.env true true true false))
                       "corr-1" "sda" "completed" true "{completed}"
       = Some (ErrorString "channel closed").
Proof.
  eexists. split; [vm_compute; reflexivity|]. split; reflexivity.
Qed.

End SyncInboxFacts.


(** ** The verify worker *)

Module VerifyFacts.
Import Go GoIO Storage Worker GoFacts Verify.

Local Arguments Copy : simpl never.
Local Arguments run : simpl never.
Local Arguments mr_Read : simpl never.
Local Arguments stream_Read : simpl never.

Section Pipeline.
Variable D : Type.
Variable lib : Crypt4GH D.

(** *** Parts of the world that reading the archive leaves alone *)

Section Untouched.
Variable X : Type.
Variable pi : World D -> X.
Hypothesis pi_hr : forall x w, pi (set_hr x w) = pi w.
Hypothesis pi_mr : forall x w, pi (set_mr x w) = pi w.
Hypothesis pi_f : forall x w, pi (set_f x w) = pi w.
Hypothesis pi_archiveFileHash :
  forall x w, pi (set_archiveFileHash x w) = pi w.

Lemma hr_Read_stable n : stable pi (@hr_Read D n).
Proof.
  intros w. unfold hr_Read.
  destruct (bytes_Reader_Read (hr w) n). simpl. apply pi_hr.
Qed.

Lemma f_Read_stable n : stable pi (@f_Read D n).
Proof.
  intros w. unfold f_Read. destruct (f w) as [s|]; [|reflexivity].
  destruct (Stream_Read s n). simpl. apply pi_f.
Qed.

Lemma archiveFileHash_Write_stable d :
  stable pi (@archiveFileHash_Write D d).
Proof. intros w. apply pi_archiveFileHash. Qed.

Lemma mr_Read_stable n : stable pi (@mr_Read D n).
Proof.
  apply stable_multi; [intros w; apply pi_mr|].
  repeat constructor.
  - apply hr_Read_stable.
  - apply stable_tee;
      [apply f_Read_stable | apply archiveFileHash_Write_stable].
Qed.

Lemma run_stable {A} (c : prog A) : stable pi (run (@mr_Read D) c).
Proof.
  induction c as [a|n k IH]; simpl.
  - apply stable_ret.
  - apply stable_bind; [apply mr_Read_stable | exact IH].
Qed.
End Untouched.

(** *** Parts of the world that the decrypted stream leaves alone *)

Section UntouchedByStream.
Variable X : Type.
Variable pi : World D -> X.
Hypothesis pi_hr : forall x w, pi (set_hr x w) = pi w.
Hypothesis pi_mr : forall x w, pi (set_mr x w) = pi w.
Hypothesis pi_f : forall x w, pi (set_f x w) = pi w.
Hypothesis pi_archiveFileHash :
  forall x w, pi (set_archiveFileHash x w) = pi w.
Hypothesis pi_c4ghr : forall x w, pi (set_c4ghr x w) = pi w.
Hypothesis pi_produced : forall x w, pi (set_produced x w) = pi w.
Hypothesis pi_md5hash : forall x w, pi (set_md5hash x w) = pi w.

Lemma c4ghr_Read_stable n : stable pi (c4ghr_Read lib n).
Proof.
  unfold c4ghr_Read. apply stable_bind; [apply stable_get|]. intros w.
  destruct (c4ghr w) as [d|]; [|apply stable_stop].
  apply stable_bind; [now apply run_stable|]. intros [[data err] d'].
  apply stable_bind; [|intros _; apply stable_ret].
  apply stable_modify. intros w0. now rewrite pi_produced, pi_c4ghr.
Qed.

Lemma stream_Read_stable n : stable pi (stream_Read lib n).
Proof.
  apply stable_tee; [apply c4ghr_Read_stable|].
  intros d w. apply pi_md5hash.
Qed.
End UntouchedByStream.

Lemma run_calls {A} (c : prog A) : stable (@calls D) (run (@mr_Read D) c).
Proof. now apply run_stable. Qed.

Lemma stream_Read_calls n : stable (@calls D) (stream_Read lib n).
Proof. now apply stream_Read_stable. Qed.

Lemma stream_Read_sha256hash n :
  stable (@sha256hash D) (stream_Read lib n).
Proof. now apply stream_Read_stable. Qed.

Lemma verify_Copy_calls fuel :
  stable (@calls D) (Copy fuel (@sha256hash_Write D) (stream_Read lib)).
Proof.
  apply stable_copy_loop; [apply stream_Read_calls | intros d w; reflexivity].
Qed.

(** *** The archive stream and its checksum *)

(** Of the bytes of the stream [src] that the backend handed out,
    those read so far are the ones written to [archiveFileHash], and
    the others are still to come. *)
Definition archive_pass (src : Stream) (w : World D) : Prop :=
  hash_alg (archiveFileHash w) = SHA256
  /\ exists s,
       f w = Some s
       /\ Stream_bytes src = hash_written (archiveFileHash w) ++ Stream_bytes s.

Lemma Stream_Read_bytes s n data err s' :
  Stream_Read s n = ((data, err), s') ->
  Stream_bytes s = data ++ Stream_bytes s'.
Proof.
  unfold Stream_Read, Stream_bytes. destruct s as [|[d e] s0].
  - intros H; inversion H; reflexivity.
  - destruct (length d <=? n); intros H; inversion H; subst; simpl.
    + reflexivity.
    + now rewrite app_assoc, firstn_skipn.
Qed.

Lemma tee_f_keeps_pass src n :
  keeps (archive_pass src)
        (teeReader_Read (@f_Read D) (@archiveFileHash_Write D) n).
Proof.
  intros w [data err] w' (Halg & s & Hf & Hbytes).
  unfold teeReader_Read, f_Read, archiveFileHash_Write, bind, Hash_Write.
  rewrite Hf. destruct (Stream_Read s n) as [[data0 err0] s'] eqn:Hs.
  apply Stream_Read_bytes in Hs.
  destruct (0 <? length data0) eqn:Hlen; cbn; intros H; inversion H; subst;
    (split; [assumption|]); exists s'; (split; [reflexivity|]); cbn.
  - now rewrite Hbytes, Hs, app_assoc.
  - apply Nat.ltb_ge in Hlen.
    destruct data; [|simpl in Hlen; lia]. now rewrite Hbytes, Hs.
Qed.

Lemma hr_Read_keeps_pass src n : keeps (archive_pass src) (@hr_Read D n).
Proof.
  intros w a w' HI. unfold hr_Read.
  destruct (bytes_Reader_Read (hr w) n). intros H; inversion H; subst.
  exact HI.
Qed.

Lemma mr_Read_keeps_pass src n : keeps (archive_pass src) (@mr_Read D n).
Proof.
  apply keeps_multi; [intros w H; exact H|].
  apply Forall_cons; [intros k; apply hr_Read_keeps_pass|].
  apply Forall_cons; [intros k; apply tee_f_keeps_pass|].
  constructor.
Qed.

Lemma run_keeps_pass src {A} (c : prog A) :
  keeps (archive_pass src) (run (@mr_Read D) c).
Proof.
  induction c as [a|n k IH]; simpl.
  - apply keeps_ret.
  - apply keeps_bind; [apply mr_Read_keeps_pass | exact IH].
Qed.

(** *** The decrypted stream and its two checksums *)

(** What one [c4ghr.Read] does to the world. *)
Lemma c4ghr_Read_spec n w data err w' :
  c4ghr_Read lib n w = (Val (data, err), w') ->
  produced w' = produced w ++ data
  /\ md5hash w' = md5hash w
  /\ sha256hash w' = sha256hash w
  /\ forall src, archive_pass src w -> archive_pass src w'.
Proof.
  unfold c4ghr_Read, bind, get. cbn.
  destruct (c4ghr w) as [d|]; [|discriminate].
  pose proof (run_stable _ (@produced D)
                ltac:(reflexivity) ltac:(reflexivity) ltac:(reflexivity)
                ltac:(reflexivity) (Crypt4GHReader_Read lib d n) w) as Hp.
  pose proof (run_stable _ (@md5hash D)
                ltac:(reflexivity) ltac:(reflexivity) ltac:(reflexivity)
                ltac:(reflexivity) (Crypt4GHReader_Read lib d n) w) as Hm.
  pose proof (run_stable _ (@sha256hash D)
                ltac:(reflexivity) ltac:(reflexivity) ltac:(reflexivity)
                ltac:(reflexivity) (Crypt4GHReader_Read lib d n) w) as Hs.
  pose proof (fun src => run_keeps_pass src (Crypt4GHReader_Read lib d n) w)
    as Ha.
  destruct (run (@mr_Read D) (Crypt4GHReader_Read lib d n) w)
    as [[[[data0 err0] d']|r] w1]; [|discriminate].
  cbn in *. intros H; inversion H; subst. cbn.
  rewrite Hp, Hm, Hs. split; [|split; [|split]]; auto.
  intros src Hsrc. exact (Ha src _ _ Hsrc eq_refl).
Qed.

(** [md5hash] holds what the decrypt stage has produced. *)
Definition md5_follows (w : World D) : Prop :=
  hash_alg (md5hash w) = MD5 /\ hash_written (md5hash w) = produced w.

Lemma stream_Read_spec n w data err w' :
  stream_Read lib n w = (Val (data, err), w') ->
  produced w' = produced w ++ data
  /\ sha256hash w' = sha256hash w
  /\ (md5_follows w -> md5_follows w')
  /\ forall src, archive_pass src w -> archive_pass src w'.
Proof.
  unfold stream_Read, teeReader_Read. intros H.
  destruct (bind_Val _ _ _ _ _ H) as ([data0 err0] & w1 & Hread & Hk).
  clear H. apply c4ghr_Read_spec in Hread.
  destruct Hread as (Hp & Hm & Hs & Ha).
  destruct (0 <? length data0) eqn:Hlen.
  - unfold bind, md5hash_Write, Hash_Write in Hk. cbn in Hk.
    inversion Hk; subst. cbn.
    split; [|split; [|split]]; auto.
    intros [Halg Hw]. unfold md5_follows. cbn.
    rewrite Hm, Hp, Halg, Hw. auto.
  - inversion Hk; subst. split; [|split; [|split]]; auto.
    intros [Halg Hw]. unfold md5_follows. rewrite Hm, Hp, Halg, Hw.
    apply Nat.ltb_ge in Hlen.
    destruct data; [|simpl in Hlen; lia]. now rewrite app_nil_r.
Qed.

(** What the single [io.Copy] of the turn leaves behind. *)
Lemma verify_Copy_spec fuel w n w' src :
  Copy fuel (@sha256hash_Write D) (stream_Read lib) w = (Val (n, None), w') ->
  produced w = [] ->
  sha256hash w = Hash_New SHA256 ->
  md5hash w = Hash_New MD5 ->
  archive_pass src w ->
  n = int64 (Z.of_nat (length (produced w')))
  /\ sha256hash w' = {| hash_alg := SHA256; hash_written := produced w' |}
  /\ md5hash w' = {| hash_alg := MD5; hash_written := produced w' |}
  /\ archive_pass src w'.
Proof.
  intros H Hp Hs Hm Ha.
  assert (Hkeep :
    (hash_alg (sha256hash w') = SHA256 /\ md5_follows w')
    /\ archive_pass src w').
  { eapply (keeps_copy_loop
              (fun w => (hash_alg (sha256hash w) = SHA256 /\ md5_follows w)
                        /\ archive_pass src w)); [| | |exact H].
    - intros k w0 [data err] w1 [[H1 H2] H3] Hr.
      apply stream_Read_spec in Hr. destruct Hr as (_ & Hsha & Hmd & Har).
      rewrite Hsha. auto.
    - intros d w0 [nw ew] w1 [[H1 H2] H3] Hr.
      unfold sha256hash_Write, Hash_Write in Hr. inversion Hr; subst.
      cbn. auto.
    - rewrite Hs. unfold md5_follows. rewrite Hm, Hp. cbn. auto. }
  destruct Hkeep as [[Halg [Hmalg Hmw]] Ha'].
  destruct (Copy_complete (fun w => hash_written (sha256hash w))
              (@sha256hash_Write D) (stream_Read lib)) with
    (inp := @produced D) (fuel := fuel) (w := w) (n := n) (w' := w')
    as (wr & Hout & Hinp & Hn); auto.
  - intros k w0. now rewrite stream_Read_sha256hash.
  - intros data w0 nw ew w1 Hr.
    unfold sha256hash_Write, Hash_Write in Hr. inversion Hr; subst. cbn.
    now rewrite firstn_all.
  - intros k w0 data er w1 Hr. apply stream_Read_spec in Hr. tauto.
  - intros d w0. reflexivity.
  - rewrite Hs, Hp in *. cbn in *. subst wr.
    split; [now rewrite Hinp|].
    split; [destruct (sha256hash w') as [alg wr]; cbn in *; congruence|].
    split; [destruct (md5hash w') as [alg wr]; cbn in *; congruence|].
    assumption.
Qed.

End Pipeline.

(** Running one turn of the verify worker; the constructor of the
    Crypt4GH reader and [io.Copy] make no call. *)
Ltac run_verify_turn D env H :=
  unfold iteration in H;
  repeat (unfold Go.bind in H; cbn in H;
          match type of H with
          | context [GoIO.Copy ?fuel ?d ?s ?w] =>
              let E := fresh "Hcopy" in
              let F := fresh "Hcalls" in
              pose proof (verify_Copy_calls D (c4gh env) fuel w) as F;
              destruct (GoIO.Copy fuel d s w) as [[[? ?]|?] ?] eqn:E;
              cbn in F
          | context [Verify.run ?src ?c ?w] =>
              let E := fresh "Hrun" in
              let F := fresh "Hcalls" in
              pose proof (run_calls D c w) as F;
              destruct (Verify.run src c w) as [[[?|?]|?] ?] eqn:E;
              cbn in F
          | context [match ?x with _ => _ end] =>
              lazymatch x with
              | context [match _ with _ => _ end] => fail
              | _ => destruct x eqn:?
              end
          | context [if ?x then _ else _] =>
              lazymatch x with
              | context [if _ then _ else _] => fail
              | _ => destruct x eqn:?
              end
          end);
  cbn in H; inversion H; subst; clear H.

(** No turn of this worker resolves its delivery twice. *)
Lemma verify_resolves_at_most_once D fuel (env : Env D) delivered w r w' :
  iteration fuel env delivered w = (r, w') ->
  exists evs, calls w' = calls w ++ evs /\ resolutions evs <= 1.
Proof.
  intros H. run_verify_turn D env H; show_trace (@calls D); cbn; lia.
Qed.

(** C10: a verify-work message whose re_verify flag is set.  Its turn
    never calls MarkCompleted and never acknowledges; when the header
    is found and the archived file is opened (the turn goes on to the
    decrypting pass that computes checksums and size) it makes no call
    at all after the header lookup: nothing is published and the
    delivery is neither acknowledged nor negative-acknowledged. *)
Theorem reverify_has_no_effect :
  forall D fuel (env : Env D) delivered w r w',
    iteration fuel env delivered w = (r, w') ->
    let msg := json_Unmarshal env (Body delivered) zero_message in
    ReVerify msg = true ->
    exists evs,
      calls w' = calls w ++ evs
      /\ (forall file id, ~ In (MarkCompleted file id) evs)
      /\ count is_Ack evs = 0
      /\ (snd (GetHeader_ans (db env) (FileID msg)) = None ->
          snd (NewFileReader (backend env) (ArchivePath msg)) = None ->
          count is_publish evs = 0 /\ resolutions evs = 0).
Proof.
  intros D fuel env delivered w r w' H msg Hre. subst msg.
  unfold iteration in H. cbn in H. rewrite Hre in H.
  run_verify_turn D env H; show_trace (@calls D);
    (split; [intros file id; absent|]);
    (split; [reflexivity|]);
    intros Hh Hf; cbn;
    repeat match goal with
           | E : GetHeader_ans _ _ = _ |- _ => rewrite E in Hh; clear E
           | E : NewFileReader _ _ = _ |- _ => rewrite E in Hf; clear E
           end; cbn in *; try discriminate; auto.
Qed.

(** The turn of [Fixtures] for a message with the flag set. *)
Lemma reverify_has_no_effect_witness :
  exists evs,
    calls (snd (iteration 10 (Fixtures.Verification.env true true true)
                          Fixtures.delivered (fresh unit)))
    = calls (fresh unit) ++ evs
    /\ (forall file id, ~ In (MarkCompleted file id) evs)
    /\ count is_Ack evs = 0
    /\ (snd (GetHeader_ans (db (Fixtures.Verification.env true true true)) 7)
        = None ->
        snd (NewFileReader (backend (Fixtures.Verification.env true true true))
                           "alice/f.txt.c4gh") = None ->
        count is_publish evs = 0 /\ resolutions evs = 0).
Proof.
  apply (reverify_has_no_effect unit 10
           (Fixtures.Verification.env true true true) Fixtures.delivered
           (fresh unit) (Val tt)
           (snd (iteration 10 (Fixtures.Verification.env true true true)
                           Fixtures.delivered (fresh unit)))).
  - vm_compute. reflexivity.
  - reflexivity.
Defined.

(** C4: a turn of the verify worker that ends in the acknowledge, on an
    archived file that the backend opened as the stream [src].  With
    [plaintext] every byte that the Read of the Crypt4GH reader has
    returned and [archived] the bytes read from [src] (a prefix of it,
    each byte read once), the calls of the turn are exactly these:
    the two validations, the header lookup, MarkCompleted with the
    decrypted size [length plaintext] (as an int64), the SHA-256 state
    over [archived] as checksum and the SHA-256 state over [plaintext]
    as decrypted checksum, the publish of the verified message with the
    hexadecimal SHA-256 and MD5 digests of [plaintext], and the
    acknowledge. *)
Theorem verify_reports_digests_of_single_pass :
  forall D fuel (env : Env D) delivered w r w' src,
    iteration fuel env delivered w = (r, w') ->
    let msg := json_Unmarshal env (Body delivered) zero_message in
    NewFileReader (backend env) (ArchivePath msg) = (Some src, None) ->
    exists evs,
      calls w' = calls w ++ evs
      /\ (In (Ack false) evs ->
          exists src' archived,
            f w' = Some src'
            /\ Stream_bytes src = archived ++ Stream_bytes src'
            /\ let plaintext := produced w' in
               let file :=
                 {| Size := fst (GetFileSize (backend env) (ArchivePath msg));
                    DecryptedSize := int64 (Z.of_nat (length plaintext));
                    Checksum := {| hash_alg := SHA256;
                                   hash_written := archived |};
                    DecryptedChecksum := {| hash_alg := SHA256;
                                            hash_written := plaintext |} |} in
               let body :=
                 json_Marshal_verified env
                   {| verified_User := User msg;
                      verified_FilePath := FilePath msg;
                      verified_DecryptedChecksums :=
                        [ {| Type_ := "sha256";
                             Value := Sprintf_x
                                        (sha256_Sum (digests env) plaintext) |};
                          {| Type_ := "md5";
                             Value := Sprintf_x
                                        (md5_Sum (digests env) plaintext) |} ]
                   |} in
               evs = [ ValidateJSON "ingestion-verification" (Body delivered);
                       GetHeader (FileID msg);
                       ValidateJSON "ingestion-accession-request" body;
                       MarkCompleted file (FileID msg);
                       SendMessage (CorrelationId delivered)
                                   (Exchange (conf env)) (RoutingKey (conf env))
                                   (Durable (conf env)) body;
                       Ack false ]).
Proof.
  intros D fuel env delivered w r w' src H msg Hsrc. subst msg.
  unfold iteration in H. cbn in H. rewrite Hsrc in H.
  run_verify_turn D env H; show_trace (@calls D); try solve [absent].
  intros _.
  match goal with
  | E : Verify.run _ _ _ = (Val (inl _), ?w1) |- _ =>
      assert (Hpass : archive_pass D src w1);
        [ pose proof (run_keeps_pass D src
                        (NewCrypt4GHReader (c4gh env) (key env))) as HH;
          unfold keeps in HH; eapply HH; [|exact E];
          split; [reflexivity | exists src; split; reflexivity]
        | clear E ]
  end.
  match goal with
  | E : GoIO.Copy _ _ _ _ = (Val (_, None), _) |- _ =>
      apply verify_Copy_spec with (src := src) in E;
        [destruct E as (Hn & Hsha & Hmd5 & Hpass')
        | reflexivity | reflexivity | reflexivity | exact Hpass]
  end.
  destruct Hpass' as (Halg & src' & Hf & Hbytes).
  match goal with
  | |- context [archiveFileHash ?w3] =>
      exists src', (hash_written (archiveFileHash w3));
        split; [exact Hf|]; split; [exact Hbytes|];
        cbn; rewrite Hsha, Hmd5;
        destruct (archiveFileHash w3) as [alg wr]; cbn in *; subst alg
  end.
  subst. reflexivity.
Qed.

(** The turn of [Fixtures]: a header of four bytes and a body of three. *)
Lemma verify_reports_digests_of_single_pass_witness :
  let env := Fixtures.Verification.env false true true in
  let w' := snd (iteration 10 env Fixtures.delivered (fresh unit)) in
  let msg := Fixtures.Verification.work false in
  exists evs,
    calls w' = calls (fresh unit) ++ evs
    /\ (In (Ack false) evs ->
        exists src' archived,
          f w' = Some src'
          /\ Stream_bytes [(["a"; "b"; "c"]%byte, None)]
             = archived ++ Stream_bytes src'
          /\ let plaintext := produced w' in
             let file :=
               {| Size := 3;
                  DecryptedSize := int64 (Z.of_nat (length plaintext));
                  Checksum := {| hash_alg := SHA256;
                                 hash_written := archived |};
                  DecryptedChecksum := {| hash_alg := SHA256;
                                          hash_written := plaintext |} |} in
             let body :=
               json_Marshal_verified env
                 {| verified_User := User msg;
                    verified_FilePath := FilePath msg;
                    verified_DecryptedChecksums :=
                      [ {| Type_ := "sha256";
                           Value := Sprintf_x
                                      (sha256_Sum (digests env) plaintext) |};
                        {| Type_ := "md5";
                           Value := Sprintf_x
                                      (md5_Sum (digests env) plaintext) |} ]
                 |} in
             evs = [ ValidateJSON "ingestion-verification"
                                  (Body Fixtures.delivered);
                     GetHeader (FileID msg);
                     ValidateJSON "ingestion-accession-request" body;
                     MarkCompleted file (FileID msg);
                     SendMessage (CorrelationId Fixtures.delivered)
                                 (Exchange (conf env)) (RoutingKey (conf env))
                                 (Durable (conf env)) body;
                     Ack false ]).
Proof.
  intros env w' msg.
  apply (verify_reports_digests_of_single_pass unit 10 env
           Fixtures.delivered (fresh unit) (Val tt) w'
           [(["a"; "b"; "c"]%byte, None)]).
  - vm_compute. reflexivity.
  - reflexivity.
Defined.

(** C1 at the failing input: every step of the verify worker succeeds
    up to the publish of the verified message, which fails with
    "channel closed"; the error is logged and the turn acknowledges the
    delivery all the same. *)
Theorem verify_acks_after_failed_publish :
  let env := Fixtures.Verification.env false true false in
  exists w',
    iteration 10 env Fixtures.delivered (fresh unit) = (Val tt, w')
    /\ SendMessage_err (mq env) "corr-1" "sda" "completed" true
                       "{verified 03 61}"
       = Some (ErrorString "channel closed")
    /\ skipn 4 (calls w')
       = [ SendMessage "corr-1" "sda" "completed" true "{verified 03 61}";
           Ack false ].
Proof.
  eexists. split; [vm_compute; reflexivity|]. split; reflexivity.
Qed.

(** C6 at the failing input: MarkCompleted fails with "connection
    lost"; the turn of the verify worker ends there, with no
    negative-acknowledge (and no acknowledge, and no publish). *)
Theorem verify_persist_failure_not_requeued :
  let env := Fixtures.Verification.env false false true in
  exists w' file,
    iteration 10 env Fixtures.delivered (fresh unit) = (Val tt, w')
    /\ calls w'
       = [ ValidateJSON "ingestion-verification" "{...}";
           GetHeader 7;
           ValidateJSON "ingestion-accession-request" "{verified 03 61}";
           MarkCompleted file 7 ]
    /\ MarkCompleted_err (db env) file 7
       = Some (ErrorString "connection lost")
    /\ count is_Nack (calls w') = 0.
Proof.
  eexists. eexists. split; [vm_compute; reflexivity|].
  split; [reflexivity|]. split; reflexivity.
Qed.

End VerifyFacts.


(** ** All three worker loops *)

Module WorkerLoopFacts.
Import Go GoIO Storage Worker GoFacts.

(** C3 as stated, for the copy worker from the archive: every turn that
    ends resolves its delivery by exactly one acknowledge or
    negative-acknowledge. *)
Definition every_turn_resolves_once : Prop :=
  forall fuel env delivered w w' evs,
    SyncArchive.iteration fuel env delivered w = (Val tt, w') ->
    SyncArchive.calls w' = SyncArchive.calls w ++ evs ->
    resolutions evs = 1.

(** C3, as stated, fails: when the publish of the completion message
    fails, the copy worker from the archive ends its turn with the
    delivery neither acknowledged nor negative-acknowledged ("Restart
    loop, do not ack"). *)
Lemma failed_publish_leaves_delivery_unresolved :
  ~ every_turn_resolves_once.
Proof.
  intros Hclaim.
  specialize (Hclaim 10 (Fixtures.Archive.env false) Fixtures.delivered
                     Fixtures.Archive.start
                     (snd (SyncArchive.iteration
                             10 (Fixtures.Archive.env false)
                             Fixtures.delivered Fixtures.Archive.start))
                     [ValidateJSON "ingestion-accession" "{...}";
                      GetArchived "alice" "f.txt" "abc123";
                      SendMessage "corr-1" "sda" "completed" true "{...}"]
                     eq_refl eq_refl).
  vm_compute in Hclaim. discriminate.
Qed.

(** C3, amended: in each of the three worker loops a turn makes at most
    one acknowledge or negative-acknowledge call, so no delivery is
    resolved twice; and a turn of the copy worker from the archive
    that passes the validation and ends without a failed publish makes
    exactly one. *)
Theorem deliveries_resolved_at_most_once :
  (forall fuel env delivered w r w' evs,
      SyncArchive.iteration fuel env delivered w = (r, w') ->
      SyncArchive.calls w' = SyncArchive.calls w ++ evs ->
      resolutions evs <= 1
      /\ (r = Val tt ->
          ValidateJSON_err (SyncArchive.mq env) delivered
                           "ingestion-accession" (Body delivered) = None ->
          (forall c e k d b,
              In (SendMessage c e k d b) evs ->
              SendMessage_err (SyncArchive.mq env) c e k d b = None) ->
          resolutions evs = 1))
  /\ (forall fuel env delivered w r w' evs,
         SyncInbox.iteration fuel env delivered w = (r, w') ->
         SyncInbox.calls w' = SyncInbox.calls w ++ evs ->
         resolutions evs <= 1)
  /\ (forall D fuel (env : Verify.Env D) delivered w r w' evs,
         Verify.iteration fuel env delivered w = (r, w') ->
         Verify.calls w' = Verify.calls w ++ evs ->
         resolutions evs <= 1).
Proof.
  split; [|split].
  - intros fuel env delivered w r w' evs H Hevs. split.
    + destruct (SyncArchiveFacts.archive_resolves_at_most_once
                  fuel env delivered w r w' H) as (evs0 & H0 & Hle).
      rewrite H0 in Hevs. apply app_inv_head in Hevs. now subst.
    + intros -> Hval Hpub.
      destruct (SyncArchiveFacts.archive_resolves_once
                  fuel env delivered w w' H Hval) as (evs0 & H0 & Hone).
      rewrite H0 in Hevs. apply app_inv_head in Hevs. subst. auto.
  - intros fuel env delivered w r w' evs H Hevs.
    destruct (SyncInboxFacts.inbox_resolves_at_most_once
                fuel env delivered w r w' H) as (evs0 & H0 & Hle).
    rewrite H0 in Hevs. apply app_inv_head in Hevs. now subst.
  - intros D fuel env delivered w r w' evs H Hevs.
    destruct (VerifyFacts.verify_resolves_at_most_once
                D fuel env delivered w r w' H) as (evs0 & H0 & Hle).
    rewrite H0 in Hevs. apply app_inv_head in Hevs. now subst.
Qed.

(** The acknowledged turn of [Fixtures] in the copy worker from the
    archive. *)
Lemma deliveries_resolved_at_most_once_witness :
  let evs := [ValidateJSON "ingestion-accession" "{...}";
              GetArchived "alice" "f.txt" "abc123";
              SendMessage "corr-1" "sda" "completed" true "{...}";
              Ack false] in
  resolutions evs <= 1
  /\ (Val tt = Val tt ->
      ValidateJSON_err (SyncArchive.mq (Fixtures.Archive.env true))
                       Fixtures.delivered "ingestion-accession"
                       (Body Fixtures.delivered) = None ->
      (forall c e k d b,
          In (SendMessage c e k d b) evs ->
          SendMessage_err (SyncArchive.mq (Fixtures.Archive.env true))
                          c e k d b = None) ->
      resolutions evs = 1).
Proof.
  intros evs.
  apply (proj1 deliveries_resolved_at_most_once 10
           (Fixtures.Archive.env true) Fixtures.delivered
           Fixtures.Archive.start (Val tt)
           (snd (SyncArchive.iteration 10 (Fixtures.Archive.env true)
                                       Fixtures.delivered
                                       Fixtures.Archive.start))
           evs); reflexivity.
Defined.

End WorkerLoopFacts.


(** * Further properties of the code *)

(** ** [io.Copy] from a backend stream to a backend sink *)

Module StreamCopyFacts.
Import Go GoIO GoFacts.

Section StreamCopy.
Context {W : Type}.
(** The two variables [file] and [dest] of a copy worker. *)
Variables (file : W -> option Stream) (set_file : option Stream -> W -> W).
Variables (dest : W -> option Sink) (set_dest : option Sink -> W -> W).
Hypothesis file_set_file : forall x w, file (set_file x w) = x.
Hypothesis dest_set_file : forall x w, dest (set_file x w) = dest w.
Hypothesis file_set_dest : forall x w, file (set_dest x w) = file w.
Hypothesis dest_set_dest : forall x w, dest (set_dest x w) = x.

Variables (src : Reader W) (dst : Writer W).
Hypothesis src_reads :
  forall n w s,
    file w = Some s ->
    src n w = (Val (fst (Stream_Read s n)),
               set_file (Some (snd (Stream_Read s n))) w).
Hypothesis dst_writes :
  forall data w d,
    dest w = Some d ->
    dst data w = (Val (fst (Sink_Write d data)),
                  set_dest (Some (snd (Sink_Write d data))) w).

(** The state of the two ends after [moved] more bytes went over. *)
Definition transferred (s : Stream) (d : Sink) (moved : bytes) (w' : W)
  : Prop :=
  exists s' d',
    file w' = Some s' /\ dest w' = Some d'
    /\ Stream_bytes s = moved ++ Stream_bytes s'
    /\ sink_data d' = sink_data d ++ moved
    /\ sink_room d' = match sink_room d with
                      | Some room => Some (room - length moved)
                      | None => None
                      end.

Lemma transferred_nil w s d :
  file w = Some s -> dest w = Some d -> transferred s d [] w.
Proof.
  intros Hf Hd. exists s, d. repeat split; auto.
  - now rewrite app_nil_r.
  - destruct (sink_room d); simpl; [f_equal; lia | reflexivity].
Qed.

Lemma transferred_app s d m1 w1 s1 d1 m2 w2 :
  transferred s d m1 w1 -> file w1 = Some s1 -> dest w1 = Some d1 ->
  transferred s1 d1 m2 w2 -> transferred s d (m1 ++ m2) w2.
Proof.
  intros (s1' & d1' & Hf1 & Hd1 & Hb1 & Hk1 & Hr1) Hf Hd
         (s2 & d2 & Hf2 & Hd2 & Hb2 & Hk2 & Hr2).
  assert (s1' = s1) by congruence. assert (d1' = d1) by congruence.
  subst. exists s2, d2. repeat split; auto.
  - now rewrite Hb1, Hb2, app_assoc.
  - now rewrite Hk2, Hk1, app_assoc.
  - rewrite Hr2, Hr1. destruct (sink_room d); [|reflexivity].
    f_equal. rewrite length_app. lia.
Qed.

Lemma Stream_Read_splits s n :
  Stream_bytes s
  = fst (fst (Stream_Read s n)) ++ Stream_bytes (snd (Stream_Read s n)).
Proof.
  unfold Stream_Read, Stream_bytes. destruct s as [|[d e] t]; [reflexivity|].
  destruct (length d <=? n); simpl; [reflexivity|].
  now rewrite app_assoc, firstn_skipn.
Qed.

(** A write that returns a nil error and the full count has put all
    of [data] into the sink. *)
Lemma Sink_Write_full d data nw d1 :
  Sink_Write d data = ((nw, None), d1) ->
  nw = length data
  /\ sink_data d1 = sink_data d ++ data
  /\ sink_room d1 = match sink_room d with
                    | Some room => Some (room - length data)
                    | None => None
                    end.
Proof.
  unfold Sink_Write. destruct (sink_room d) as [room|].
  - destruct (length data <=? room); intros H; inversion H; subst; auto.
  - intros H; inversion H; subst; auto.
Qed.

(** With a nil error, [io.Copy] has written to the destination, in
    order, exactly the bytes it has read from the source, and it
    returns their count. *)
Lemma copy_loop_transfers fuel :
  forall written w n w' s d,
    file w = Some s -> dest w = Some d -> int64 written = written ->
    copy_loop fuel dst src written w = (Val (n, None), w') ->
    exists moved,
      transferred s d moved w'
      /\ n = int64 (written + Z.of_nat (length moved)).
Proof.
  induction fuel as [|fuel IH]; intros written w n w' s d Hf Hd Hwr H;
    [discriminate|].
  cbn [copy_loop] in H. unfold bind at 1 in H.
  rewrite (src_reads _ _ _ Hf) in H.
  pose proof (Stream_Read_splits s copy_buffer_size) as Hsplit.
  destruct (Stream_Read s copy_buffer_size) as [[data er] s1].
  cbn [fst snd] in *.
  set (w1 := set_file (Some s1) w) in *.
  assert (Hf1 : file w1 = Some s1) by apply file_set_file.
  assert (Hd1 : dest w1 = Some d)
    by (unfold w1; now rewrite dest_set_file).
  assert (Hafter : forall z w2 d2,
             file w2 = Some s1 -> dest w2 = Some d2 ->
             transferred s d data w2 ->
             z = int64 (written + Z.of_nat (length data)) ->
             match er with
             | Some e => ret (z, if is_EOF er then None else Some e)
             | None => copy_loop fuel dst src z
             end w2 = (Val (n, None), w') ->
             exists moved,
               transferred s d moved w'
               /\ n = int64 (written + Z.of_nat (length moved))).
  { intros z w2 d2 Hf2 Hd2 Htr Hz Hk. destruct er as [e|].
    - inversion Hk; subst. eauto.
    - assert (Hzz : int64 z = z) by (rewrite Hz; apply int64_idem).
      destruct (IH _ _ _ _ _ _ Hf2 Hd2 Hzz Hk) as (moved & Htr' & Hn).
      exists (data ++ moved). split.
      + eapply transferred_app; eauto.
      + rewrite Hn, Hz, int64_add_l, length_app. f_equal. lia. }
  destruct (0 <? length data) eqn:Hnr.
  - unfold bind at 1 in H. rewrite (dst_writes _ _ _ Hd1) in H.
    destruct (Sink_Write d data) as [[nw ew] d1] eqn:Hsink.
    cbn [fst snd] in H.
    destruct ew as [e|]; [discriminate|].
    apply Sink_Write_full in Hsink. destruct Hsink as (-> & Hk1 & Hr1).
    rewrite Nat.eqb_refl in H. cbn [negb] in H.
    eapply (Hafter _ _ d1); [| | |reflexivity|exact H].
    + now rewrite file_set_dest.
    + apply dest_set_dest.
    + exists s1, d1. rewrite file_set_dest, dest_set_dest. auto.
  - apply Nat.ltb_ge in Hnr.
    assert (data = []) by (destruct data; [reflexivity|simpl in Hnr; lia]).
    subst data.
    eapply (Hafter written w1 d); auto.
    + exists s1, d. repeat split; auto.
      * now rewrite app_nil_r.
      * destruct (sink_room d); simpl; [f_equal; lia | reflexivity].
    + simpl. now rewrite Z.add_0_r.
Qed.

(** The reads a stream has left, counting each answer and each of
    its bytes. *)
Definition reads_left (s : Stream) : nat :=
  fold_right (fun a acc => S (length (fst a)) + acc) 0 s.

Lemma Stream_Read_reads_left s n :
  0 < n -> s <> [] ->
  reads_left (snd (Stream_Read s n)) < reads_left s.
Proof.
  intros Hn Hs. destruct s as [|[d e] t]; [congruence|]. unfold Stream_Read.
  destruct (length d <=? n) eqn:Hle; simpl.
  - lia.
  - apply Nat.leb_gt in Hle. rewrite length_skipn. lia.
Qed.

(** With both ends open and more fuel than the source has reads left,
    [io.Copy] returns: it neither panics nor runs on. *)
Lemma copy_loop_answers fuel :
  forall written w s d,
    file w = Some s -> dest w = Some d -> reads_left s < fuel ->
    exists n err w',
      copy_loop fuel dst src written w = (Val (n, err), w')
      /\ file w' <> None /\ dest w' <> None.
Proof.
  induction fuel as [|fuel IH]; intros written w s d Hf Hd Hfuel; [lia|].
  cbn [copy_loop]. unfold bind at 1.
  rewrite (src_reads _ _ _ Hf).
  pose proof (Stream_Read_reads_left s copy_buffer_size) as Hless.
  destruct (Stream_Read s copy_buffer_size) as [[data er] s1] eqn:Hread.
  cbn [fst snd] in *.
  set (w1 := set_file (Some s1) w) in *.
  assert (Hf1 : file w1 = Some s1) by apply file_set_file.
  assert (Hd1 : dest w1 = Some d)
    by (unfold w1; now rewrite dest_set_file).
  assert (Hafter : forall z w2 d2,
             file w2 = Some s1 -> dest w2 = Some d2 ->
             exists n err w',
               match er with
               | Some e => ret (z, if is_EOF er then None else Some e)
               | None => copy_loop fuel dst src z
               end w2 = (Val (n, err), w')
               /\ file w' <> None /\ dest w' <> None).
  { intros z w2 d2 Hf2 Hd2. destruct er as [e|].
    - do 3 eexists. split; [reflexivity|]. split; congruence.
    - apply (IH z w2 s1 d2); auto.
      destruct s as [|a t]; [inversion Hread|].
      assert (reads_left s1 < reads_left (a :: t));
        [apply Hless; [unfold copy_buffer_size; lia | discriminate] | lia]. }
  destruct (0 <? length data).
  - unfold bind at 1. rewrite (dst_writes _ _ _ Hd1).
    destruct (Sink_Write d data) as [[nw ew] d1]. cbn [fst snd].
    assert (Hf2 : file (set_dest (Some d1) w1) = Some s1)
      by (now rewrite file_set_dest).
    assert (Hd2 : dest (set_dest (Some d1) w1) = Some d1)
      by apply dest_set_dest.
    destruct ew as [e|];
      [do 3 eexists; split; [reflexivity|]; split; congruence|].
    destruct (negb (length data =? nw));
      [do 3 eexists; split; [reflexivity|]; split; congruence|].
    apply (Hafter _ _ d1); auto.
  - apply (Hafter _ _ d); auto.
Qed.

(** A source that answers no error before its end, a sink that
    never fails: [io.Copy] moves every byte and returns their count
    with a nil error. *)
Lemma copy_loop_moves_all fuel :
  forall written w s d,
    file w = Some s -> dest w = Some d ->
    Forall (fun a => snd a = None) s -> sink_room d = None ->
    reads_left s < fuel -> int64 written = written ->
    exists w',
      copy_loop fuel dst src written w
      = (Val (int64 (written + Z.of_nat (length (Stream_bytes s))), None), w')
      /\ transferred s d (Stream_bytes s) w'
      /\ file w' = Some [].
Proof.
  induction fuel as [|fuel IH];
    intros written w s d Hf Hd Hclean Hroom Hfuel Hwr; [lia|].
  cbn [copy_loop]. unfold bind at 1. rewrite (src_reads _ _ _ Hf).
  pose proof (Stream_Read_reads_left s copy_buffer_size) as Hless.
  pose proof (Stream_Read_splits s copy_buffer_size) as Hsplit.
  destruct s as [|[chunk e] t].
  { cbn. eexists. split; [now rewrite Z.add_0_r, Hwr|].
    split; [|apply file_set_file].
    exists [], d. rewrite file_set_file, dest_set_file.
    repeat split; auto.
    - now rewrite app_nil_r.
    - now rewrite Hroom. }
  assert (e = None) by (inversion Hclean; assumption). subst e.
  assert (Hstep :
    exists data s1,
      Stream_Read ((chunk, None) :: t) copy_buffer_size = ((data, None), s1)
      /\ Forall (fun a => snd a = None) s1).
  { inversion Hclean; subst. unfold Stream_Read.
    destruct (length chunk <=? copy_buffer_size);
      do 2 eexists; split; try reflexivity; auto. }
  destruct Hstep as (data & s1 & Hread & Hclean1).
  rewrite Hread in *. cbn [fst snd] in *.
  assert (Hlt : reads_left s1 < fuel).
  { assert (reads_left s1 < reads_left ((chunk, None) :: t));
      [apply Hless; [unfold copy_buffer_size; lia | discriminate] | lia]. }
  set (w1 := set_file (Some s1) w) in *.
  assert (Hf1 : file w1 = Some s1) by apply file_set_file.
  assert (Hd1 : dest w1 = Some d)
    by (unfold w1; now rewrite dest_set_file).
  destruct (0 <? length data) eqn:Hnr.
  - unfold bind at 1. rewrite (dst_writes _ _ _ Hd1).
    set (d1 := {| sink_data := sink_data d ++ data;
                  sink_room := None; sink_err := sink_err d |}).
    assert (Hsink : Sink_Write d data = ((length data, None), d1))
      by (unfold Sink_Write; now rewrite Hroom).
    rewrite Hsink. cbn [fst snd].
    rewrite Nat.eqb_refl. cbn [negb].
    destruct (IH (int64 (written + Z.of_nat (length data)))
                 (set_dest (Some d1) w1) s1 d1)
      as (w' & Heq & Htr & Hend); auto.
    + now rewrite file_set_dest.
    + apply int64_idem.
    + exists w'. split; [|split; [|assumption]].
      * rewrite Heq. f_equal. f_equal. rewrite int64_add_l.
        f_equal. f_equal. rewrite Hsplit, length_app. lia.
      * rewrite Hsplit.
        apply (transferred_app _ _ data (set_dest (Some d1) w1) s1 d1
                 (Stream_bytes s1) w'); [| | |exact Htr].
        -- exists s1, d1. rewrite file_set_dest, dest_set_dest.
           repeat split; auto. now rewrite Hroom.
        -- now rewrite file_set_dest.
        -- apply dest_set_dest.
  - apply Nat.ltb_ge in Hnr.
    assert (data = []) by (destruct data; [reflexivity|simpl in Hnr; lia]).
    subst data. cbn [app] in Hsplit.
    destruct (IH written w1 s1 d) as (w' & Heq & Htr & Hend); auto.
    exists w'. split; [|split; [|assumption]].
    + rewrite Heq, Hsplit. reflexivity.
    + rewrite Hsplit.
      destruct Htr as (s2 & d2 & H1 & H2 & H3 & H4 & H5).
      exists s2, d2. repeat split; auto. congruence.
Qed.

End StreamCopy.

End StreamCopyFacts.


(** ** The copy worker from the archive, turn by turn *)

Module SyncArchiveMore.
Import Go GoIO Storage Worker GoFacts StreamCopyFacts SyncArchive.

Local Arguments Copy : simpl never.

(** A backend answers a nil error together with a handle that is not
    nil. *)
Definition opens_or_fails {A} (r : option A * option error) : Prop :=
  snd r = None -> fst r <> None.

Lemma file_Read_reads n w s :
  file w = Some s ->
  file_Read n w = (Val (fst (Stream_Read s n)),
                   set_file (Some (snd (Stream_Read s n))) w).
Proof.
  intros H. unfold file_Read. rewrite H. now destruct (Stream_Read s n).
Qed.

Lemma dest_Write_writes data w d :
  dest w = Some d ->
  dest_Write data w = (Val (fst (Sink_Write d data)),
                       set_dest (Some (snd (Sink_Write d data))) w).
Proof.
  intros H. unfold dest_Write. rewrite H. now destruct (Sink_Write d data).
Qed.

(** The three calls of a turn that looks the file up and then gives
    the delivery back to the queue. *)
Definition requeued (env : Env) (delivered : Delivery) (w : World)
  : list Event :=
  let m := json_Unmarshal env (Body delivered) (message w) in
  [ ValidateJSON "ingestion-accession" (Body delivered);
    GetArchived (User m) (Filepath m) (extract_sha256 (DecryptedChecksums m));
    Nack false true ].

(** X1. When the lookup of the archived file fails, the turn makes one
    negative-acknowledge with requeue, publishes nothing, acknowledges
    nothing and opens no file. *)
Theorem archive_lookup_failure_requeues :
  forall fuel env delivered w found e,
    ValidateJSON_err (mq env) delivered "ingestion-accession" (Body delivered)
    = None ->
    let m := json_Unmarshal env (Body delivered) (message w) in
    GetArchived_ans (db env) (User m) (Filepath m)
                    (extract_sha256 (DecryptedChecksums m))
    = (found, Some e) ->
    exists w',
      iteration fuel env delivered w = (Val tt, w')
      /\ calls w' = calls w ++ requeued env delivered w
      /\ file w' = file w /\ dest w' = dest w.
Proof.
  intros fuel env delivered w found e Hval m Hget. subst m.
  unfold iteration, bind. cbn. rewrite Hval. cbn. rewrite Hget.
  destruct found as [filePath fileSize]. cbn.
  eexists. split; [reflexivity|]. cbn. rewrite <- !app_assoc. auto.
Qed.

(** X2. When the archived file cannot be opened for reading, or the backup
    file for writing, the turn makes one negative-acknowledge with
    requeue and publishes and acknowledges nothing. *)
Theorem archive_open_failure_requeues :
  forall fuel env delivered w filePath fileSize,
    ValidateJSON_err (mq env) delivered "ingestion-accession" (Body delivered)
    = None ->
    let m := json_Unmarshal env (Body delivered) (message w) in
    GetArchived_ans (db env) (User m) (Filepath m)
                    (extract_sha256 (DecryptedChecksums m))
    = (filePath, fileSize, None) ->
    snd (NewFileReader (archive env) filePath) <> None
    \/ snd (NewFileWriter (backup env) filePath) <> None ->
    exists w',
      iteration fuel env delivered w = (Val tt, w')
      /\ calls w' = calls w ++ requeued env delivered w.
Proof.
  intros fuel env delivered w filePath fileSize Hval m Hget Hopen. subst m.
  unfold iteration, bind. cbn. rewrite Hval. cbn. rewrite Hget. cbn.
  destruct (NewFileReader (archive env) filePath) as [src [e|]]; cbn.
  - eexists. split; [reflexivity|]. cbn. now rewrite <- !app_assoc.
  - destruct (NewFileWriter (backup env) filePath) as [dst [e|]]; cbn.
    + eexists. split; [reflexivity|]. cbn. now rewrite <- !app_assoc.
    + cbn in Hopen. destruct Hopen; congruence.
Qed.

(** X3. The whole of an archived file of the recorded size is copied: the
    source answers [fileSize] bytes without error, the destination
    takes them all and the publish succeeds.  Then the turn publishes
    one message, whose body is the body of the delivery itself and
    whose correlation id is that of the delivery, acknowledges once and
    never negative-acknowledges; the destination holds the bytes of the
    source. *)
Theorem archive_complete_copy_published_and_acked :
  forall fuel env delivered w filePath fileSize src dst,
    ValidateJSON_err (mq env) delivered "ingestion-accession" (Body delivered)
    = None ->
    let m := json_Unmarshal env (Body delivered) (message w) in
    GetArchived_ans (db env) (User m) (Filepath m)
                    (extract_sha256 (DecryptedChecksums m))
    = (filePath, fileSize, None) ->
    NewFileReader (archive env) filePath = (Some src, None) ->
    NewFileWriter (backup env) filePath = (Some dst, None) ->
    Forall (fun a => snd a = None) src ->
    sink_room dst = None ->
    fileSize = Z.of_nat (length (Stream_bytes src)) ->
    (fileSize < 2 ^ 63)%Z ->
    SendMessage_err (mq env) (CorrelationId delivered) (Exchange (conf env))
                    (RoutingKey (conf env)) (Durable (conf env))
                    (Body delivered) = None ->
    reads_left src < fuel ->
    exists w' dst',
      iteration fuel env delivered w = (Val tt, w')
      /\ calls w'
         = calls w
           ++ [ ValidateJSON "ingestion-accession" (Body delivered);
                GetArchived (User m) (Filepath m)
                            (extract_sha256 (DecryptedChecksums m));
                SendMessage (CorrelationId delivered) (Exchange (conf env))
                            (RoutingKey (conf env)) (Durable (conf env))
                            (Body delivered);
                Ack false ]
      /\ dest w' = Some dst'
      /\ sink_data dst' = sink_data dst ++ Stream_bytes src.
Proof.
  intros fuel env delivered w filePath fileSize src dst Hval m Hget Hsrc Hdst
         Hclean Hroom Hsize Hbound Hpub Hfuel.
  subst m. unfold iteration, bind. cbn.
  rewrite Hval. cbn. rewrite Hget. cbn. rewrite Hsrc. cbn. rewrite Hdst. cbn.
  match goal with
  | |- context [Copy fuel dest_Write file_Read ?w0] =>
      destruct (copy_loop_moves_all file set_file dest set_dest
                  ltac:(reflexivity) ltac:(reflexivity) ltac:(reflexivity)
                  ltac:(reflexivity) file_Read dest_Write
                  file_Read_reads dest_Write_writes
                  fuel 0%Z w0 src dst eq_refl eq_refl Hclean Hroom Hfuel
                  eq_refl)
        as (w1 & Hcopy & (s' & d' & Hf' & Hd' & _ & Hdata & _) & _);
      pose proof (SyncArchiveFacts.Copy_calls fuel w0) as Hcalls;
      unfold Copy; unfold Copy in Hcalls; rewrite Hcopy in Hcalls |- *
  end.
  cbn in Hcalls |- *.
  rewrite <- Hsize, !int64_small by lia.
  rewrite Z.eqb_refl. cbn. rewrite Hpub. cbn.
  eexists _, d'. split; [reflexivity|]. cbn.
  rewrite Hcalls, <- !app_assoc. auto.
Qed.

(** X4. A turn that acknowledges has written to the destination, in order,
    exactly the bytes it has read from the source: the destination
    holds a prefix of the archived stream. *)
Theorem archive_ack_means_faithful_copy :
  forall fuel env delivered w r w' filePath fileSize src dst,
    iteration fuel env delivered w = (r, w') ->
    let m := json_Unmarshal env (Body delivered) (message w) in
    GetArchived_ans (db env) (User m) (Filepath m)
                    (extract_sha256 (DecryptedChecksums m))
    = (filePath, fileSize, None) ->
    NewFileReader (archive env) filePath = (Some src, None) ->
    NewFileWriter (backup env) filePath = (Some dst, None) ->
    exists evs,
      calls w' = calls w ++ evs
      /\ (In (Ack false) evs ->
          exists src' dst' moved,
            file w' = Some src' /\ dest w' = Some dst'
            /\ Stream_bytes src = moved ++ Stream_bytes src'
            /\ sink_data dst' = sink_data dst ++ moved).
Proof.
  intros fuel env delivered w r w' filePath fileSize src dst H m Hget Hsrc
         Hdst.
  subst m. unfold iteration in H. unfold bind in H. cbn in H.
  destruct (ValidateJSON_err _ _ _ _); cbn in H.
  { inversion H; subst. cbn. eexists. split; [reflexivity|]. absent. }
  rewrite Hget in H. cbn in H. rewrite Hsrc in H. cbn in H.
  rewrite Hdst in H. cbn in H.
  match type of H with
  | context [Copy fuel dest_Write file_Read ?w0] =>
      pose proof (SyncArchiveFacts.Copy_calls fuel w0) as Hcalls;
      pose proof (copy_loop_transfers file set_file dest set_dest
                    ltac:(reflexivity) ltac:(reflexivity) ltac:(reflexivity)
                    ltac:(reflexivity) file_Read dest_Write
                    file_Read_reads dest_Write_writes fuel 0%Z w0) as Htr;
      unfold Copy in H, Hcalls;
      destruct (copy_loop fuel dest_Write file_Read 0%Z w0)
        as [[[n err]|a] w1]
  end; cbn in H, Hcalls.
  - specialize (Htr n w1 src dst eq_refl eq_refl eq_refl).
    destruct err as [e|]; cbn in H.
    + inversion H; subst. cbn. rewrite Hcalls, <- !app_assoc.
      eexists. split; [reflexivity|]. absent.
    + destruct (Htr eq_refl) as (moved & (s' & d' & Hf & Hd & Hb & Hk & _) & _).
      destruct (negb (n =? int64 fileSize)%Z); cbn in H.
      * inversion H; subst. cbn. rewrite Hcalls, <- !app_assoc.
        eexists. split; [reflexivity|]. absent.
      * destruct (SendMessage_err _ _ _ _ _ _); cbn in H;
          inversion H; subst; cbn; rewrite Hcalls, <- !app_assoc;
          (eexists; split; [reflexivity|]); [absent|].
        intros _. exists s', d', moved. auto.
  - inversion H; subst. rewrite Hcalls, <- !app_assoc.
    eexists. split; [reflexivity|]. absent.
Qed.

Definition is_ValidateJSON (e : Event) : bool :=
  match e with ValidateJSON _ _ => true | _ => false end.

(** Backends that keep to the interface, and fuel for every file they
    hold. *)
Definition well_behaved (fuel : nat) (env : Env) : Prop :=
  (forall p, opens_or_fails (NewFileReader (archive env) p))
  /\ (forall p, opens_or_fails (NewFileWriter (backup env) p))
  /\ (forall p s, fst (NewFileReader (archive env) p) = Some s ->
                  reads_left s < fuel).

(** With such backends a turn ends normally, whatever fails; its first
    call validates the body of its delivery and it validates nothing
    else. *)
Lemma archive_turn_ends_well fuel env delivered w :
  well_behaved fuel env ->
  exists w' evs,
    iteration fuel env delivered w = (Val tt, w')
    /\ calls w'
       = calls w ++ ValidateJSON "ingestion-accession" (Body delivered) :: evs
    /\ filter is_ValidateJSON evs = [].
Proof.
  intros (Hreader & Hwriter & Hfuel).
  unfold iteration, bind. cbn.
  destruct (ValidateJSON_err _ _ _ _); cbn.
  { do 2 eexists. split; [reflexivity|]. split; reflexivity. }
  destruct (GetArchived_ans _ _ _ _) as [[filePath fileSize] [e|]]; cbn.
  { do 2 eexists. split; [reflexivity|]. cbn. rewrite <- !app_assoc.
    split; reflexivity. }
  specialize (Hreader filePath). specialize (Hwriter filePath).
  specialize (Hfuel filePath). unfold opens_or_fails in *.
  destruct (NewFileReader (archive env) filePath) as [src [e|]]; cbn.
  { do 2 eexists. split; [reflexivity|]. cbn. rewrite <- !app_assoc.
    split; reflexivity. }
  destruct (NewFileWriter (backup env) filePath) as [dst [e|]]; cbn.
  { do 2 eexists. split; [reflexivity|]. cbn. rewrite <- !app_assoc.
    split; reflexivity. }
  cbn in *. destruct src as [src|]; [|now destruct Hreader].
  destruct dst as [dst|]; [|now destruct Hwriter].
  match goal with
  | |- context [Copy fuel dest_Write file_Read ?w0] =>
      destruct (copy_loop_answers file set_file dest set_dest
                  ltac:(reflexivity) ltac:(reflexivity) ltac:(reflexivity)
                  ltac:(reflexivity) file_Read dest_Write
                  file_Read_reads dest_Write_writes
                  fuel 0%Z w0 src dst eq_refl eq_refl (Hfuel src eq_refl))
        as (n & err & w1 & Hcopy & _);
      pose proof (SyncArchiveFacts.Copy_calls fuel w0) as Hcalls;
      unfold Copy; unfold Copy in Hcalls; rewrite Hcopy in Hcalls |- *
  end.
  cbn in Hcalls |- *.
  destruct (_ || _); cbn;
    [|destruct (SendMessage_err _ _ _ _ _ _); cbn];
    do 2 eexists; (split; [reflexivity|]); cbn;
    rewrite Hcalls, <- !app_assoc; split; reflexivity.
Qed.

(** X5. With backends that keep to the interface, the loop never stops
    short (no failure of validation, lookup, storage or publish crashes
    the process) and takes the deliveries in the order received: the
    validations it asks for are those of the bodies of the deliveries,
    one each, in order. *)
Theorem archive_loop_takes_every_delivery_in_order :
  forall fuel env,
    well_behaved fuel env ->
    forall messages w,
    exists w' evs,
      main_loop fuel env messages w = (Val tt, w')
      /\ calls w' = calls w ++ evs
      /\ filter is_ValidateJSON evs
         = map (fun d => ValidateJSON "ingestion-accession" (Body d)) messages.
Proof.
  intros fuel env Hwell messages.
  induction messages as [|delivered rest IH]; intros w.
  - exists w, []. cbn. rewrite app_nil_r. auto.
  - destruct (archive_turn_ends_well fuel env delivered w Hwell)
      as (w1 & evs1 & Hturn & Hcalls1 & Hnone).
    destruct (IH w1) as (w' & evs & Hloop & Hcalls & Hvals).
    exists w', (ValidateJSON "ingestion-accession" (Body delivered)
                 :: evs1 ++ evs).
    unfold main_loop in *. cbn [range]. unfold bind at 1. rewrite Hturn.
    split; [exact Hloop|]. split.
    + rewrite Hcalls, Hcalls1, <- app_assoc. reflexivity.
    + cbn. rewrite filter_app, Hnone, Hvals. reflexivity.
Qed.

(** *** Examples *)

Definition lost_file_db : DB :=
  {| GetArchived_ans := fun _ _ _ =>
       (EmptyString, 0%Z, Some (ErrorString "sql: no rows in result set"));
     GetHeader_ans := GetHeader_ans (Fixtures.database true);
     MarkReady_err := MarkReady_err (Fixtures.database true);
     MarkCompleted_err := MarkCompleted_err (Fixtures.database true) |}.

Definition env_lost_file : Env :=
  {| mq := Fixtures.broker true; db := lost_file_db;
     backup := Fixtures.storage; archive := Fixtures.storage;
     conf := Fixtures.broker_conf;
     json_Unmarshal := fun _ _ => Fixtures.Archive.alice |}.

Definition read_only_storage : Backend :=
  {| GetFileSize := GetFileSize Fixtures.storage;
     NewFileReader := NewFileReader Fixtures.storage;
     NewFileWriter := fun _ => (None, Some (ErrorString "read-only file system")) |}.

Definition env_read_only : Env :=
  {| mq := Fixtures.broker true; db := Fixtures.database true;
     backup := read_only_storage; archive := Fixtures.storage;
     conf := Fixtures.broker_conf;
     json_Unmarshal := fun _ _ => Fixtures.Archive.alice |}.

(** The lookup fails with "no rows". *)
Lemma archive_lookup_failure_requeues_witness :
  exists w',
    iteration 10 env_lost_file Fixtures.delivered Fixtures.Archive.start
    = (Val tt, w')
    /\ calls w'
       = calls Fixtures.Archive.start
         ++ requeued env_lost_file Fixtures.delivered Fixtures.Archive.start
    /\ file w' = file Fixtures.Archive.start
    /\ dest w' = dest Fixtures.Archive.start.
Proof.
  apply (archive_lookup_failure_requeues 10 env_lost_file Fixtures.delivered
           Fixtures.Archive.start (EmptyString, 0%Z)
           (ErrorString "sql: no rows in result set"));
    reflexivity.
Defined.

(** The backup is a read-only file system. *)
Lemma archive_open_failure_requeues_witness :
  exists w',
    iteration 10 env_read_only Fixtures.delivered Fixtures.Archive.start
    = (Val tt, w')
    /\ calls w'
       = calls Fixtures.Archive.start
         ++ requeued env_read_only Fixtures.delivered Fixtures.Archive.start.
Proof.
  apply (archive_open_failure_requeues 10 env_read_only Fixtures.delivered
           Fixtures.Archive.start "alice/f.txt.c4gh"%string 3%Z);
    try reflexivity.
  right. discriminate.
Defined.

(** The archived file of three bytes, of the recorded size 3. *)
Lemma archive_complete_copy_published_and_acked_witness :
  exists w' dst',
    iteration 10 (Fixtures.Archive.env true) Fixtures.delivered
              Fixtures.Archive.start = (Val tt, w')
    /\ calls w'
       = calls Fixtures.Archive.start
         ++ [ ValidateJSON "ingestion-accession" "{...}";
              GetArchived "alice" "f.txt" "abc123";
              SendMessage "corr-1" "sda" "completed" true "{...}";
              Ack false ]
    /\ dest w' = Some dst'
    /\ sink_data dst'
       = sink_data Fixtures.empty_sink
         ++ Stream_bytes [(["a"; "b"; "c"]%byte, None)].
Proof.
  apply (archive_complete_copy_published_and_acked
           10 (Fixtures.Archive.env true) Fixtures.delivered
           Fixtures.Archive.start "alice/f.txt.c4gh"%string 3%Z
           [(["a"; "b"; "c"]%byte, None)] Fixtures.empty_sink);
    try reflexivity.
  - repeat constructor.
  - cbn. lia.
Defined.

Lemma archive_ack_means_faithful_copy_witness :
  let w' := snd (iteration 10 (Fixtures.Archive.env true) Fixtures.delivered
                           Fixtures.Archive.start) in
  exists evs,
    calls w' = calls Fixtures.Archive.start ++ evs
    /\ (In (Ack false) evs ->
        exists src' dst' moved,
          file w' = Some src' /\ dest w' = Some dst'
          /\ Stream_bytes [(["a"; "b"; "c"]%byte, None)]
             = moved ++ Stream_bytes src'
          /\ sink_data dst' = sink_data Fixtures.empty_sink ++ moved).
Proof.
  intros w'.
  apply (archive_ack_means_faithful_copy
           10 (Fixtures.Archive.env true) Fixtures.delivered
           Fixtures.Archive.start (Val tt) w' "alice/f.txt.c4gh"%string 3%Z
           [(["a"; "b"; "c"]%byte, None)] Fixtures.empty_sink);
    reflexivity.
Defined.

(** Two deliveries, one after the other. *)
Lemma archive_loop_takes_every_delivery_in_order_witness :
  exists w' evs,
    main_loop 10 (Fixtures.Archive.env true)
              [Fixtures.delivered; Fixtures.delivered]
              Fixtures.Archive.start = (Val tt, w')
    /\ calls w' = calls Fixtures.Archive.start ++ evs
    /\ filter is_ValidateJSON evs
       = [ ValidateJSON "ingestion-accession" "{...}";
           ValidateJSON "ingestion-accession" "{...}" ].
Proof.
  apply (archive_loop_takes_every_delivery_in_order
           10 (Fixtures.Archive.env true)).
  split; [|split].
  - intros p _. discriminate.
  - intros p _. discriminate.
  - intros p s H. inversion H; subst. cbn. lia.
Defined.

End SyncArchiveMore.


(** ** The copy worker from the inbox, turn by turn *)

Module SyncInboxMore.
Import Go GoIO Storage Worker GoFacts StreamCopyFacts SyncInbox.

Local Arguments Copy : simpl never.
Local Arguments validateJSON : simpl never.

Lemma inbox_file_Read_reads n w s :
  file w = Some s ->
  file_Read n w = (Val (fst (Stream_Read s n)),
                   set_file (Some (snd (Stream_Read s n))) w).
Proof.
  intros H. unfold file_Read. rewrite H. now destruct (Stream_Read s n).
Qed.

Lemma inbox_dest_Write_writes data w d :
  dest w = Some d ->
  dest_Write data w = (Val (fst (Sink_Write d data)),
                       set_dest (Some (snd (Sink_Write d data))) w).
Proof.
  intros H. unfold dest_Write. rewrite H. now destruct (Sink_Write d data).
Qed.

(** [validateJSON] answers a valid result and a nil error. *)
Definition passes (env : Env) (body : string) : Prop :=
  exists res,
    validateJSON (lib env) (SchemasPath env) body = (Some res, None)
    /\ Valid res = true.

(** The body of a delivery decoded into [message], which still holds
    the message of the turn before; the completion message made of
    it. *)
Definition decoded (env : Env) (delivered : Delivery) (w : World) : sync :=
  json_Unmarshal (lib env) (Body delivered) (message w).

Definition completion (env : Env) (m : sync) : string :=
  json_Marshal (lib env)
    {| completed_User := User m;
       completed_Filepath := Filepath m;
       completed_AccessionID := AccessionID m;
       completed_DecryptedChecksums := DecryptedChecksums m |}.

(** Both validations of a turn pass. *)
Definition admitted (env : Env) (delivered : Delivery) (w : World) : Prop :=
  passes env (Body delivered)
  /\ passes env (completion env (decoded env delivered w)).

(** The world in which [io.Copy] runs: the message decoded, the two
    handles as the backends answered them. *)
Definition opened (env : Env) (delivered : Delivery) (w : World) : World :=
  let m := decoded env delivered w in
  set_dest (fst (NewFileWriter (backup env) (Filepath m)))
    (set_file (fst (NewFileReader (inbox env) (Filepath m)))
       (set_message m w)).

(** The turn up to the two validations. *)
Lemma inbox_admitted_turn fuel env delivered w :
  admitted env delivered w ->
  iteration fuel env delivered w
  = (let m := decoded env delivered w in
     let checksumSha256 := extract_sha256 (DecryptedChecksums m) in
     let completeMsg := completion env m in
     let '(file, err) := NewFileReader (inbox env) (Filepath m) in
     match err with
     | Some _ => ret tt
     | None =>
     _ <- modify (set_file file) ;;
     let '(dest, err) := NewFileWriter (backup env) (Filepath m) in
     match err with
     | Some _ => ret tt
     | None =>
     _ <- modify (set_dest dest) ;;
     '(_, err) <- Copy fuel dest_Write file_Read ;;
     match err with
     | Some _ => halt Fatal
     | None =>
     err <- call (MarkReady (AccessionID m) (User m) (Filepath m)
                            checksumSha256)
                 (MarkReady_err (db env) (AccessionID m) (User m)
                                (Filepath m) checksumSha256) ;;
     match err with
     | Some _ => call (Nack false true) tt
     | None =>
     _ <- call (SendMessage (CorrelationId delivered) (Exchange (conf env))
                            (RoutingKey (conf env)) (Durable (conf env))
                            completeMsg)
               (SendMessage_err (mq env) (CorrelationId delivered)
                                (Exchange (conf env)) (RoutingKey (conf env))
                                (Durable (conf env)) completeMsg) ;;
     call (Ack false) tt
     end end end end) (set_message (decoded env delivered w) w).
Proof.
  intros [(res1 & H1 & V1) (res2 & H2 & V2)].
  unfold completion, decoded in *.
  unfold iteration. rewrite H1. unfold checked at 1, res_Valid, bind at 1.
  cbn. rewrite V1. cbn. unfold bind at 1. cbn. unfold bind at 1. cbn.
  rewrite H2. unfold checked, res_Valid, bind at 1. cbn. rewrite V2. cbn.
  reflexivity.
Qed.

(** X6. An error of either validation dead-letters the delivery: the turn
    negative-acknowledges without requeue and then sends the text of
    the error to the error queue; it opens no file and goes on to the
    next delivery. *)
Theorem inbox_validation_error_dead_letters :
  forall fuel env delivered w res e,
    validateJSON (lib env) (SchemasPath env) (Body delivered) = (res, Some e)
    \/ (passes env (Body delivered)
        /\ validateJSON (lib env) (SchemasPath env)
                        (completion env (decoded env delivered w))
           = (res, Some e)) ->
    exists w',
      iteration fuel env delivered w = (Val tt, w')
      /\ calls w' = calls w ++ [Nack false false; SendJSONError (Error e)]
      /\ file w' = file w /\ dest w' = dest w.
Proof.
  intros fuel env delivered w res e [H|[(res1 & H1 & V1) H2]];
    unfold iteration.
  - rewrite H. cbn. eexists. split; [reflexivity|]. cbn.
    rewrite <- app_assoc. auto.
  - unfold completion, decoded in H2.
    rewrite H1. unfold checked at 1, res_Valid, bind at 1.
    cbn. rewrite V1. cbn. unfold bind at 1. cbn. unfold bind at 1. cbn.
    rewrite H2. cbn. eexists. split; [reflexivity|]. cbn.
    rewrite <- app_assoc. auto.
Qed.

(** X7. When the inbox file cannot be opened for reading, or the backup
    file for writing, the turn ends without a single call: the
    delivery is neither acknowledged nor negative-acknowledged, nothing
    is recorded and nothing is published. *)
Theorem inbox_open_failure_makes_no_call :
  forall fuel env delivered w,
    admitted env delivered w ->
    let m := decoded env delivered w in
    snd (NewFileReader (inbox env) (Filepath m)) <> None
    \/ snd (NewFileWriter (backup env) (Filepath m)) <> None ->
    exists w',
      iteration fuel env delivered w = (Val tt, w')
      /\ calls w' = calls w.
Proof.
  intros fuel env delivered w Hadm m Hopen. subst m.
  rewrite (inbox_admitted_turn fuel env delivered w Hadm). cbn zeta.
  destruct (NewFileReader (inbox env) _) as [src [e|]]; cbn.
  - eexists. split; reflexivity.
  - unfold bind. cbn.
    destruct (NewFileWriter (backup env) _) as [dst [e|]]; cbn.
    + eexists. split; reflexivity.
    + cbn in Hopen. destruct Hopen; congruence.
Qed.

(** X8. When [io.Copy] answers an error, the process exits: the loop takes
    no further delivery, and for this one it has made no call, so the
    delivery is neither acknowledged nor negative-acknowledged. *)
Theorem inbox_copy_error_ends_the_process :
  forall fuel env delivered rest w n e w1,
    admitted env delivered w ->
    let m := decoded env delivered w in
    snd (NewFileReader (inbox env) (Filepath m)) = None ->
    snd (NewFileWriter (backup env) (Filepath m)) = None ->
    Copy fuel dest_Write file_Read (opened env delivered w)
    = (Val (n, Some e), w1) ->
    main_loop fuel env (delivered :: rest) w = (Stop Fatal, w1)
    /\ calls w1 = calls w.
Proof.
  intros fuel env delivered rest w n e w1 Hadm m Hsrc Hdst Hcopy. subst m.
  pose proof (SyncInboxFacts.inbox_Copy_calls fuel
                (opened env delivered w)) as Hcalls.
  rewrite Hcopy in Hcalls. cbn in Hcalls.
  unfold main_loop. cbn [range]. unfold bind at 1.
  rewrite (inbox_admitted_turn fuel env delivered w Hadm). cbn zeta.
  unfold opened in Hcopy.
  destruct (NewFileReader (inbox env) _) as [src [e1|]];
    [discriminate Hsrc|].
  unfold bind at 1. cbn.
  destruct (NewFileWriter (backup env) _) as [dst [e2|]];
    [discriminate Hdst|].
  unfold bind at 1. cbn. unfold bind at 1. cbn in Hcopy. rewrite Hcopy.
  cbn. auto.
Qed.

(** X9. The whole of an inbox file is copied: the source answers its bytes
    without error, the destination takes them all and [MarkReady]
    succeeds.  Then the turn records the file as ready under the sha256
    of the message, publishes the completion message with the
    correlation id of the delivery and acknowledges once, whether the
    publish succeeds or not; the destination holds the bytes of the
    source. *)
Theorem inbox_complete_copy_recorded_published_acked :
  forall fuel env delivered w src dst,
    admitted env delivered w ->
    let m := decoded env delivered w in
    NewFileReader (inbox env) (Filepath m) = (Some src, None) ->
    NewFileWriter (backup env) (Filepath m) = (Some dst, None) ->
    Forall (fun a => snd a = None) src ->
    sink_room dst = None ->
    MarkReady_err (db env) (AccessionID m) (User m) (Filepath m)
                  (extract_sha256 (DecryptedChecksums m)) = None ->
    reads_left src < fuel ->
    exists w' dst',
      iteration fuel env delivered w = (Val tt, w')
      /\ calls w'
         = calls w
           ++ [ MarkReady (AccessionID m) (User m) (Filepath m)
                          (extract_sha256 (DecryptedChecksums m));
                SendMessage (CorrelationId delivered) (Exchange (conf env))
                            (RoutingKey (conf env)) (Durable (conf env))
                            (completion env m);
                Ack false ]
      /\ dest w' = Some dst'
      /\ sink_data dst' = sink_data dst ++ Stream_bytes src.
Proof.
  intros fuel env delivered w src dst Hadm m Hsrc Hdst Hclean Hroom Hready
         Hfuel.
  subst m.
  rewrite (inbox_admitted_turn fuel env delivered w Hadm). cbn zeta.
  rewrite Hsrc. unfold bind at 1. cbn. rewrite Hdst.
  unfold bind at 1. cbn. unfold bind at 1.
  match goal with
  | |- context [Copy fuel dest_Write file_Read ?w0] =>
      destruct (copy_loop_moves_all file set_file dest set_dest
                  ltac:(reflexivity) ltac:(reflexivity) ltac:(reflexivity)
                  ltac:(reflexivity) file_Read dest_Write
                  inbox_file_Read_reads inbox_dest_Write_writes
                  fuel 0%Z w0 src dst eq_refl eq_refl Hclean Hroom Hfuel
                  eq_refl)
        as (w1 & Hcopy & (s' & d' & Hf' & Hd' & _ & Hdata & _) & _);
      pose proof (SyncInboxFacts.inbox_Copy_calls fuel w0) as Hcalls;
      unfold Copy; unfold Copy in Hcalls; rewrite Hcopy in Hcalls |- *
  end.
  cbn in Hcalls |- *. unfold bind. cbn. rewrite Hready. cbn.
  eexists _, d'. split; [reflexivity|]. cbn.
  rewrite Hcalls, <- !app_assoc. auto.
Qed.

(** X10. A turn acknowledges only at the end of one course: it has recorded
    the file as ready, without error, then published the completion
    message, and these with the acknowledgement are all its calls. *)
Theorem inbox_ack_only_after_recorded :
  forall fuel env delivered w r w',
    iteration fuel env delivered w = (r, w') ->
    exists evs,
      calls w' = calls w ++ evs
      /\ (In (Ack false) evs ->
          let m := decoded env delivered w in
          let sha := extract_sha256 (DecryptedChecksums m) in
          evs = [ MarkReady (AccessionID m) (User m) (Filepath m) sha;
                  SendMessage (CorrelationId delivered) (Exchange (conf env))
                              (RoutingKey (conf env)) (Durable (conf env))
                              (completion env m);
                  Ack false ]
          /\ MarkReady_err (db env) (AccessionID m) (User m) (Filepath m)
                           sha = None).
Proof.
  intros fuel env delivered w r w' H.
  SyncInboxFacts.run_inbox_turn H; show_trace calls; try solve [absent];
    intros _; split; [reflexivity|assumption].
Qed.

(** *** Examples *)

(** A JSON library that cannot encode the completion message. *)
Definition json_no_encoding : JSON :=
  {| json_Unmarshal_map := fun body =>
       if String.eqb body "{...}" then (["type"; "user"]%string, None)
       else ([], Some (ErrorString "unexpected end of JSON input"));
     gojsonschema_Validate := fun _ _ =>
       (Some {| Valid := true; Errors := [] |}, None);
     json_Unmarshal := fun _ _ => Fixtures.Inbox.alice;
     json_Marshal := fun _ => EmptyString |}.

Definition env_no_encoding : Env :=
  {| mq := Fixtures.broker true; db := Fixtures.database true;
     backup := Fixtures.storage; inbox := Fixtures.storage;
     conf := Fixtures.broker_conf; SchemasPath := "/schemas/";
     lib := json_no_encoding |}.

Lemma inbox_validation_error_dead_letters_witness :
  exists w',
    iteration 10 env_no_encoding Fixtures.delivered Fixtures.Inbox.start
    = (Val tt, w')
    /\ calls w'
       = calls Fixtures.Inbox.start
         ++ [ Nack false false;
              SendJSONError "unexpected end of JSON input" ]
    /\ file w' = file Fixtures.Inbox.start
    /\ dest w' = dest Fixtures.Inbox.start.
Proof.
  apply (inbox_validation_error_dead_letters
           10 env_no_encoding Fixtures.delivered Fixtures.Inbox.start None
           (ErrorString "unexpected end of JSON input")).
  right. split; [|reflexivity].
  eexists. split; reflexivity.
Defined.

(** A backup that is a read-only file system. *)
Definition inbox_read_only_storage : Backend :=
  {| GetFileSize := GetFileSize Fixtures.storage;
     NewFileReader := NewFileReader Fixtures.storage;
     NewFileWriter := fun _ =>
       (None, Some (ErrorString "read-only file system")) |}.

Definition inbox_env_read_only : Env :=
  {| mq := Fixtures.broker true; db := Fixtures.database true;
     backup := inbox_read_only_storage; inbox := Fixtures.storage;
     conf := Fixtures.broker_conf; SchemasPath := "/schemas/";
     lib := Fixtures.Inbox.json true true |}.

Lemma inbox_open_failure_makes_no_call_witness :
  exists w',
    iteration 10 inbox_env_read_only Fixtures.delivered Fixtures.Inbox.start
    = (Val tt, w')
    /\ calls w' = calls Fixtures.Inbox.start.
Proof.
  apply (inbox_open_failure_makes_no_call
           10 inbox_env_read_only Fixtures.delivered Fixtures.Inbox.start).
  - split; eexists; split; reflexivity.
  - right. discriminate.
Defined.

(** An inbox whose file breaks off after one byte. *)
Definition broken_storage : Backend :=
  {| GetFileSize := GetFileSize Fixtures.storage;
     NewFileReader := fun _ =>
       (Some [(["a"]%byte, Some (ErrorString "connection reset by peer"))],
        None);
     NewFileWriter := NewFileWriter Fixtures.storage |}.

Definition env_broken_inbox : Env :=
  {| mq := Fixtures.broker true; db := Fixtures.database true;
     backup := Fixtures.storage; inbox := broken_storage;
     conf := Fixtures.broker_conf; SchemasPath := "/schemas/";
     lib := Fixtures.Inbox.json true true |}.

Definition after_broken_copy : World :=
  {| calls := []; message := Fixtures.Inbox.alice; file := Some [];
     dest := Some {| sink_data := ["a"]%byte; sink_room := None;
                     sink_err := ErrShortWrite |} |}.

Lemma inbox_copy_error_ends_the_process_witness :
  main_loop 10 env_broken_inbox [Fixtures.delivered; Fixtures.delivered]
            Fixtures.Inbox.start
  = (Stop Fatal, after_broken_copy)
  /\ calls after_broken_copy = calls Fixtures.Inbox.start.
Proof.
  apply (inbox_copy_error_ends_the_process
           10 env_broken_inbox Fixtures.delivered [Fixtures.delivered]
           Fixtures.Inbox.start 1%Z
           (ErrorString "connection reset by peer") after_broken_copy).
  - split; eexists; split; reflexivity.
  - reflexivity.
  - reflexivity.
  - vm_compute. reflexivity.
Defined.

(** The inbox file of three bytes; the publish fails. *)
Lemma inbox_complete_copy_recorded_published_acked_witness :
  exists w' dst',
    iteration 10 (Fixtures.Inbox.env true true true false)
              Fixtures.delivered Fixtures.Inbox.start = (Val tt, w')
    /\ calls w'
       = calls Fixtures.Inbox.start
         ++ [ MarkReady "EGAF001" "alice" "f.txt" "abc123";
              SendMessage "corr-1" "sda" "completed" true "{completed}";
              Ack false ]
    /\ dest w' = Some dst'
    /\ sink_data dst'
       = sink_data Fixtures.empty_sink
         ++ Stream_bytes [(["a"; "b"; "c"]%byte, None)].
Proof.
  apply (inbox_complete_copy_recorded_published_acked
           10 (Fixtures.Inbox.env true true true false) Fixtures.delivered
           Fixtures.Inbox.start [(["a"; "b"; "c"]%byte, None)]
           Fixtures.empty_sink);
    try reflexivity.
  - split; eexists; split; reflexivity.
  - repeat constructor.
  - cbn. lia.
Defined.

Lemma inbox_ack_only_after_recorded_witness :
  let w' := snd (iteration 10 (Fixtures.Inbox.env true true true true)
                           Fixtures.delivered Fixtures.Inbox.start) in
  exists evs,
    calls w' = calls Fixtures.Inbox.start ++ evs
    /\ (In (Ack false) evs ->
        evs = [ MarkReady "EGAF001" "alice" "f.txt" "abc123";
                SendMessage "corr-1" "sda" "completed" true "{completed}";
                Ack false ]
        /\ MarkReady_err (db (Fixtures.Inbox.env true true true true))
                         "EGAF001" "alice" "f.txt" "abc123" = None).
Proof.
  intros w'.
  apply (inbox_ack_only_after_recorded
           10 (Fixtures.Inbox.env true true true true) Fixtures.delivered
           Fixtures.Inbox.start (Val tt) w').
  reflexivity.
Defined.

End SyncInboxMore.


(** ** The verify worker, turn by turn *)

Module VerifyMore.
Import Go GoIO Storage Worker GoFacts Verify.

Local Arguments Copy : simpl never.
Local Arguments run : simpl never.
Local Arguments mr_Read : simpl never.
Local Arguments stream_Read : simpl never.

(** X11. When the header of the file cannot be fetched, the turn
    negative-acknowledges without requeue and then publishes the body
    of the delivery, as it came, under the error routing key; these
    are all its calls, it leaves the objects of the turn as they were
    and goes on to the next delivery, whether that publish succeeds or
    not. *)
Theorem verify_header_failure_dead_letters :
  forall D fuel (env : Env D) delivered w header e,
    ValidateJSON_err (mq env) delivered "ingestion-verification"
                     (Body delivered) = None ->
    let msg := json_Unmarshal env (Body delivered) zero_message in
    GetHeader_ans (db env) (FileID msg) = (header, Some e) ->
    iteration fuel env delivered w
    = (Val tt,
       set_calls
         (calls w
          ++ [ ValidateJSON "ingestion-verification" (Body delivered);
               GetHeader (FileID msg);
               Nack false false;
               SendMessage (CorrelationId delivered) (Exchange (conf env))
                           (RoutingError (conf env)) (Durable (conf env))
                           (Body delivered) ]) w).
Proof.
  intros D fuel env delivered w header e Hval msg Hget. subst msg.
  unfold iteration, bind. cbn. rewrite Hval. cbn. rewrite Hget. cbn.
  unfold set_calls. cbn. rewrite <- !app_assoc. reflexivity.
Qed.

(** X12. When the archived file cannot be opened, the turn publishes a file
    error under the error routing key, with the user and the path of
    the message and the text of the error as reason; the delivery is
    neither acknowledged nor negative-acknowledged. *)
Theorem verify_open_failure_reports_file_error :
  forall D fuel (env : Env D) delivered w header size reader e,
    ValidateJSON_err (mq env) delivered "ingestion-verification"
                     (Body delivered) = None ->
    let msg := json_Unmarshal env (Body delivered) zero_message in
    GetHeader_ans (db env) (FileID msg) = (header, None) ->
    GetFileSize (backend env) (ArchivePath msg) = (size, None) ->
    NewFileReader (backend env) (ArchivePath msg) = (reader, Some e) ->
    exists w',
      iteration fuel env delivered w = (Val tt, w')
      /\ calls w'
         = calls w
           ++ [ ValidateJSON "ingestion-verification" (Body delivered);
                GetHeader (FileID msg);
                SendMessage (CorrelationId delivered) (Exchange (conf env))
                            (RoutingError (conf env)) (Durable (conf env))
                            (json_Marshal_FileError env
                               {| FileError_User := User msg;
                                  FileError_FilePath := FilePath msg;
                                  Reason := Error e |}) ].
Proof.
  intros D fuel env delivered w header size reader e Hval msg Hget Hsize
         Hopen.
  subst msg.
  unfold iteration, bind. cbn. rewrite Hval. cbn. rewrite Hget. cbn.
  rewrite Hsize. cbn. rewrite Hopen. cbn.
  eexists. split; [reflexivity|]. cbn. rewrite <- !app_assoc. reflexivity.
Qed.

(** X13. Once the header is found, every failure but that of opening the
    file is silent: a turn that does not end in the acknowledge (the
    size is not to be had, the decrypting reader cannot be made, the
    stream breaks, the verified message is not valid, [MarkCompleted]
    fails, or the message asks for a re-verification) publishes
    nothing and neither acknowledges nor negative-acknowledges. *)
Theorem verify_failures_past_lookup_are_silent :
  forall D fuel (env : Env D) delivered w r w',
    iteration fuel env delivered w = (r, w') ->
    let msg := json_Unmarshal env (Body delivered) zero_message in
    snd (GetHeader_ans (db env) (FileID msg)) = None ->
    snd (GetFileSize (backend env) (ArchivePath msg)) <> None
    \/ snd (NewFileReader (backend env) (ArchivePath msg)) = None ->
    exists evs,
      calls w' = calls w ++ evs
      /\ (In (Ack false) evs
          \/ (count is_publish evs = 0 /\ resolutions evs = 0)).
Proof.
  intros D fuel env delivered w r w' H msg Hh Hopen. subst msg.
  VerifyFacts.run_verify_turn D env H; show_trace (@calls D); cbn;
    repeat match goal with
           | E : GetHeader_ans _ _ = _ |- _ => rewrite E in Hh; clear E
           | E : GetFileSize _ _ = _ |- _ => rewrite E in Hopen; clear E
           | E : NewFileReader _ _ = _ |- _ => rewrite E in Hopen; clear E
           end; cbn in *; try discriminate;
    try (right; split; reflexivity);
    try (left; tauto);
    destruct Hopen; congruence.
Qed.

(** X14. A turn acknowledges only when every step before has succeeded: the
    message does not ask for a re-verification, the header and the
    size were found, the verified message was valid and
    [MarkCompleted] has recorded the file without error. *)
Theorem verify_ack_only_after_completed :
  forall D fuel (env : Env D) delivered w r w',
    iteration fuel env delivered w = (r, w') ->
    exists evs,
      calls w' = calls w ++ evs
      /\ (In (Ack false) evs ->
          let msg := json_Unmarshal env (Body delivered) zero_message in
          ReVerify msg = false
          /\ snd (GetHeader_ans (db env) (FileID msg)) = None
          /\ snd (GetFileSize (backend env) (ArchivePath msg)) = None
          /\ exists file body,
               In (ValidateJSON "ingestion-accession-request" body) evs
               /\ ValidateJSON_err (mq env) delivered
                                   "ingestion-accession-request" body = None
               /\ In (MarkCompleted file (FileID msg)) evs
               /\ MarkCompleted_err (db env) file (FileID msg) = None).
Proof.
  intros D fuel env delivered w r w' H.
  VerifyFacts.run_verify_turn D env H; show_trace (@calls D);
    try solve [absent].
  intros _.
  repeat match goal with
         | E : negb _ = true |- _ => apply negb_true_iff in E
         | E : GetHeader_ans _ _ = _ |- _ => rewrite E; clear E
         | E : GetFileSize _ _ = _ |- _ => rewrite E; clear E
         end.
  split; [assumption|]. split; [reflexivity|]. split; [reflexivity|].
  do 2 eexists.
  split; [right; right; left; reflexivity|].
  split; [eassumption|].
  split; [right; right; right; left; reflexivity|].
  assumption.
Qed.

(** X15. The worker never gives a delivery back to the queue: its only
    negative-acknowledge is without requeue, and it follows a failed
    lookup of the header. *)
Theorem verify_never_requeues :
  forall D fuel (env : Env D) delivered w r w',
    iteration fuel env delivered w = (r, w') ->
    exists evs,
      calls w' = calls w ++ evs
      /\ forall multiple requeue,
           In (Nack multiple requeue) evs ->
           let msg := json_Unmarshal env (Body delivered) zero_message in
           requeue = false
           /\ snd (GetHeader_ans (db env) (FileID msg)) <> None.
Proof.
  intros D fuel env delivered w r w' H.
  VerifyFacts.run_verify_turn D env H; show_trace (@calls D);
    intros multiple requeue Hin; cbn in Hin;
    repeat (destruct Hin as [Hin|Hin]; [try discriminate Hin|]);
    try contradiction.
  inversion Hin; subst.
  match goal with
  | E : GetHeader_ans _ _ = _ |- _ => cbn; rewrite E
  end.
  split; [reflexivity|discriminate].
Qed.

(** *** Examples *)

(** A database that has lost the header of the file. *)
Definition no_header_db : DB :=
  {| GetArchived_ans := GetArchived_ans (Fixtures.database true);
     GetHeader_ans := fun _ =>
       ([], Some (ErrorString "sql: no rows in result set"));
     MarkReady_err := MarkReady_err (Fixtures.database true);
     MarkCompleted_err := MarkCompleted_err (Fixtures.database true) |}.

(** A backend that finds the file and cannot open it. *)
Definition locked_storage : Backend :=
  {| GetFileSize := GetFileSize Fixtures.storage;
     NewFileReader := fun _ => (None, Some (ErrorString "permission denied"));
     NewFileWriter := NewFileWriter Fixtures.storage |}.

Definition env_with (database : DB) (store : Backend) : Env unit :=
  {| mq := Fixtures.broker false; db := database;
     backend := store; conf := Fixtures.broker_conf; key := [];
     c4gh := Fixtures.Verification.passthrough;
     digests := Fixtures.Verification.toy_digests;
     json_Unmarshal := fun _ _ => Fixtures.Verification.work false;
     json_Marshal_verified :=
       json_Marshal_verified (Fixtures.Verification.env false true true);
     json_Marshal_FileError := fun e => Reason e |}.

(** The header is lost, and the broker's channel is closed as well. *)
Lemma verify_header_failure_dead_letters_witness :
  iteration 10 (env_with no_header_db Fixtures.storage) Fixtures.delivered
            (fresh unit)
  = (Val tt,
     set_calls
       (calls (fresh unit)
        ++ [ ValidateJSON "ingestion-verification" "{...}";
             GetHeader 7;
             Nack false false;
             SendMessage "corr-1" "sda" "error" true "{...}" ])
       (fresh unit)).
Proof.
  apply (verify_header_failure_dead_letters
           unit 10 (env_with no_header_db Fixtures.storage)
           Fixtures.delivered (fresh unit) []
           (ErrorString "sql: no rows in result set"));
    reflexivity.
Defined.

Lemma verify_open_failure_reports_file_error_witness :
  exists w',
    iteration 10 (env_with (Fixtures.database true) locked_storage)
              Fixtures.delivered (fresh unit) = (Val tt, w')
    /\ calls w'
       = calls (fresh unit)
         ++ [ ValidateJSON "ingestion-verification" "{...}";
              GetHeader 7;
              SendMessage "corr-1" "sda" "error" true "permission denied" ].
Proof.
  apply (verify_open_failure_reports_file_error
           unit 10 (env_with (Fixtures.database true) locked_storage)
           Fixtures.delivered (fresh unit)
           ["h"; "d"; "r"; "!"]%byte 3%Z None
           (ErrorString "permission denied"));
    reflexivity.
Defined.

(** [MarkCompleted] fails with "connection lost". *)
Lemma verify_failures_past_lookup_are_silent_witness :
  let env := Fixtures.Verification.env false false true in
  let w' := snd (iteration 10 env Fixtures.delivered (fresh unit)) in
  exists evs,
    calls w' = calls (fresh unit) ++ evs
    /\ (In (Ack false) evs
        \/ (count is_publish evs = 0 /\ resolutions evs = 0)).
Proof.
  intros env w'.
  apply (verify_failures_past_lookup_are_silent
           unit 10 env Fixtures.delivered (fresh unit) (Val tt) w').
  - vm_compute. reflexivity.
  - reflexivity.
  - right. reflexivity.
Defined.

Lemma verify_ack_only_after_completed_witness :
  let env := Fixtures.Verification.env false true true in
  let w' := snd (iteration 10 env Fixtures.delivered (fresh unit)) in
  exists evs,
    calls w' = calls (fresh unit) ++ evs
    /\ (In (Ack false) evs ->
        ReVerify (Fixtures.Verification.work false) = false
        /\ snd (GetHeader_ans (db env) 7) = None
        /\ snd (GetFileSize (backend env) "alice/f.txt.c4gh") = None
        /\ exists file body,
             In (ValidateJSON "ingestion-accession-request" body) evs
             /\ ValidateJSON_err (mq env) Fixtures.delivered
                                 "ingestion-accession-request" body = None
             /\ In (MarkCompleted file 7) evs
             /\ MarkCompleted_err (db env) file 7 = None).
Proof.
  intros env w'.
  apply (verify_ack_only_after_completed
           unit 10 env Fixtures.delivered (fresh unit) (Val tt) w').
  vm_compute. reflexivity.
Defined.

Lemma verify_never_requeues_witness :
  let env := env_with no_header_db Fixtures.storage in
  let w' := snd (iteration 10 env Fixtures.delivered (fresh unit)) in
  exists evs,
    calls w' = calls (fresh unit) ++ evs
    /\ forall multiple requeue,
         In (Nack multiple requeue) evs ->
         requeue = false /\ snd (GetHeader_ans (db env) 7) <> None.
Proof.
  intros env w'.
  apply (verify_never_requeues
           unit 10 env Fixtures.delivered (fresh unit) (Val tt) w').
  vm_compute. reflexivity.
Defined.

End VerifyMore.


(** ** The storage backends under the workers *)

Module StorageMore.
Import Go GoIO Storage Worker GoFacts.

Local Arguments Copy : simpl never.

(** The answer of an open call with exactly one of a handle and an
    error. *)
Definition handle_xor_error {A} (r : option A * option error) : Prop :=
  (fst r <> None /\ snd r = None) \/ (fst r = None /\ snd r <> None).

(** X16. Whatever the operating system answers, the POSIX backend hands out
    a handle or an error and never both or neither, and the size it
    reports with an error is zero. *)
Theorem posix_backend_handle_or_error :
  forall os pb filePath,
    handle_xor_error (PosixBackend_NewFileReader os pb filePath)
    /\ handle_xor_error (PosixBackend_NewFileWriter os pb filePath)
    /\ (snd (PosixBackend_GetFileSize os pb filePath) <> None ->
        fst (PosixBackend_GetFileSize os pb filePath) = 0%Z).
Proof.
  intros os pb filePath.
  unfold PosixBackend_NewFileReader, PosixBackend_NewFileWriter,
    PosixBackend_GetFileSize, handle_xor_error.
  destruct (os_Open os _), (os_OpenFile os _ _ _), (os_Stat os _); cbn;
    repeat split; try (left; split; congruence);
    try (right; split; congruence); congruence.
Qed.

(** X17. The S3 backend never reports a failure to open: the reader and the
    writer both come with a nil error, whatever the client answers, and
    the reader is nil exactly when the body of the response is.  Of its
    three methods only [GetFileSize] hands on the error of its request,
    with the size zero. *)
Theorem S3_backend_reports_no_open_failure :
  forall sb filePath,
    snd (S3Backend_NewFileReader sb filePath) = None
    /\ fst (S3Backend_NewFileReader sb filePath)
       = Storage.Body (fst (GetObject (Client sb) (Bucket sb) filePath))
    /\ snd (S3Backend_NewFileWriter sb filePath) = None
    /\ fst (S3Backend_NewFileWriter sb filePath) <> None
    /\ (snd (HeadObject (Client sb) (Bucket sb) filePath) <> None ->
        S3Backend_GetFileSize sb filePath
        = (0%Z, snd (HeadObject (Client sb) (Bucket sb) filePath))).
Proof.
  intros sb filePath.
  unfold S3Backend_NewFileReader, S3Backend_NewFileWriter,
    S3Backend_GetFileSize.
  destruct (GetObject _ _ _) as [out e].
  destruct (HeadObject _ _ _) as [head [e'|]]; cbn;
    repeat split; try discriminate; congruence.
Qed.

(** X18. The copy worker from the archive over an S3 archive that does not
    answer the object: the request for the object fails or comes with
    no body.  The backend reports no error, so the turn does not give
    the delivery back to the queue; the copy runs on a nil reader and
    the process goes down in a panic, the delivery neither
    acknowledged nor negative-acknowledged and the deliveries behind it
    not taken. *)
Theorem archive_missing_S3_object_panics :
  forall fuel (env : SyncArchive.Env) delivered rest w sb filePath fileSize,
    SyncArchive.archive env = S3Backend_Backend sb ->
    ValidateJSON_err (SyncArchive.mq env) delivered "ingestion-accession"
                     (Worker.Body delivered) = None ->
    let m := SyncArchive.json_Unmarshal env (Worker.Body delivered)
                                        (SyncArchive.message w) in
    GetArchived_ans (SyncArchive.db env) (SyncArchive.User m)
                    (SyncArchive.Filepath m)
                    (extract_sha256 (SyncArchive.DecryptedChecksums m))
    = (filePath, fileSize, None) ->
    Storage.Body (fst (GetObject (Client sb) (Bucket sb) filePath)) = None ->
    snd (NewFileWriter (SyncArchive.backup env) filePath) = None ->
    exists w',
      SyncArchive.main_loop (S fuel) env (delivered :: rest) w
      = (Stop Panic, w')
      /\ SyncArchive.calls w'
         = SyncArchive.calls w
           ++ [ ValidateJSON "ingestion-accession" (Worker.Body delivered);
                GetArchived (SyncArchive.User m) (SyncArchive.Filepath m)
                  (extract_sha256 (SyncArchive.DecryptedChecksums m)) ].
Proof.
  intros fuel env delivered rest w sb filePath fileSize Hs3 Hval m Hget
         Hbody Hdst.
  subst m.
  unfold SyncArchive.main_loop. cbn [range]. unfold bind at 1.
  unfold SyncArchive.iteration, bind. cbn.
  rewrite Hval. cbn. rewrite Hget. cbn. rewrite Hs3. cbn.
  unfold S3Backend_NewFileReader.
  destruct (GetObject (Client sb) (Bucket sb) filePath) as [out e].
  cbn in Hbody. rewrite Hbody. cbn.
  destruct (NewFileWriter (SyncArchive.backup env) filePath) as [dst [e'|]];
    [discriminate Hdst|].
  cbn. unfold Copy. cbn.
  eexists. split; [reflexivity|]. cbn. rewrite <- !app_assoc. reflexivity.
Qed.

(** X19. The verify worker over an S3 backend never reports a file it
    cannot open: the backend answers no error, so the branch that
    publishes a file error is never taken.  Once the header is found,
    a turn that does not end in the acknowledge publishes nothing and
    neither acknowledges nor negative-acknowledges, whatever the
    client answers. *)
Theorem verify_on_S3_reports_no_file_error :
  forall D fuel (env : Verify.Env D) delivered w r w' sb,
    Verify.backend env = S3Backend_Backend sb ->
    Verify.iteration fuel env delivered w = (r, w') ->
    let msg := Verify.json_Unmarshal env (Worker.Body delivered)
                                     Verify.zero_message in
    snd (GetHeader_ans (Verify.db env) (Verify.FileID msg)) = None ->
    exists evs,
      Verify.calls w' = Verify.calls w ++ evs
      /\ (In (Ack false) evs
          \/ (count is_publish evs = 0 /\ resolutions evs = 0)).
Proof.
  intros D fuel env delivered w r w' sb Hs3 H msg Hh. subst msg.
  assert (Hopen : forall p, snd (NewFileReader (Verify.backend env) p) = None).
  { intros p. rewrite Hs3. cbn. unfold S3Backend_NewFileReader.
    now destruct (GetObject _ _ _). }
  clear Hs3.
  unfold Verify.iteration in H.
  pose proof (Hopen (Verify.ArchivePath
                       (Verify.json_Unmarshal env (Worker.Body delivered)
                                              Verify.zero_message)))
    as Ho.
  clear Hopen.
  VerifyFacts.run_verify_turn D env H; show_trace (@Verify.calls D); cbn;
    repeat match goal with
           | E : GetHeader_ans _ _ = _ |- _ => rewrite E in Hh; clear E
           | E : NewFileReader _ _ = _ |- _ => rewrite E in Ho; clear E
           end; cbn in *; try discriminate;
    try (right; split; reflexivity);
    first [congruence | left; tauto].
Qed.

Lemma extract_sha256_skips after acc :
  Forall (fun c' => Type_ c' <> "sha256"%string) after ->
  fold_left
    (fun acc checksum =>
       if String.eqb (Type_ checksum) "sha256" then Value checksum else acc)
    after acc = acc.
Proof.
  revert acc. induction after as [|c' after IH]; intros acc Hall;
    [reflexivity|].
  cbn. destruct (String.eqb_spec (Type_ c') "sha256") as [E|_].
  - now apply Forall_inv in Hall.
  - apply IH. now apply Forall_inv_tail in Hall.
Qed.

(** X20. The sha256 that the copy workers look a file up with is the value
    of the last entry of type sha256 among the checksums of the
    message, whatever comes before it; entries of other types alone
    give the empty string. *)
Theorem extract_sha256_last_entry :
  forall before c after,
    Type_ c = "sha256"%string ->
    Forall (fun c' => Type_ c' <> "sha256"%string) after ->
    extract_sha256 (before ++ c :: after) = Value c
    /\ extract_sha256 after = EmptyString.
Proof.
  intros before c after Hc Hafter. unfold extract_sha256. split.
  - rewrite fold_left_app. cbn.
    destruct (String.eqb_spec (Type_ c) "sha256") as [_|N];
      [|contradiction].
    now apply extract_sha256_skips.
  - now apply extract_sha256_skips.
Qed.

(** *** Examples *)

(** A bucket that knows the size of the object and fails to hand it
    out. *)
Definition lost_object : S3Backend :=
  {| Client :=
       {| GetObject := fun _ _ =>
            ({| Storage.Body := None |}, Some (ErrorString "NoSuchKey"));
          HeadObject := fun _ _ => ({| ContentLength := 3 |}, None);
          Upload := fun _ _ => Fixtures.empty_sink |};
     Bucket := "archive" |}.

Definition archive_on_lost_object : SyncArchive.Env :=
  {| SyncArchive.mq := Fixtures.broker true;
     SyncArchive.db := Fixtures.database true;
     SyncArchive.backup := S3Backend_Backend lost_object;
     SyncArchive.archive := S3Backend_Backend lost_object;
     SyncArchive.conf := Fixtures.broker_conf;
     SyncArchive.json_Unmarshal := fun _ _ => Fixtures.Archive.alice |}.

Lemma archive_missing_S3_object_panics_witness :
  exists w',
    SyncArchive.main_loop 10 archive_on_lost_object
                          [Fixtures.delivered; Fixtures.delivered]
                          Fixtures.Archive.start
    = (Stop Panic, w')
    /\ SyncArchive.calls w'
       = SyncArchive.calls Fixtures.Archive.start
         ++ [ ValidateJSON "ingestion-accession" "{...}";
              GetArchived "alice" "f.txt" "abc123" ].
Proof.
  apply (archive_missing_S3_object_panics
           9 archive_on_lost_object Fixtures.delivered [Fixtures.delivered]
           Fixtures.Archive.start lost_object "alice/f.txt.c4gh"%string 3%Z);
    reflexivity.
Defined.

Definition verify_on_lost_object : Verify.Env unit :=
  {| Verify.mq := Fixtures.broker true;
     Verify.db := Fixtures.database true;
     Verify.backend := S3Backend_Backend lost_object;
     Verify.conf := Fixtures.broker_conf;
     Verify.key := [];
     Verify.c4gh := Fixtures.Verification.passthrough;
     Verify.digests := Fixtures.Verification.toy_digests;
     Verify.json_Unmarshal := fun _ _ => Fixtures.Verification.work false;
     Verify.json_Marshal_verified :=
       Verify.json_Marshal_verified
         (Fixtures.Verification.env false true true);
     Verify.json_Marshal_FileError := fun e => Verify.Reason e |}.

Lemma verify_on_S3_reports_no_file_error_witness :
  let turn := Verify.iteration 10 verify_on_lost_object Fixtures.delivered
                               (Verify.fresh unit) in
  exists evs,
    Verify.calls (snd turn) = Verify.calls (Verify.fresh unit) ++ evs
    /\ (In (Ack false) evs
        \/ (count is_publish evs = 0 /\ resolutions evs = 0)).
Proof.
  intros turn.
  apply (verify_on_S3_reports_no_file_error
           unit 10 verify_on_lost_object Fixtures.delivered
           (Verify.fresh unit) (fst turn) (snd turn) lost_object).
  - reflexivity.
  - vm_compute. reflexivity.
  - reflexivity.
Defined.

(** Two sha256 entries with an md5 entry between and one behind. *)
Lemma extract_sha256_last_entry_witness :
  extract_sha256
    ([ {| Type_ := "sha256"; Value := "0001" |};
       {| Type_ := "md5"; Value := "0002" |} ]
     ++ {| Type_ := "sha256"; Value := "0003" |}
     :: [ {| Type_ := "md5"; Value := "0004" |} ])
  = "0003"%string
  /\ extract_sha256 [ {| Type_ := "md5"; Value := "0004" |} ] = EmptyString.
Proof.
  apply (extract_sha256_last_entry
           [ {| Type_ := "sha256"; Value := "0001" |};
             {| Type_ := "md5"; Value := "0002" |} ]
           {| Type_ := "sha256"; Value := "0003" |}
           [ {| Type_ := "md5"; Value := "0004" |} ]).
  - reflexivity.
  - apply Forall_cons; [discriminate|apply Forall_nil].
Defined.

End StorageMore.
